(** * Distributed computation of attributions: the tutorial's two flows

    A shallow embedding of [tutorials/Distributed_Attribution.ipynb].
    Part 1 splits one batch over [WORLD_SIZE] processes and gathers the
    per-rank attributions on rank 0; Part 2 splits a dataset with a
    [DistributedSampler] and reduces the per-rank mean attributions.

    The toy model of Part 1 is computed in float32, as [nn.Linear] does.
    The tensors that travel through the flows hold exact rationals ([Q]),
    the numbers that the float32 entries stand for up to rounding; they
    carry their values only (the device a tensor lives on is recorded by
    the [Cuda] call of the trace, not in the tensor). *)

From stdpp Require Import base list strings gmap.
From Stdlib Require Import QArith Qminmax Qpower Lia Lqa.
From Stdlib Require Import Floats.SpecFloat.

Open Scope Q_scope.
Open Scope nat_scope.

(** ** Tensors *)

(** A 1-D tensor is its list of entries, a 2-D tensor the list of its rows
    (dimension 0 first). The rows of one tensor have one width. *)
Definition row := list Q.
Definition tensor := list row.

(** Python exceptions the flows can meet. *)
Inductive exn :=
| IndexError
| ZeroDivisionError
| TypeError
| ValueError
| RuntimeError (msg : string).

Inductive result (A : Type) :=
| Ok (a : A)
| Err (e : exn).
Arguments Ok {A} a.
Arguments Err {A} e.

(** *** The [torch] operations the notebook calls *)

(** [torch.arange(n)]: the entries 0, 1, ..., n-1. *)
Definition arange (n : nat) : row :=
  map (fun i => inject_Z (Z.of_nat i)) (seq 0 n).

(** Consecutive runs of [n] entries of [l], [count] of them. *)
Definition pieces {A} (l : list A) (n count : nat) : list (list A) :=
  map (fun i => take n (drop (i * n) l)) (seq 0 count).

(** Integer division rounded up. *)
Definition ceil_div (a b : nat) : nat := (a + b - 1) / b.

(** [v.reshape(rows, cols)] of a 1-D tensor: consecutive runs of [cols]
    entries; the sizes must multiply to the number of entries. *)
Definition reshape (v : row) (rows cols : nat) : result tensor :=
  if decide (rows * cols = length v)
  then Ok (pieces v cols rows)
  else Err (RuntimeError "shape is invalid for input").

(** [q * t] for a Python float [q] and a 2-D tensor [t]. *)
Definition scalar_mul (q : Q) (t : tensor) : tensor :=
  map (map (Qmult q)) t.

(** [torch.split(t, split_size)] along dimension 0: pieces of [split_size]
    rows, the last one shorter when the rows do not divide evenly. *)
Definition split (t : tensor) (split_size : nat) : list tensor :=
  let num_splits := Nat.max (ceil_div (length t) split_size) 1 in
  pieces t split_size num_splits.

(** [t.chunk(chunks)]: the split size is the row count divided by [chunks],
    rounded up, so fewer than [chunks] pieces may come back. *)
Definition chunk (t : tensor) (chunks : nat) : result (list tensor) :=
  if decide (chunks = 0)
  then Err (RuntimeError "chunk expects `chunks` to be greater than 0")
  else
    let split_size := ceil_div (length t) chunks in
    if decide (split_size = 0)
    then Ok (replicate chunks [])
    else Ok (split t split_size).

(** [torch.cat(ts)] along dimension 0. *)
Definition cat (ts : list tensor) : tensor := concat ts.

(** [torch.zeros_like(t)]. *)
Definition zeros_like (t : tensor) : tensor := map (map (fun _ => 0%Q)) t.

(** ** float32 *)

(** IEEE 754 binary32, the dtype of the tensors of the notebook, as the
    Standard Library specifies it: 24 bits of precision, exponents up to
    128, round to nearest, ties to even. *)
Module F32.

Definition prec : Z := 24.
Definition emax : Z := 128.

Definition f32 := spec_float.

Definition add : f32 -> f32 -> f32 := SFadd prec emax.
Definition mul : f32 -> f32 -> f32 := SFmul prec emax.
Definition leb : f32 -> f32 -> bool := SFleb.
Definition valid (x : f32) : Prop := valid_binary prec emax x = true.

(** The float32 nearest to [c * 2^g]; [of_Z] is the conversion of an
    integer. *)
Definition nearest (c g : Z) : f32 := binary_normalize prec emax c g false.
Definition of_Z (z : Z) : f32 := nearest z 0.

Definition zero : f32 := S754_zero false.
Definition one : f32 := of_Z 1.

(** The number a finite float32 stands for. *)
Definition to_Q (x : f32) : option Q :=
  match x with
  | S754_zero _ => Some 0%Q
  | S754_finite s m e => Some (inject_Z (cond_Zopp s (Zpos m)) * 2 ^ e)%Q
  | _ => None
  end.

End F32.

(** ** The toy model of Part 1 *)

Module ToyModel.

(** [nn.Parameter(torch.ones(4, 3))]. *)
Definition weight : list (list F32.f32) := replicate 4 (replicate 3 F32.one).

(** [nn.Parameter(torch.tensor([-10.0, 1.0, 1.0, 1.0]))]. *)
Definition bias : list F32.f32 :=
  [F32.of_Z (-10); F32.of_Z 1; F32.of_Z 1; F32.of_Z 1].

(** One entry of [x W^T]: the products are added up in index order. *)
Definition dot (w x : list F32.f32) : F32.f32 :=
  foldl (fun acc p => F32.add acc (F32.mul p.1 p.2)) F32.zero (zip x w).

(** [nn.Linear]: [x W^T + b], the bias added to the finished product. *)
Definition linear1 (x : list F32.f32) : list F32.f32 :=
  zip_with F32.add (map (fun w => dot w x) weight) bias.

(** [nn.ReLU]: entrywise, 0 where the entry is at most 0 and the entry
    itself elsewhere (a NaN stays). *)
Definition relu (v : list F32.f32) : list F32.f32 :=
  map (fun x => if F32.leb x F32.zero then F32.zero else x) v.

Definition forward (x : list F32.f32) : list F32.f32 := relu (linear1 x).

(** The function of real numbers that [forward] rounds: the model as the
    flows hand it to Integrated Gradients, whose tensors hold rationals. *)
Module Exact.

Definition weight : tensor := replicate 4 (replicate 3 1%Q).
Definition bias : row := [-10; 1; 1; 1]%Q.

Definition dot (w x : row) : Q :=
  foldr Qplus 0%Q (zip_with Qmult w x).

Definition linear1 (x : row) : row :=
  zip_with Qplus (map (fun w => dot w x) weight) bias.

Definition relu (v : row) : row := map (Qmax 0) v.

Definition forward (x : row) : row := relu (linear1 x).

End Exact.

End ToyModel.

(** The batch of Part 1: [1.0 * torch.arange(12).reshape(4,3)]. *)
Definition batch : result tensor :=
  match reshape (arange 12) 4 3 with
  | Ok t => Ok (scalar_mul 1 t)
  | Err e => Err e
  end.

Definition example_batch : tensor :=
  [[0; 1; 2]; [3; 4; 5]; [6; 7; 8]; [9; 10; 11]]%Q.

(** ** Processes: library calls, collectives and exceptions *)

(** What [print] is given. *)
Inductive value :=
| VStr (s : string)
| VTensor1 (v : row)
| VTensor2 (t : tensor).

(** A [torch.multiprocessing.Process] object: the arguments after
    [target=init_process] and the flow's [run]. Part 2 passes no batch. *)
Inductive Process :=
| MkProcess (rank size : nat) (inp_batch : option tensor).

(** The calls a flow makes outside its own code, in the form the trace
    records them. *)
Inductive call :=
| SetEnviron (key val : string)
| InitProcessGroup (backend : string) (rank world_size : nat)
| DestroyProcessGroup
| ReadCsv (path : string)
| Preprocess
| TorchLoad (path : string)
| LoadStateDict
| Construct (cls : string)
| Cuda (device : nat)
| WrapDDP (device_ids : list nat)
| Attribute (inp : tensor) (target : nat)
| DistGather (t : tensor) (gather_list : option (list tensor))
| DistReduce (t : row) (dst : nat)
| Print (args : list value)
| Start (p : Process)
| Join (p : Process).

(** A Python function body as a tree of calls. There is no constructor
    for [try]: the notebook has none. The collectives hand the
    continuation what the call leaves in the tensor (list) it was given. *)
Inductive proc (A : Type) : Type :=
| Ret (a : A)
| Raise (e : exn)
| Call (c : call) (k : proc A)
| Gather (t : tensor) (gather_list : option (list tensor))
    (k : list tensor -> proc A)
| Reduce (t : row) (dst : nat) (k : row -> proc A).
Arguments Ret {A} a.
Arguments Raise {A} e.
Arguments Call {A} c k.
Arguments Gather {A} t gather_list k.
Arguments Reduce {A} t dst k.

Fixpoint proc_bind {A B} (f : A -> proc B) (p : proc A) : proc B :=
  match p with
  | Ret a => f a
  | Raise e => Raise e
  | Call c k => Call c (proc_bind f k)
  | Gather t gl k => Gather t gl (fun r => proc_bind f (k r))
  | Reduce t dst k => Reduce t dst (fun r => proc_bind f (k r))
  end.

#[global] Instance proc_mret : MRet proc := @Ret.
#[global] Instance proc_mbind : MBind proc := @proc_bind.

Definition call_ (c : call) : proc unit := Call c (Ret tt).

Definition lift {A} (r : result A) : proc A :=
  match r with
  | Ok a => Ret a
  | Err e => Raise e
  end.

(** *** One process *)

(** The state of one OS process: its environment variables, the process
    group it has joined as (rank, world size), and the calls made so far. *)
Record pstate := {
  environ : gmap string string;
  group : option (nat * nat);
  trace : list call
}.

Definition init_state (env : gmap string string) : pstate :=
  {| environ := env; group := None; trace := [] |}.

Definition log (c : call) (st : pstate) : pstate :=
  {| environ := environ st; group := group st; trace := trace st ++ [c] |}.

Definition apply_call (c : call) (st : pstate) : pstate :=
  match c with
  | SetEnviron key val =>
      {| environ := <[key := val]> (environ st);
         group := group st; trace := trace st |}
  | InitProcessGroup _ rank world_size =>
      {| environ := environ st;
         group := Some (rank, world_size); trace := trace st |}
  | DestroyProcessGroup =>
      {| environ := environ st; group := None; trace := trace st |}
  | _ => st
  end.

(** Where a process stands: returned, raised, or inside a collective. *)
Inductive status (A : Type) : Type :=
| Finished (a : A)
| Failed (e : exn)
| AtGather (t : tensor) (gather_list : option (list tensor))
    (k : list tensor -> proc A)
| AtReduce (t : row) (dst : nat) (k : row -> proc A).
Arguments Finished {A} a.
Arguments Failed {A} e.
Arguments AtGather {A} t gather_list k.
Arguments AtReduce {A} t dst k.

(** What a collective leaves behind for the caller: the tensors now in
    its [gather_list], the contents of the tensor it gave to [reduce]. *)
Record reply := {
  gathered : list tensor;
  reduced : row
}.

(** [raises c] is the exception the library throws at call [c], if any.
    A raising call ends the process: nothing catches it. A collective
    consumes the next of the [replies]; with none left the process waits
    in it. *)
Fixpoint exec {A} (raises : call -> option exn) (replies : list reply)
    (p : proc A) (st : pstate) : pstate * status A :=
  match p with
  | Ret a => (st, Finished a)
  | Raise e => (st, Failed e)
  | Call c k =>
      match raises c with
      | Some e => (log c st, Failed e)
      | None => exec raises replies k (apply_call c (log c st))
      end
  | Gather t gl k =>
      match raises (DistGather t gl), replies with
      | Some e, _ => (log (DistGather t gl) st, Failed e)
      | None, [] => (log (DistGather t gl) st, AtGather t gl k)
      | None, r :: rest =>
          exec raises rest (k (gathered r)) (log (DistGather t gl) st)
      end
  | Reduce t dst k =>
      match raises (DistReduce t dst), replies with
      | Some e, _ => (log (DistReduce t dst) st, Failed e)
      | None, [] => (log (DistReduce t dst) st, AtReduce t dst k)
      | None, r :: rest =>
          exec raises rest (k (reduced r)) (log (DistReduce t dst) st)
      end
  end.

(** A process on its own runs up to its first collective. *)
Definition run_local {A} (raises : call -> option exn) (p : proc A)
    (st : pstate) : pstate * status A :=
  exec raises [] p st.

Definition no_faults : call -> option exn := fun _ => None.

(** *** The world: all processes of one flow *)

Definition world := list (pstate * status unit).

Definition gather_args (w : world)
  : option (list (tensor * option (list tensor) * (list tensor -> proc unit))) :=
  mapM (fun ps => match ps.2 with
                  | AtGather t gl k => Some (t, gl, k)
                  | _ => None
                  end) w.

Definition reduce_args (w : world)
  : option (list (row * nat * (row -> proc unit))) :=
  mapM (fun ps => match ps.2 with
                  | AtReduce t dst k => Some (t, dst, k)
                  | _ => None
                  end) w.

(** Every process has joined the group under its own index, and the world
    size each gave is the number of processes. *)
Definition group_ok (w : world) : bool :=
  bool_decide (Forall (fun p => p = true)
    (imap (fun i ps => bool_decide (group (ps.1) = Some (i, length w))) w)).

Definition shape (t : tensor) : list nat := map length t.

(** [gather] with the default [dst=0]: rank 0 must bring a list of one
    tensor per rank, each of the shape of what that rank sends; the other
    ranks must bring none. *)
Definition gather_ok
    (args : list (tensor * option (list tensor) * (list tensor -> proc unit)))
  : bool :=
  bool_decide (Forall (fun p => p = true)
    (imap (fun i a =>
       match i, a.1.2 with
       | 0, Some l => bool_decide (map shape l = map (fun b => shape b.1.1) args)
       | S _, None => true
       | _, _ => false
       end) args)).

Definition vadd (u v : row) : row := zip_with Qplus u v.

(** The elementwise sum of the ranks' tensors, rank 0 first. *)
Definition reduce_sum (ts : list row) : row :=
  match ts with
  | [] => []
  | t :: rest => foldl vadd t rest
  end.

(** [reduce]: the ranks must name one destination and bring tensors of
    one length. *)
Definition reduce_ok (args : list (row * nat * (row -> proc unit))) : bool :=
  match args with
  | [] => true
  | a0 :: _ =>
      bool_decide (Forall (fun a => a.1.2 = a0.1.2 /\
                                    length a.1.1 = length a0.1.1) args)
  end.

Definition reduce_dst (args : list (row * nat * (row -> proc unit))) : nat :=
  match args with
  | [] => 0
  | a0 :: _ => a0.1.2
  end.

(** One collective: when every process waits in the same one and the
    arguments fit, each continues with what the collective left it (a rank
    that is not the destination of [reduce] keeps its own tensor).
    Anything else (a process that ended early, arguments that do not fit)
    is outside what is modelled: the world stays as it is. *)
Definition collective_round (raises : call -> option exn) (w : world)
  : option world :=
  if negb (group_ok w) then None
  else match gather_args w with
  | Some args =>
      if gather_ok args then
        let gathered := map (fun a => a.1.1) args in
        Some (imap (fun i '(ps, a) =>
                 run_local raises
                   (a.2 (match i with 0 => gathered | S _ => [] end)) ps.1)
                (zip w args))
      else None
  | None =>
      match reduce_args w with
      | Some args =>
          if reduce_ok args then
            let total := reduce_sum (map (fun a => a.1.1) args) in
            Some (imap (fun i '(ps, a) =>
                     run_local raises
                       (a.2 (if decide (i = reduce_dst args) then total
                             else a.1.1)) ps.1)
                    (zip w args))
          else None
      | None => None
      end
  end.

Fixpoint world_run (raises : call -> option exn) (rounds : nat) (w : world)
  : world :=
  match rounds with
  | 0 => w
  | S n =>
      match collective_round raises w with
      | Some w' => world_run raises n w'
      | None => w
      end
  end.

(** The processes a launcher has started, in start order. *)
Definition started (tr : list call) : list Process :=
  omap (fun c => match c with Start p => Some p | _ => None end) tr.

Definition joined (tr : list call) : list Process :=
  omap (fun c => match c with Join p => Some p | _ => None end) tr.

(** What a process has printed. *)
Definition printed (tr : list call) : list (list value) :=
  omap (fun c => match c with Print args => Some args | _ => None end) tr.

(** ** What lies outside the notebook *)

(** Modelled from the spec: [captum.attr.IntegratedGradients] is not among
    the sources; the spec calls it "an external feature-attribution
    algorithm used as a black box" that is invoked "per shard". [ig f t x]
    is the attribution of the one example [x] for the model with forward
    function [f] and target [t]; a batch is attributed example by example:
    over exact numbers the path integral of one example does not depend
    on the other examples of its batch. (In float32 the batched kernels
    may round a row differently from one batch to another; the exact
    tensors of the flows leave that out, and no statement below compares
    the attribution of a batch with those of its chunks.)
    The pre-trained weights and the CSV are files:
    [state_dict_forward path] is the forward function of
    [TitanicSimpleNNModel] after [load_state_dict(torch.load(path))], and
    [test_features path] the test-set tensor that the preprocessing of
    [load_dataset] builds from the CSV at [path]. An attribution has the
    shape of the input it explains ([ig_shape]). Of the [n] rows of a CSV
    that [load_dataset] gets through, it keeps those outside a sample of
    [int(0.7 * n)] of them, so the test set is never empty
    ([test_features_nonempty]); a CSV without rows makes the preprocessing
    raise. *)
Record externals := {
  ig : (row -> row) -> nat -> row -> row;
  state_dict_forward : string -> row -> row;
  test_features : string -> tensor;
  ig_shape : forall f t x, length (ig f t x) = length x;
  test_features_nonempty : forall path, test_features path <> []
}.

(** [IntegratedGradients(model).attribute(inp, target=target)]. *)
Definition ig_attribute (ext : externals) (forward : row -> row)
    (inp : tensor) (target : nat) : proc tensor :=
  Call (Attribute inp target) (Ret (map (ig ext forward target) inp)).

(** *** [torch.utils.data]: sampler and loader *)

Record sampler := {
  dataset_len : nat;
  num_replicas : nat;
  sampler_rank : nat;
  num_samples : nat;
  total_size : nat
}.

(** [DistributedSampler(dataset, num_replicas, rank, shuffle=False)]. *)
Definition DistributedSampler (dataset_len num_replicas rank : nat)
  : result sampler :=
  if decide (num_replicas = 0) then Err ZeroDivisionError
  else if decide (num_replicas <= rank) then Err ValueError
  else
    let num_samples := ceil_div dataset_len num_replicas in
    Ok {| dataset_len := dataset_len; num_replicas := num_replicas;
          sampler_rank := rank; num_samples := num_samples;
          total_size := num_samples * num_replicas |}.

(** The Python slice [l[start:stop:step]] for non-negative bounds. *)
Definition slice {A} (l : list A) (start stop step : nat) : list A :=
  omap (fun j => l !! (start + j * step))
       (seq 0 (ceil_div (Nat.min stop (length l) - start) step)).

(** [iter(sampler)]: the indices in order, padded with repeats from the
    front up to [total_size], then every [num_replicas]-th from [rank]. *)
Definition sampler_iter (s : sampler) : list nat :=
  let indices := seq 0 (dataset_len s) in
  let padding_size := total_size s - length indices in
  let indices :=
    if decide (padding_size <= length indices)
    then indices ++ take padding_size indices
    else indices ++
         take padding_size
           (concat (replicate (ceil_div padding_size (length indices)) indices))
  in
  slice indices (sampler_rank s) (total_size s) (num_replicas s).

(** [len(sampler)]. *)
Definition sampler_len (s : sampler) : nat := num_samples s.

(** The index batches a [DataLoader(dataset, batch_size, sampler)] draws:
    runs of [batch_size] sampler indices, the last one shorter. *)
Definition batched (indices : list nat) (batch_size : nat) : list (list nat) :=
  pieces indices batch_size (ceil_div (length indices) batch_size).

(** The rows of the dataset tensor at the given indices. *)
Definition fetch (dataset : tensor) (idxs : list nat) : result tensor :=
  match mapM (fun i => dataset !! i) idxs with
  | Some rows => Ok rows
  | None => Err IndexError
  end.

(** [t.sum(dim=0)] of a tensor with at least one row. *)
Definition sum_dim0 (t : tensor) : row :=
  match t with
  | [] => []
  | r :: rest => foldl vadd r rest
  end.

Definition vscale (q : Q) (v : row) : row := map (Qmult q) v.
Definition vdiv (v : row) (n : nat) : row :=
  map (fun x => x / inject_Z (Z.of_nat n))%Q v.

(** ** Part 1: one batch split over the processes *)

Module Part1.
Section Flow.
Context (ext : externals).

Definition USE_CUDA : bool := true.
Definition WORLD_SIZE : nat := 4.

(** [run(rank, size, inp_batch)]: the model and the input are moved to
    device [rank] and the model wrapped in [DistributedDataParallel] when
    [USE_CUDA]; the attribution of the input is gathered on rank 0, which
    prints the concatenation. *)
Definition run (rank size : nat) (inp_batch : tensor) : proc unit :=
  call_ (Construct "ToyModel");;
  (if USE_CUDA
   then call_ (Cuda rank);; call_ (Cuda rank);; call_ (WrapDDP [rank])
   else mret tt);;
  call_ (Construct "IntegratedGradients");;
  attr ← ig_attribute ext ToyModel.Exact.forward inp_batch 0;
  if decide (rank = 0) then
    let output_list := replicate size (zeros_like attr) in
    output_list ← Gather attr (Some output_list) Ret;
    let combined_attr := cat output_list in
    call_ (Print [VTensor2 combined_attr])
  else
    Gather attr None (fun _ => Ret tt).

Definition init_process (rank size : nat)
    (fn : nat -> nat -> tensor -> proc unit) (inp_batch : tensor)
    (backend : string) : proc unit :=
  call_ (SetEnviron "MASTER_ADDR" "127.0.0.1");;
  call_ (SetEnviron "MASTER_PORT" "29500");;
  call_ (InitProcessGroup backend rank size);;
  fn rank size inp_batch;;
  call_ DestroyProcessGroup.

(** [batch_chunks[rank]]. *)
Definition index (batch_chunks : list tensor) (rank : nat) : result tensor :=
  match batch_chunks !! rank with
  | Some c => Ok c
  | None => Err IndexError
  end.

Fixpoint start_loop (size : nat) (batch_chunks : list tensor)
    (ranks : list nat) (processes : list Process) : proc (list Process) :=
  match ranks with
  | [] => mret processes
  | rank :: rest =>
      c ← lift (index batch_chunks rank);
      let p := MkProcess rank size (Some c) in
      call_ (Start p);;
      start_loop size batch_chunks rest (processes ++ [p])
  end.

Fixpoint join_loop (processes : list Process) : proc unit :=
  match processes with
  | [] => mret tt
  | p :: rest => call_ (Join p);; join_loop rest
  end.

(** The launcher cell. *)
Definition launch (size : nat) : proc unit :=
  batch ← lift batch;
  batch_chunks ← lift (chunk batch size);
  processes ← start_loop size batch_chunks (seq 0 size) [];
  join_loop processes.

(** What a started process executes: [init_process] on the process's
    arguments, with the default backend. *)
Definition body (p : Process) : proc unit :=
  match p with
  | MkProcess rank size (Some inp_batch) =>
      init_process rank size run inp_batch "gloo"
  | MkProcess _ _ None => Raise TypeError
  end.

(** The launcher and the processes it started, each from a copy of the
    launcher's environment, run through [rounds] collectives. *)
Definition flow (raises : call -> option exn) (env : gmap string string)
    (size rounds : nat) : (pstate * status unit) * world :=
  let parent := run_local raises (launch size) (init_state env) in
  (parent,
   world_run raises rounds
     (map (fun p => run_local raises (body p) (init_state env))
          (started (trace parent.1)))).

(** The comparison cell: the whole batch in one process. *)
Definition single_process : proc unit :=
  call_ (Construct "ToyModel");;
  call_ (Construct "IntegratedGradients");;
  batch ← lift batch;
  attr ← ig_attribute ext ToyModel.Exact.forward batch 0;
  call_ (Print [VTensor2 attr]).

(** The [DataParallel] cell, on the same [batch]. *)
Definition data_parallel : proc unit :=
  call_ (Cuda 0);;
  call_ (Construct "DataParallel");;
  call_ (Construct "IntegratedGradients");;
  batch ← lift batch;
  call_ (Cuda 0);;
  attr ← ig_attribute ext ToyModel.Exact.forward batch 0;
  call_ (Print [VTensor2 attr]).

End Flow.
End Part1.

(** ** Part 2: a dataset split over the processes *)

Module Part2.
Section Flow.
Context (ext : externals).

Definition dataset_path : string := "titanic3.csv".
Definition USE_CUDA : bool := true.
Definition WORLD_SIZE : nat := 4.

(** [load_dataset]: [pd.read_csv(dataset_path)], then the pandas and numpy
    preprocessing (dummies, fillna, drop, the seeded train/test split),
    recorded as the one call [Preprocess]; the result is the test-set
    tensor wrapped in a [TensorDataset]. *)
Definition load_dataset : proc tensor :=
  call_ (ReadCsv dataset_path);;
  call_ Preprocess;;
  mret (test_features ext dataset_path).

(** [total_attr += attr.sum(dim=0)], with [None] for the initial Python
    integer 0 (which broadcasts). *)
Definition add_total (total_attr : option row) (s : row) : row :=
  match total_attr with
  | None => map (Qplus 0) s
  | Some t => vadd t s
  end.

Fixpoint attr_loop (net : row -> row) (rank : nat) (dataset : tensor)
    (loader : list (list nat)) (total_attr : option row)
  : proc (option row) :=
  match loader with
  | [] => mret total_attr
  | idxs :: rest =>
      inp ← lift (fetch dataset idxs);
      (if USE_CUDA then call_ (Cuda rank) else mret tt);;
      attr ← ig_attribute ext net inp 1;
      attr_loop net rank dataset rest
        (Some (add_total total_attr (sum_dim0 attr)))
  end.

(** [total_attr /= len(sampler)]: a tensor is divided entrywise; the
    integer 0 divided by 0 raises, and divided by anything else is a
    float, which [reduce] does not take. *)
Definition divide (total_attr : option row) (n : nat) : proc row :=
  match total_attr with
  | Some t => mret (vdiv t n)
  | None => if decide (n = 0) then Raise ZeroDivisionError
            else Raise TypeError
  end.

(** [run(rank, size)]: the rank's share of the dataset is attributed batch
    by batch, the sums are accumulated, divided by [len(sampler)] and
    reduced to rank 0, which divides by [size] and prints. *)
Definition run (rank size : nat) : proc unit :=
  dataset ← load_dataset;
  call_ (Construct "TitanicSimpleNNModel");;
  call_ (TorchLoad "models/titanic_model.pt");;
  call_ LoadStateDict;;
  let net := state_dict_forward ext "models/titanic_model.pt" in
  sampler ← lift (DistributedSampler (length dataset) size rank);
  let loader := batched (sampler_iter sampler) 50 in
  (if USE_CUDA then call_ (Cuda rank) else mret tt);;
  call_ (Construct "IntegratedGradients");;
  total_attr ← attr_loop net rank dataset loader None;
  total_attr ← divide total_attr (sampler_len sampler);
  total_attr ← Reduce total_attr 0 Ret;
  if decide (rank = 0) then
    let total_attr := vdiv total_attr size in
    call_ (Print [VStr "Average Attributions:"; VTensor1 total_attr])
  else mret tt.

Definition init_process (rank size : nat)
    (fn : nat -> nat -> proc unit) (backend : string) : proc unit :=
  call_ (SetEnviron "MASTER_ADDR" "127.0.0.1");;
  call_ (SetEnviron "MASTER_PORT" "29500");;
  call_ (InitProcessGroup backend rank size);;
  fn rank size;;
  call_ DestroyProcessGroup.

Fixpoint start_loop (size : nat) (ranks : list nat)
    (processes : list Process) : proc (list Process) :=
  match ranks with
  | [] => mret processes
  | rank :: rest =>
      let p := MkProcess rank size None in
      call_ (Start p);;
      start_loop size rest (processes ++ [p])
  end.

Fixpoint join_loop (processes : list Process) : proc unit :=
  match processes with
  | [] => mret tt
  | p :: rest => call_ (Join p);; join_loop rest
  end.

(** The launcher cell. *)
Definition launch (size : nat) : proc unit :=
  processes ← start_loop size (seq 0 size) [];
  join_loop processes.

Definition body (p : Process) : proc unit :=
  match p with
  | MkProcess rank size None => init_process rank size run "gloo"
  | MkProcess _ _ (Some _) => Raise TypeError
  end.

Definition flow (raises : call -> option exn) (env : gmap string string)
    (size rounds : nat) : (pstate * status unit) * world :=
  let parent := run_local raises (launch size) (init_state env) in
  (parent,
   world_run raises rounds
     (map (fun p => run_local raises (body p) (init_state env))
          (started (trace parent.1)))).

End Flow.
End Part2.

(** An instance of the black boxes to evaluate the flows on: the
    attribution of an example is the example times the model's output at
    the target; the loaded network sums its input; the CSV holds three
    examples of two features. *)
Definition sample_externals : externals := {|
  ig := fun f t x => map (Qmult (default 0%Q (f x !! t))) x;
  state_dict_forward := fun _ x => [0%Q; foldr Qplus 0%Q x];
  test_features := fun _ => [[1; 2]; [3; 4]; [5; 6]]%Q;
  ig_shape := fun f t x => length_map (Qmult (default 0%Q (f x !! t))) x;
  test_features_nonempty := fun _ => ltac:(discriminate)
|}.


(** * Properties of the flows: vocabulary *)

(** ** Calls of a body *)

(** Every call a body can make, whatever the collectives reply, satisfies
    [P]. *)
Inductive all_calls {A} (P : call -> Prop) : proc A -> Prop :=
| ac_ret a : all_calls P (Ret a)
| ac_raise e : all_calls P (Raise e)
| ac_call c k : P c -> all_calls P k -> all_calls P (Call c k)
| ac_gather t gl k :
    P (DistGather t gl) -> (forall r, all_calls P (k r)) ->
    all_calls P (Gather t gl k)
| ac_reduce t dst k :
    P (DistReduce t dst) -> (forall r, all_calls P (k r)) ->
    all_calls P (Reduce t dst k).

Definition is_setenv (c : call) : Prop :=
  match c with SetEnviron _ _ => True | _ => False end.

Definition is_collective (c : call) : Prop :=
  match c with
  | DistGather _ _ | DistReduce _ _ => True
  | _ => False
  end.

Definition touches_group (c : call) : Prop :=
  match c with
  | InitProcessGroup _ _ _ | DestroyProcessGroup => True
  | _ => False
  end.

Definition reads_file (c : call) : Prop :=
  match c with
  | ReadCsv _ | TorchLoad _ => True
  | _ => False
  end.

(** What the notebook exposes: the two rendezvous variables and the two
    file paths. *)
Definition surface_call (c : call) : Prop :=
  match c with
  | SetEnviron key val =>
      (key = "MASTER_ADDR" /\ val = "127.0.0.1") \/
      (key = "MASTER_PORT" /\ val = "29500")
  | ReadCsv path => path = "titanic3.csv"
  | TorchLoad path => path = "models/titanic_model.pt"
  | _ => True
  end.

(** The calls of Part 1's [run] on rank [rank] with input [inp_batch]. *)
Definition run1_call (ext : externals) (rank : nat) (inp_batch : tensor)
    (c : call) : Prop :=
  match c with
  | Construct cls => cls = "ToyModel" \/ cls = "IntegratedGradients"
  | Cuda device => device = rank
  | WrapDDP device_ids => device_ids = [rank]
  | Attribute inp target => inp = inp_batch /\ target = 0
  | DistGather t gather_list =>
      t = map (ig ext ToyModel.Exact.forward 0) inp_batch /\
      (rank = 0 <-> is_Some gather_list)
  | Print _ => rank = 0
  | _ => False
  end.

(** The calls of the attribution loop of Part 2. *)
Definition loop_call (rank : nat) (c : call) : Prop :=
  match c with
  | Cuda device => device = rank
  | Attribute _ target => target = 1
  | _ => False
  end.

(** The calls of Part 2's [run] on rank [rank]. *)
Definition run2_call (rank : nat) (c : call) : Prop :=
  match c with
  | ReadCsv path => path = Part2.dataset_path
  | TorchLoad path => path = "models/titanic_model.pt"
  | Preprocess | LoadStateDict => True
  | Construct cls => cls = "TitanicSimpleNNModel" \/ cls = "IntegratedGradients"
  | Cuda device => device = rank
  | Attribute _ target => target = 1
  | DistReduce _ dst => dst = 0
  | Print _ => rank = 0
  | _ => False
  end.

(** The calls of [init_process] itself. *)
Definition bootstrap_call (rank size : nat) (backend : string) (c : call)
  : Prop :=
  match c with
  | SetEnviron key val =>
      (key = "MASTER_ADDR" /\ val = "127.0.0.1") \/
      (key = "MASTER_PORT" /\ val = "29500")
  | InitProcessGroup b r n => b = backend /\ r = rank /\ n = size
  | DestroyProcessGroup => True
  | _ => False
  end.

Definition launch_call (c : call) : Prop :=
  match c with
  | Start _ | Join _ => True
  | _ => False
  end.

(** A body that can only return through a collective, with nothing after
    it. *)
Inductive collective_last {A} : proc A -> Prop :=
| cl_raise e : collective_last (Raise e)
| cl_call c k :
    ~ is_collective c -> collective_last k -> collective_last (Call c k)
| cl_gather t gl k :
    (forall r, exists a, k r = Ret a) -> collective_last (Gather t gl k)
| cl_reduce t dst k :
    (forall r, exists a, k r = Ret a) -> collective_last (Reduce t dst k).

(** ** Traces *)

(** The calls a run has added to the trace. *)
Definition new_calls (st st' : pstate) : list call :=
  drop (length (trace st)) (trace st').

Definition extend (st : pstate) (calls : list call) : pstate :=
  {| environ := environ st; group := group st; trace := trace st ++ calls |}.


(** Every attribution is preceded by a [torch.load]. *)
Definition loads_before_attributing (tr : list call) : Prop :=
  forall j inp t, tr !! j = Some (Attribute inp t) ->
    exists i path, i < j /\ tr !! i = Some (TorchLoad path).

(** A call that raises is the last call of the run, and its exception is
    the outcome of the run. *)
Definition propagates {A} (p : proc A) : Prop :=
  forall raises replies st,
    exists new, trace (exec raises replies p st).1 = trace st ++ new /\
      forall i c e, new !! i = Some c -> raises c = Some e ->
        S i = length new /\ (exec raises replies p st).2 = Failed e.

(** The state of a process once the three bootstrap calls of
    [init_process] have returned. *)
Definition bootstrapped (backend : string) (rank size : nat) (st : pstate)
  : pstate :=
  {| environ := <["MASTER_PORT" := "29500"]>
                  (<["MASTER_ADDR" := "127.0.0.1"]> (environ st));
     group := Some (rank, size);
     trace := trace st ++ [SetEnviron "MASTER_ADDR" "127.0.0.1";
                           SetEnviron "MASTER_PORT" "29500";
                           InitProcessGroup backend rank size] |}.

Definition bootstrap_returns (raises : call -> option exn)
    (backend : string) (rank size : nat) : Prop :=
  raises (SetEnviron "MASTER_ADDR" "127.0.0.1") = None /\
  raises (SetEnviron "MASTER_PORT" "29500") = None /\
  raises (InitProcessGroup backend rank size) = None.

(** A library in which [ig.attribute] runs out of device memory. *)
Definition attribute_raises (c : call) : option exn :=
  match c with
  | Attribute _ _ => Some (RuntimeError "CUDA out of memory")
  | _ => None
  end.

(** ** Collectives *)

(** What [gather] leaves on rank [i] when the ranks sent [ts]. *)
Definition gather_reply (ts : list tensor) (i : nat) : reply :=
  {| gathered := match i with 0 => ts | S _ => [] end; reduced := [] |}.


(** ** Part 1 *)

(** The attribution a rank computes for its piece of the batch. *)
Definition attr_of (ext : externals) (inp : tensor) : tensor :=
  map (ig ext ToyModel.Exact.forward 0) inp.

(** The calls of rank [rank] from the gather on. *)
Definition aggregation_calls (size rank : nat) (attr : tensor)
    (attrs : list tensor) : list call :=
  match rank with
  | 0 => [DistGather attr (Some (replicate size (zeros_like attr)));
          Print [VTensor2 (cat attrs)]]
  | S _ => [DistGather attr None]
  end.

(** The state in which rank [rank] of Part 1 ends when the ranks have
    computed [attrs]. *)
Definition part1_final (ext : externals) (env : gmap string string)
    (size rank : nat) (inp : tensor) (attrs : list tensor) : pstate :=
  {| environ := <["MASTER_PORT" := "29500"]>
                  (<["MASTER_ADDR" := "127.0.0.1"]> env);
     group := None;
     trace := [SetEnviron "MASTER_ADDR" "127.0.0.1";
               SetEnviron "MASTER_PORT" "29500";
               InitProcessGroup "gloo" rank size;
               Construct "ToyModel"; Cuda rank; Cuda rank; WrapDDP [rank];
               Construct "IntegratedGradients"; Attribute inp 0] ++
              aggregation_calls size rank (attr_of ext inp) attrs ++
              [DestroyProcessGroup] |}.

(** ** Part 2 *)

(** The test set, the loaded network and the attribution of one example. *)
Definition dataset (ext : externals) : tensor :=
  test_features ext Part2.dataset_path.
Definition net (ext : externals) : row -> row :=
  state_dict_forward ext "models/titanic_model.pt".
Definition attr1 (ext : externals) (x : row) : row := ig ext (net ext) 1 x.

(** The rows of the dataset at the given indices. *)
Definition rows_at (ext : externals) (idxs : list nat) : tensor :=
  omap (fun i => dataset ext !! i) idxs.

Definition in_range (ext : externals) (idxs : list nat) : Prop :=
  Forall (fun i => i < length (dataset ext)) idxs.

(** The calls and the running total of the attribution loop. *)
Definition loop_calls (ext : externals) (rank : nat)
    (loader : list (list nat)) : list call :=
  concat (map (fun idxs => [Cuda rank; Attribute (rows_at ext idxs) 1]) loader).

Fixpoint loop_total (ext : externals) (loader : list (list nat))
    (total_attr : option row) : option row :=
  match loader with
  | [] => total_attr
  | idxs :: rest =>
      loop_total ext rest
        (Some (Part2.add_total total_attr
                 (sum_dim0 (map (attr1 ext) (rows_at ext idxs)))))
  end.

(** The state of rank [rank] when it reaches the attribution loop. *)
Definition before_loop (env : gmap string string) (rank size : nat) : pstate :=
  {| environ := <["MASTER_PORT" := "29500"]>
                  (<["MASTER_ADDR" := "127.0.0.1"]> env);
     group := Some (rank, size);
     trace := [SetEnviron "MASTER_ADDR" "127.0.0.1";
               SetEnviron "MASTER_PORT" "29500";
               InitProcessGroup "gloo" rank size;
               ReadCsv "titanic3.csv"; Preprocess;
               Construct "TitanicSimpleNNModel";
               TorchLoad "models/titanic_model.pt"; LoadStateDict;
               Cuda rank; Construct "IntegratedGradients"] |}.

(** What remains of [run] and [init_process] after the loop. *)
Definition after_loop (rank size : nat) (total_attr : row) (n : nat)
  : proc unit :=
  Reduce (vdiv total_attr n) 0 (fun total_attr =>
    proc_bind (fun _ => call_ DestroyProcessGroup)
      (if decide (rank = 0)
       then call_ (Print [VStr "Average Attributions:";
                          VTensor1 (vdiv total_attr size)])
       else Ret tt)).

(** The sampler of rank [rank] over [N] examples. *)
Definition the_sampler (N size rank : nat) : sampler :=
  {| dataset_len := N; num_replicas := size; sampler_rank := rank;
     num_samples := ceil_div N size;
     total_size := ceil_div N size * size |}.

(** The examples rank [r] draws, and their attributions. *)
Definition examples (ext : externals) (size r : nat) : tensor :=
  rows_at ext (sampler_iter (the_sampler (length (dataset ext)) size r)).
Definition attrs (ext : externals) (size r : nat) : list row :=
  map (attr1 ext) (examples ext size r).

(** The sum the loop adds for one batch of indices. *)
Definition batch_sum (ext : externals) (idxs : list nat) : row :=
  sum_dim0 (map (attr1 ext) (rows_at ext idxs)).

(** What rank [r] hands to [reduce]. *)
Definition sent (ext : externals) (size r : nat) : row :=
  vdiv (default []
          (loop_total ext
             (batched (sampler_iter
                         (the_sampler (length (dataset ext)) size r)) 50)
             None))
       (ceil_div (length (dataset ext)) size).

(** ** Vectors up to equality of rationals *)

Definition veq (u v : row) : Prop := Forall2 Qeq u v.

(** The sum of a non-empty list of vectors. *)
Definition vsum (vs : list row) : row :=
  match vs with
  | [] => []
  | v :: rest => foldl vadd v rest
  end.

Definition Q_of_nat (n : nat) : Q := inject_Z (Z.of_nat n).



(** ** Further vocabulary *)

(** The state after [dist.destroy_process_group()]. *)
Definition destroyed (st : pstate) : pstate :=
  {| environ := environ st; group := None;
     trace := trace st ++ [DestroyProcessGroup] |}.

(** A library in which the rendezvous fails: [init_process_group] raises. *)
Definition rendezvous_raises (c : call) : option exn :=
  match c with
  | InitProcessGroup _ _ _ => Some (RuntimeError "Address already in use")
  | _ => None
  end.

(** The positions of the padded index list that the ranks read, rank by
    rank. *)
Definition strided (size L : nat) : list nat :=
  concat (map (fun r => map (fun j => r + j * size) (seq 0 L)) (seq 0 size)).

(** The indices the samplers of all ranks draw, rank 0 first. *)
Definition all_draws (N size : nat) : list nat :=
  concat (map (fun r => sampler_iter (the_sampler N size r)) (seq 0 size)).


(** The inputs and targets of the [ig.attribute] calls of a trace. *)
Definition attributed (tr : list call) : list (tensor * nat) :=
  omap (fun c => match c with Attribute inp t => Some (inp, t) | _ => None end) tr.

(** ** float32 *)

(** A mantissa shifted right with no 1 among the bits dropped. *)
Definition no_bit_lost (mrs : shr_record) : Prop :=
  shr_r mrs = false /\ shr_s mrs = false.

(** The float32 that holds [c * 2^g] with the bits of [c] moved up to a
    24-bit mantissa. *)
Definition normal (c g : Z) : F32.f32 :=
  match c with
  | Z0 => F32.zero
  | _ => S754_finite (c <? 0)%Z
           (Z.to_pos (Z.abs c * 2 ^ (24 - Zdigits2 c)))
           (Zdigits2 c + g - 24)
  end.

(** [below y n]: [y] is a zero or a positive finite number at most [n]. *)
Definition below (y : F32.f32) (n : Z) : Prop :=
  match y with
  | S754_zero _ => True
  | S754_finite false m e => (inject_Z (Z.pos m) * 2 ^ e <= inject_Z n)%Q
  | _ => False
  end.

(** * Properties of the flows: proofs *)

(** ** The toy model and the batch *)

(** Claim C7. The batch of Part 1 is the 4x3 tensor of 0..11, and for each
    size in {1, 2, 4} [batch.chunk(size)] returns exactly [size] chunks of
    4/size rows each whose concatenation, in order, is the batch again. *)
Theorem chunk_partitions_example_batch :
  batch = Ok example_batch /\ length example_batch = 4 /\
  Forall (fun size =>
    exists chunks, chunk example_batch size = Ok chunks /\
      length chunks = size /\
      Forall (fun c => length c = 4 / size) chunks /\
      cat chunks = example_batch) [1; 2; 4].
Proof.
  split; [reflexivity|]. split; [reflexivity|].
  repeat constructor; eexists; (split; [reflexivity|]);
    (split; [reflexivity|]); (split; [|reflexivity]); repeat constructor.
Qed.

(** ** Runs of one process *)

Lemma all_calls_bind {A B} (P : call -> Prop) (p : proc A) (f : A -> proc B) :
  all_calls P p -> (forall a, all_calls P (f a)) -> all_calls P (p ≫= f).
Proof.
  intros Hp Hf. induction Hp; cbn; try constructor; auto.
Qed.

Lemma all_calls_lift {A} (P : call -> Prop) (r : result A) :
  all_calls P (lift r).
Proof. destruct r; constructor. Qed.

Lemma exec_all_calls {A} (P : call -> Prop) raises (p : proc A) :
  all_calls P p ->
  forall replies st, exists new,
    trace (exec raises replies p st).1 = trace st ++ new /\ Forall P new.
Proof.
  induction 1 as [a|e|c k Hc Hk IH|t gl k Hc Hk IH|t dst k Hc Hk IH];
    intros replies st; cbn.
  - exists []. by rewrite app_nil_r.
  - exists []. by rewrite app_nil_r.
  - destruct (raises c) as [e|].
    + exists [c]. split; [done|]. by constructor.
    + destruct (IH replies (apply_call c (log c st))) as (new & Hn & HP).
      exists (c :: new). split; [|by constructor].
      rewrite Hn. destruct c; cbn; by rewrite <- app_assoc.
  - destruct (raises (DistGather t gl)) as [e|], replies as [|r rest]; cbn;
      try (exists [DistGather t gl]; split; [done|]; by constructor).
    destruct (IH (gathered r) rest (log (DistGather t gl) st)) as (new & Hn & HP).
    exists (DistGather t gl :: new). split; [|by constructor].
    rewrite Hn. cbn. by rewrite <- app_assoc.
  - destruct (raises (DistReduce t dst)) as [e|], replies as [|r rest]; cbn;
      try (exists [DistReduce t dst]; split; [done|]; by constructor).
    destruct (IH (reduced r) rest (log (DistReduce t dst) st)) as (new & Hn & HP).
    exists (DistReduce t dst :: new). split; [|by constructor].
    rewrite Hn. cbn. by rewrite <- app_assoc.
Qed.

Lemma exec_environ {A} raises (p : proc A) :
  all_calls (fun c => ~ is_setenv c) p ->
  forall replies st, environ (exec raises replies p st).1 = environ st.
Proof.
  induction 1 as [a|e|c k Hc Hk IH|t gl k Hc Hk IH|t dst k Hc Hk IH];
    intros replies st; cbn; try done.
  - destruct (raises c) as [e|]; [done|].
    rewrite IH. destruct c; cbn in *; by try done.
  - destruct (raises _), replies as [|r rest]; cbn; try done. by rewrite IH.
  - destruct (raises _), replies as [|r rest]; cbn; try done. by rewrite IH.
Qed.

Lemma exec_bind_failed {A B} raises (p : proc A) (f : A -> proc B) :
  forall replies st st' e,
    exec raises replies p st = (st', Failed e) ->
    exec raises replies (p ≫= f) st = (st', Failed e).
Proof.
  induction p as [a|e0|c k IH|t gl k IH|t dst k IH]; intros replies st st' e; cbn.
  - discriminate.
  - by intros [= <- <-].
  - destruct (raises c); [by intros [= <- <-]|]. apply IH.
  - destruct (raises _), replies as [|r rest];
      try discriminate; try (by intros [= <- <-]). apply IH.
  - destruct (raises _), replies as [|r rest];
      try discriminate; try (by intros [= <- <-]). apply IH.
Qed.

Lemma exec_resume_gather {A} raises (p : proc A) :
  forall st st' t gl k r rest,
    exec raises [] p st = (st', AtGather t gl k) ->
    exec raises (r :: rest) p st = exec raises rest (k (gathered r)) st'.
Proof.
  induction p as [a0|e0|c k0 IH|t0 gl0 k0 IH|t0 dst0 k0 IH];
    intros st st' t gl k r rest; cbn; try discriminate.
  - destruct (raises c); [discriminate|]. apply IH.
  - destruct (raises _); [discriminate|]. intros [= <- <- <- <-]. done.
  - destruct (raises _); discriminate.
Qed.


(** ** Exceptions and [init_process] *)

Lemma exec_propagates {A} (p : proc A) : propagates p.
Proof.
  induction p as [a0|e0|c k IH|t gl k IH|t dst k IH]; intros raises replies st; cbn.
  - exists []. split; [by rewrite app_nil_r|]. intros i c e Hi. done.
  - exists []. split; [by rewrite app_nil_r|]. intros i c e Hi. done.
  - destruct (raises c) as [e0|] eqn:Hc.
    + exists [c]. split; [done|]. intros [|i] c' e Hi Hr; [|done].
      cbn in Hi. injection Hi as <-. split; [done|]. cbn. congruence.
    + destruct (IH raises replies (apply_call c (log c st))) as (new & Hn & Hl).
      exists (c :: new). split.
      * rewrite Hn. destruct c; cbn; by rewrite <- app_assoc.
      * intros [|i] c' e Hi Hr; cbn in Hi.
        -- injection Hi as <-. congruence.
        -- destruct (Hl i c' e Hi Hr) as [Hlen Hf]. split; [cbn; lia|done].
  - destruct (raises (DistGather t gl)) as [e0|] eqn:Hc.
    + exists [DistGather t gl]. split; [by destruct replies|].
      intros [|i] c' e Hi Hr; [|done].
      cbn in Hi. injection Hi as <-. split; [done|].
      destruct replies; cbn; congruence.
    + destruct replies as [|r rest].
      * exists [DistGather t gl]. split; [done|].
        intros [|i] c' e Hi Hr; [|done]. cbn in Hi. injection Hi as <-. congruence.
      * destruct (IH (gathered r) raises rest (log (DistGather t gl) st))
          as (new & Hn & Hl).
        exists (DistGather t gl :: new). split.
        -- rewrite Hn. cbn. by rewrite <- app_assoc.
        -- intros [|i] c' e Hi Hr; cbn in Hi.
           ++ injection Hi as <-. congruence.
           ++ destruct (Hl i c' e Hi Hr) as [Hlen Hf]. split; [cbn; lia|done].
  - destruct (raises (DistReduce t dst)) as [e0|] eqn:Hc.
    + exists [DistReduce t dst]. split; [by destruct replies|].
      intros [|i] c' e Hi Hr; [|done].
      cbn in Hi. injection Hi as <-. split; [done|].
      destruct replies; cbn; congruence.
    + destruct replies as [|r rest].
      * exists [DistReduce t dst]. split; [done|].
        intros [|i] c' e Hi Hr; [|done]. cbn in Hi. injection Hi as <-. congruence.
      * destruct (IH (reduced r) raises rest (log (DistReduce t dst) st))
          as (new & Hn & Hl).
        exists (DistReduce t dst :: new). split.
        -- rewrite Hn. cbn. by rewrite <- app_assoc.
        -- intros [|i] c' e Hi Hr; cbn in Hi.
           ++ injection Hi as <-. congruence.
           ++ destruct (Hl i c' e Hi Hr) as [Hlen Hf]. split; [cbn; lia|done].
Qed.

Lemma init_process1_exec raises replies rank size fn inp backend st :
  bootstrap_returns raises backend rank size ->
  exec raises replies (Part1.init_process rank size fn inp backend) st =
  exec raises replies (fn rank size inp ;; call_ DestroyProcessGroup)
    (bootstrapped backend rank size st).
Proof.
  intros (H1 & H2 & H3). unfold Part1.init_process. cbn.
  rewrite H1. cbn. rewrite H2. cbn. rewrite H3. cbn.
  unfold bootstrapped, log. cbn. by rewrite <- !app_assoc.
Qed.

Lemma init_process2_exec raises replies rank size fn backend st :
  bootstrap_returns raises backend rank size ->
  exec raises replies (Part2.init_process rank size fn backend) st =
  exec raises replies (fn rank size ;; call_ DestroyProcessGroup)
    (bootstrapped backend rank size st).
Proof.
  intros (H1 & H2 & H3). unfold Part2.init_process. cbn.
  rewrite H1. cbn. rewrite H2. cbn. rewrite H3. cbn.
  unfold bootstrapped, log. cbn. by rewrite <- !app_assoc.
Qed.

(** ** The calls of each function *)

Lemma all_calls_impl {A} (P Q : call -> Prop) (p : proc A) :
  (forall c, P c -> Q c) -> all_calls P p -> all_calls Q p.
Proof. intros HPQ. induction 1; constructor; auto. Qed.

Lemma run1_calls ext rank size inp :
  all_calls (run1_call ext rank inp) (Part1.run ext rank size inp).
Proof.
  unfold Part1.run, Part1.USE_CUDA, ig_attribute, call_. cbn.
  do 6 (constructor; [cbn; auto|]).
  destruct (decide (rank = 0)) as [->|Hr]; cbn.
  - constructor; [cbn; done|]. intros r. cbn.
    constructor; [done|]. constructor.
  - constructor; [cbn|intros r; constructor].
    split; [done|]. split; [done|]. intros [? [=]].
Qed.

Lemma load_dataset_calls ext rank :
  all_calls (run2_call rank) (Part2.load_dataset ext).
Proof.
  unfold Part2.load_dataset, call_. cbn.
  do 2 (constructor; [cbn; auto|]). constructor.
Qed.

Lemma attr_loop_calls ext net rank dataset loader total :
  all_calls (loop_call rank) (Part2.attr_loop ext net rank dataset loader total).
Proof.
  revert total. induction loader as [|idxs rest IH]; intros total; cbn.
  - constructor.
  - apply all_calls_bind; [apply all_calls_lift|]. intros inp.
    unfold Part2.USE_CUDA, ig_attribute, call_. cbn.
    do 2 (constructor; [cbn; auto|]). apply IH.
Qed.

Lemma run2_calls ext rank size :
  all_calls (run2_call rank) (Part2.run ext rank size).
Proof.
  unfold Part2.run.
  apply all_calls_bind; [apply load_dataset_calls|]. intros dataset.
  unfold call_. cbn. do 3 (constructor; [cbn; auto|]).
  apply all_calls_bind; [apply all_calls_lift|]. intros s.
  unfold Part2.USE_CUDA. cbn. do 2 (constructor; [cbn; auto|]).
  apply all_calls_bind.
  { eapply all_calls_impl; [|apply (attr_loop_calls ext _ rank)].
    intros []; cbn; tauto. }
  intros total.
  apply all_calls_bind.
  { destruct total; cbn; [constructor|]. destruct (decide _); constructor. }
  intros t. cbn. constructor; [done|]. intros r.
  destruct (decide (rank = 0)); cbn; repeat constructor. done.
Qed.

Lemma init_process1_calls (P : call -> Prop) rank size fn inp backend :
  all_calls P (fn rank size inp) ->
  all_calls (fun c => bootstrap_call rank size backend c \/ P c)
    (Part1.init_process rank size fn inp backend).
Proof.
  intros Hfn. unfold Part1.init_process, call_. cbn.
  do 3 (constructor; [left; cbn; auto|]).
  apply all_calls_bind.
  - eapply all_calls_impl; [|exact Hfn]. auto.
  - intros []. constructor; [by left|]. constructor.
Qed.

Lemma init_process2_calls (P : call -> Prop) rank size fn backend :
  all_calls P (fn rank size) ->
  all_calls (fun c => bootstrap_call rank size backend c \/ P c)
    (Part2.init_process rank size fn backend).
Proof.
  intros Hfn. unfold Part2.init_process, call_. cbn.
  do 3 (constructor; [left; cbn; auto|]).
  apply all_calls_bind.
  - eapply all_calls_impl; [|exact Hfn]. auto.
  - intros []. constructor; [by left|]. constructor.
Qed.

Lemma join_loop1_calls processes : all_calls launch_call (Part1.join_loop processes).
Proof. induction processes; cbn; repeat constructor; done. Qed.

Lemma join_loop2_calls processes : all_calls launch_call (Part2.join_loop processes).
Proof. induction processes; cbn; repeat constructor; done. Qed.

Lemma start_loop1_calls size chunks ranks processes :
  all_calls launch_call (Part1.start_loop size chunks ranks processes).
Proof.
  revert processes. induction ranks as [|r rest IH]; intros processes; cbn.
  - constructor.
  - apply all_calls_bind; [apply all_calls_lift|]. intros c. cbn.
    constructor; [done|]. apply IH.
Qed.

Lemma start_loop2_calls size ranks processes :
  all_calls launch_call (Part2.start_loop size ranks processes).
Proof.
  revert processes. induction ranks as [|r rest IH]; intros processes; cbn.
  - constructor.
  - constructor; [done|]. apply IH.
Qed.

Lemma launch1_calls size : all_calls launch_call (Part1.launch size).
Proof.
  unfold Part1.launch.
  apply all_calls_bind; [apply all_calls_lift|]. intros b.
  apply all_calls_bind; [apply all_calls_lift|]. intros cs.
  apply all_calls_bind; [apply start_loop1_calls|]. intros ps.
  apply join_loop1_calls.
Qed.

Lemma launch2_calls size : all_calls launch_call (Part2.launch size).
Proof.
  unfold Part2.launch.
  apply all_calls_bind; [apply start_loop2_calls|]. intros ps.
  apply join_loop2_calls.
Qed.

(** ** Collectives come last; only rank 0 prints *)

Lemma new_calls_app st st' new :
  trace st' = trace st ++ new -> new_calls st st' = new.
Proof. unfold new_calls. intros ->. by rewrite drop_app_length. Qed.

Lemma exec_new_calls {A} (P : call -> Prop) raises replies (p : proc A) st :
  all_calls P p ->
  Forall P (new_calls st (exec raises replies p st).1).
Proof.
  intros H. destruct (exec_all_calls P raises p H replies st) as (new & Hn & HP).
  by rewrite (new_calls_app _ _ _ Hn).
Qed.

Lemma collective_last_bind {A B} (p : proc A) (f : A -> proc B) :
  all_calls (fun c => ~ is_collective c) p ->
  (forall a, collective_last (f a)) -> collective_last (p ≫= f).
Proof.
  intros Hp Hf.
  induction Hp as [a|e|c k Hc Hk IH|t gl k Hc|t dst k Hc]; cbn.
  - apply Hf.
  - constructor.
  - constructor; [exact Hc|apply IH].
  - destruct Hc. exact I.
  - destruct Hc. exact I.
Qed.

Lemma exec_new_calls_eq {A} raises replies (p : proc A) st :
  trace (exec raises replies p st).1 =
  trace st ++ new_calls st (exec raises replies p st).1.
Proof.
  destruct (exec_all_calls (fun _ => True) raises p) with (replies := replies) (st := st)
    as (new & Hn & _).
  { clear. induction p; constructor; auto. }
  by rewrite (new_calls_app _ _ _ Hn).
Qed.

Lemma new_calls_call {A} raises replies c (k : proc A) st :
  new_calls st (exec raises replies k (apply_call c (log c st))).1 =
  c :: new_calls (apply_call c (log c st))
         (exec raises replies k (apply_call c (log c st))).1.
Proof.
  apply new_calls_app. rewrite exec_new_calls_eq.
  destruct c; cbn; by rewrite <- app_assoc.
Qed.

Lemma exec_collective_last {A} raises (p : proc A) :
  collective_last p ->
  forall replies st,
    let r := exec raises replies p st in
    (forall i c, new_calls st r.1 !! i = Some c -> is_collective c ->
                 S i = length (new_calls st r.1)) /\
    (forall a, r.2 = Finished a ->
               exists c, last (new_calls st r.1) = Some c /\ is_collective c).
Proof.
  induction 1 as [e|c k Hc Hk IH|t gl k Hk|t dst k Hk]; intros replies st; cbn.
  - unfold new_calls. rewrite drop_all. split; [intros i c; by rewrite lookup_nil|done].
  - destruct (raises c) as [e|] eqn:Hr.
    + cbn. rewrite (new_calls_app st _ [c]) by done. split; [|done].
      intros [|i] c' Hi Hcoll; [done|]. by rewrite lookup_cons, lookup_nil in Hi.
    + rewrite new_calls_call. destruct (IH replies (apply_call c (log c st))) as [H1 H2].
      split.
      * intros [|i] c' Hi Hcoll; cbn in Hi.
        -- injection Hi as <-. done.
        -- cbn. f_equal. by eapply H1.
      * intros a Ha. destruct (H2 a Ha) as (c' & Hl & Hcoll).
        exists c'. split; [|done].
        destruct (new_calls _ _); [done|]. exact Hl.
  - destruct (raises (DistGather t gl)) as [e|] eqn:Hr.
    { destruct replies; cbn; rewrite (new_calls_app st _ [DistGather t gl]) by done;
        (split; [|done]); intros [|i] c' Hi Hcoll; try done;
        by rewrite lookup_cons, lookup_nil in Hi. }
    destruct replies as [|r rest]; cbn.
    { rewrite (new_calls_app st _ [DistGather t gl]) by done.
      split; [|done]. intros [|i] c' Hi Hcoll; try done;
        by rewrite lookup_cons, lookup_nil in Hi. }
    destruct (Hk (gathered r)) as [a ->]. cbn.
    rewrite (new_calls_app st _ [DistGather t gl]) by done.
    split.
    + intros [|i] c' Hi Hcoll; try done; by rewrite lookup_cons, lookup_nil in Hi.
    + intros a' _. by exists (DistGather t gl).
  - destruct (raises (DistReduce t dst)) as [e|] eqn:Hr.
    { destruct replies; cbn; rewrite (new_calls_app st _ [DistReduce t dst]) by done;
        (split; [|done]); intros [|i] c' Hi Hcoll; try done;
        by rewrite lookup_cons, lookup_nil in Hi. }
    destruct replies as [|r rest]; cbn.
    { rewrite (new_calls_app st _ [DistReduce t dst]) by done.
      split; [|done]. intros [|i] c' Hi Hcoll; try done;
        by rewrite lookup_cons, lookup_nil in Hi. }
    destruct (Hk (reduced r)) as [a ->]. cbn.
    rewrite (new_calls_app st _ [DistReduce t dst]) by done.
    split.
    + intros [|i] c' Hi Hcoll; try done; by rewrite lookup_cons, lookup_nil in Hi.
    + intros a' _. by exists (DistReduce t dst).
Qed.

Lemma printed_none (rank : nat) (P : call -> Prop) (new : list call) :
  (forall args, ~ P (Print args)) -> Forall P new -> printed new = [].
Proof.
  intros HP. induction 1 as [|c new Hc _ IH]; [done|].
  unfold printed in *. cbn. rewrite IH.
  destruct c; try done. by destruct (HP args).
Qed.

Lemma run1_collective_last ext rank size inp :
  rank <> 0 -> collective_last (Part1.run ext rank size inp).
Proof.
  intros Hr. unfold Part1.run, Part1.USE_CUDA, ig_attribute, call_. cbn.
  do 6 (constructor; [by intros []|]).
  destruct (decide (rank = 0)); [done|].
  constructor. intros r. by exists tt.
Qed.

Lemma attr_loop_no_collective ext net rank dataset loader total :
  all_calls (fun c => ~ is_collective c)
    (Part2.attr_loop ext net rank dataset loader total).
Proof.
  eapply all_calls_impl; [|apply (attr_loop_calls ext net rank)].
  intros []; cbn; tauto.
Qed.

Lemma run2_collective_last ext rank size :
  rank <> 0 -> collective_last (Part2.run ext rank size).
Proof.
  intros Hr. unfold Part2.run, Part2.load_dataset, call_. cbn.
  do 5 (constructor; [by intros []|]).
  apply collective_last_bind; [apply all_calls_lift|]. intros s.
  unfold Part2.USE_CUDA. cbn. do 2 (constructor; [by intros []|]).
  apply collective_last_bind; [apply attr_loop_no_collective|]. intros total.
  apply collective_last_bind.
  { destruct total; cbn; [constructor|]. destruct (decide _); constructor. }
  intros t. cbn. constructor. intros r.
  destruct (decide (rank = 0)); [done|]. by exists tt.
Qed.

(** ** No recovery; environment variables and files *)

Lemma exec_group {A} raises (p : proc A) :
  all_calls (fun c => ~ touches_group c) p ->
  forall replies st, group (exec raises replies p st).1 = group st.
Proof.
  induction 1 as [a|e|c k Hc Hk IH|t gl k Hc Hk IH|t dst k Hc Hk IH];
    intros replies st; cbn; try done.
  - destruct (raises c) as [e|]; [done|].
    rewrite IH. destruct c; cbn in *; by try done.
  - destruct (raises _), replies as [|r rest]; cbn; try done. by rewrite IH.
  - destruct (raises _), replies as [|r rest]; cbn; try done. by rewrite IH.
Qed.

Lemma new_calls_bootstrapped backend rank size st st' :
  trace st' = trace (bootstrapped backend rank size st) ++
              new_calls (bootstrapped backend rank size st) st' ->
  new_calls st st' =
    [SetEnviron "MASTER_ADDR" "127.0.0.1"; SetEnviron "MASTER_PORT" "29500";
     InitProcessGroup backend rank size] ++
    new_calls (bootstrapped backend rank size st) st'.
Proof.
  intros H. apply new_calls_app. rewrite H at 1. cbn. by rewrite <- app_assoc.
Qed.

Lemma exec_failed_state {A} raises replies (p : proc A) st st' e rank size backend :
  all_calls (fun c => ~ touches_group c) p ->
  exec raises replies p (bootstrapped backend rank size st) = (st', Failed e) ->
  (DestroyProcessGroup ∉ new_calls st st') /\ group st' = Some (rank, size).
Proof.
  intros Hp He.
  pose proof (exec_group raises p Hp replies (bootstrapped backend rank size st)) as Hg.
  pose proof (exec_new_calls _ raises replies p (bootstrapped backend rank size st) Hp) as Hn.
  pose proof (exec_new_calls_eq raises replies p (bootstrapped backend rank size st)) as Ht.
  rewrite He in Hg, Hn, Ht. cbn [fst] in *. split; [|exact Hg].
  rewrite (new_calls_bootstrapped _ _ _ _ _ Ht).
  intros Hin. apply elem_of_app in Hin as [Hin|Hin].
  - repeat (apply elem_of_cons in Hin as [Hin|Hin]; [discriminate|]).
    by apply elem_of_nil in Hin.
  - apply (proj1 (Forall_forall _ _) Hn) in Hin. by apply Hin.
Qed.

(** Claim C6. Nothing is caught or retried. When the three bootstrap
    calls of [init_process] have returned and [fn] ends in an exception,
    [init_process] ends in the same exception and in the state in which [fn]
    stopped: no call follows, so [destroy_process_group] is not executed
    (with [fn = run] it is absent from the trace and the process is still
    in its group). In every function of the notebook a call that raises is
    the last call made and its exception is the outcome. *)
Theorem init_process_never_recovers ext raises replies rank size backend st st' e :
  bootstrap_returns raises backend rank size ->
  (forall fn inp_batch,
     exec raises replies (fn rank size inp_batch)
       (bootstrapped backend rank size st) = (st', Failed e) ->
     exec raises replies (Part1.init_process rank size fn inp_batch backend) st
       = (st', Failed e)) /\
  (forall fn,
     exec raises replies (fn rank size)
       (bootstrapped backend rank size st) = (st', Failed e) ->
     exec raises replies (Part2.init_process rank size fn backend) st
       = (st', Failed e)) /\
  (forall inp_batch,
     exec raises replies (Part1.run ext rank size inp_batch)
       (bootstrapped backend rank size st) = (st', Failed e) ->
     (DestroyProcessGroup ∉ new_calls st st') /\ group st' = Some (rank, size)) /\
  (exec raises replies (Part2.run ext rank size)
     (bootstrapped backend rank size st) = (st', Failed e) ->
   (DestroyProcessGroup ∉ new_calls st st') /\ group st' = Some (rank, size)) /\
  (forall inp_batch,
     propagates (Part1.init_process rank size (Part1.run ext) inp_batch backend)) /\
  propagates (Part2.init_process rank size (Part2.run ext) backend) /\
  propagates (Part2.load_dataset ext) /\
  propagates (Part1.launch size) /\
  propagates (Part2.launch size).
Proof.
  intros Hb.
  split; [|split; [|split; [|split; [|split; [|split; [|split; [|split]]]]]]];
    try (intros; apply exec_propagates).
  - intros fn inp H. rewrite init_process1_exec by done.
    by apply exec_bind_failed.
  - intros fn H. rewrite init_process2_exec by done.
    by apply exec_bind_failed.
  - intros inp H. eapply exec_failed_state; [|exact H].
    eapply all_calls_impl; [|apply (run1_calls ext rank size)].
    intros []; cbn; tauto.
  - intros H. eapply exec_failed_state; [|exact H].
    eapply all_calls_impl; [|apply (run2_calls ext rank)].
    intros []; cbn; tauto.
Qed.

Lemma init_process_never_recovers_witness :
  bootstrap_returns attribute_raises "gloo" 0 1 /\
  exists st',
    exec attribute_raises []
      (Part1.init_process 0 1 (Part1.run sample_externals) [[0; 1; 2]]%Q "gloo")
      (init_state ∅) = (st', Failed (RuntimeError "CUDA out of memory")) /\
    DestroyProcessGroup ∉ new_calls (init_state ∅) st'.
Proof.
  assert (Hb : bootstrap_returns attribute_raises "gloo" 0 1)
    by (repeat split; reflexivity).
  split; [exact Hb|].
  set (r := exec attribute_raises [] (Part1.run sample_externals 0 1 [[0; 1; 2]]%Q)
              (bootstrapped "gloo" 0 1 (init_state ∅))).
  destruct (init_process_never_recovers sample_externals attribute_raises [] 0 1
              "gloo" (init_state ∅) r.1 (RuntimeError "CUDA out of memory") Hb)
    as (H1 & _ & H3 & _).
  exists r.1. split.
  - apply H1. reflexivity.
  - apply (H3 [[0; 1; 2]]%Q). reflexivity.
Defined.

Lemma single_process_calls ext :
  all_calls (fun c => ~ is_setenv c /\ ~ reads_file c) (Part1.single_process ext).
Proof.
  unfold Part1.single_process, ig_attribute, call_. cbn.
  repeat (constructor; [cbn; tauto|]). constructor.
Qed.

Lemma data_parallel_calls ext :
  all_calls (fun c => ~ is_setenv c /\ ~ reads_file c) (Part1.data_parallel ext).
Proof.
  unfold Part1.data_parallel, ig_attribute, call_. cbn.
  repeat (constructor; [cbn; tauto|]). constructor.
Qed.

Lemma body1_calls ext rank size inp :
  all_calls (fun c => bootstrap_call rank size "gloo" c \/ run1_call ext rank inp c)
    (Part1.body ext (MkProcess rank size (Some inp))).
Proof. apply init_process1_calls, run1_calls. Qed.

Lemma body2_calls ext rank size :
  all_calls (fun c => bootstrap_call rank size "gloo" c \/ run2_call rank c)
    (Part2.body ext (MkProcess rank size None)).
Proof. apply init_process2_calls, run2_calls. Qed.

Lemma trace_init env st' : trace st' = new_calls (init_state env) st'.
Proof. unfold new_calls. cbn. by rewrite drop_0. Qed.

Lemma bootstrapped_run {A} (P : call -> Prop) replies (p : proc A) backend rank size env :
  all_calls P p -> (forall c, P c -> ~ is_setenv c) ->
  let st' := (exec no_faults replies p (bootstrapped backend rank size (init_state env))).1 in
  (exists rest,
     trace st' = [SetEnviron "MASTER_ADDR" "127.0.0.1";
                  SetEnviron "MASTER_PORT" "29500";
                  InitProcessGroup backend rank size] ++ rest /\
     Forall (fun c => ~ is_setenv c) rest) /\
  environ st' = <["MASTER_PORT" := "29500"]> (<["MASTER_ADDR" := "127.0.0.1"]> env).
Proof.
  intros Hp HP st'. split.
  - exists (new_calls (bootstrapped backend rank size (init_state env)) st').
    split; [apply exec_new_calls_eq|].
    eapply Forall_impl; [apply (exec_new_calls P), Hp|]. exact HP.
  - unfold st'. rewrite exec_environ; [done|].
    eapply all_calls_impl; [|exact Hp]. exact HP.
Qed.

(** Claim C4. In every run of a process of either flow, of the launchers
    and of the two single-process cells, the only environment variables set
    are MASTER_ADDR = '127.0.0.1' and MASTER_PORT = '29500', and the only
    files read are 'titanic3.csv' and 'models/titanic_model.pt' (Part 1
    reads none; the launchers and the single-process cells set and read
    nothing). When no call raises, every rank starts with exactly these two
    assignments followed by [init_process_group], sets nothing afterwards,
    and ends with the launcher's environment plus these two variables. *)
Theorem environment_and_files ext raises replies env rank size inp_batch :
  let p1 := Part1.body ext (MkProcess rank size (Some inp_batch)) in
  let p2 := Part2.body ext (MkProcess rank size None) in
  let st0 := init_state env in
  (Forall surface_call (trace (exec raises replies p1 st0).1) /\
   Forall (fun c => ~ reads_file c) (trace (exec raises replies p1 st0).1) /\
   Forall surface_call (trace (exec raises replies p2 st0).1) /\
   Forall (fun c => ~ is_setenv c /\ ~ reads_file c)
     (trace (exec raises replies (Part1.launch size) st0).1) /\
   Forall (fun c => ~ is_setenv c /\ ~ reads_file c)
     (trace (exec raises replies (Part2.launch size) st0).1) /\
   Forall (fun c => ~ is_setenv c /\ ~ reads_file c)
     (trace (exec raises replies (Part1.single_process ext) st0).1) /\
   Forall (fun c => ~ is_setenv c /\ ~ reads_file c)
     (trace (exec raises replies (Part1.data_parallel ext) st0).1)) /\
  ((exists rest,
      trace (exec no_faults replies p1 st0).1 =
        [SetEnviron "MASTER_ADDR" "127.0.0.1"; SetEnviron "MASTER_PORT" "29500";
         InitProcessGroup "gloo" rank size] ++ rest /\
      Forall (fun c => ~ is_setenv c) rest) /\
   environ (exec no_faults replies p1 st0).1 =
     <["MASTER_PORT" := "29500"]> (<["MASTER_ADDR" := "127.0.0.1"]> env)) /\
  ((exists rest,
      trace (exec no_faults replies p2 st0).1 =
        [SetEnviron "MASTER_ADDR" "127.0.0.1"; SetEnviron "MASTER_PORT" "29500";
         InitProcessGroup "gloo" rank size] ++ rest /\
      Forall (fun c => ~ is_setenv c) rest) /\
   environ (exec no_faults replies p2 st0).1 =
     <["MASTER_PORT" := "29500"]> (<["MASTER_ADDR" := "127.0.0.1"]> env)).
Proof.
  intros p1 p2 st0. split; [|split].
  - repeat split; rewrite (trace_init env).
    + eapply Forall_impl; [apply (exec_new_calls _ _ _ _ _ (body1_calls ext rank size inp_batch))|].
      intros [] [H|H]; cbn in *; tauto.
    + eapply Forall_impl; [apply (exec_new_calls _ _ _ _ _ (body1_calls ext rank size inp_batch))|].
      intros [] [H|H]; cbn in *; tauto.
    + eapply Forall_impl; [apply (exec_new_calls _ _ _ _ _ (body2_calls ext rank size))|].
      intros [] [H|H]; cbn in *; tauto.
    + eapply Forall_impl; [apply (exec_new_calls _ _ _ _ _ (launch1_calls size))|].
      intros []; cbn; tauto.
    + eapply Forall_impl; [apply (exec_new_calls _ _ _ _ _ (launch2_calls size))|].
      intros []; cbn; tauto.
    + apply exec_new_calls, single_process_calls.
    + apply exec_new_calls, data_parallel_calls.
  - unfold p1, Part1.body. rewrite init_process1_exec by done.
    eapply (bootstrapped_run (fun c => run1_call ext rank inp_batch c \/ c = DestroyProcessGroup)).
    + apply all_calls_bind.
      * eapply all_calls_impl; [|apply run1_calls]. auto.
      * intros []. constructor; [by right|constructor].
    + intros [] [H|H]; cbn in *; try tauto; discriminate.
  - unfold p2, Part2.body. rewrite init_process2_exec by done.
    eapply (bootstrapped_run (fun c => run2_call rank c \/ c = DestroyProcessGroup)).
    + apply all_calls_bind.
      * eapply all_calls_impl; [|apply run2_calls]. auto.
      * intros []. constructor; [by right|constructor].
    + intros [] [H|H]; cbn in *; try tauto; discriminate.
Qed.

(** ** Where the model comes from *)

(** Claim C8 as stated fails in Part 1: rank 0's [run] on the row (0, 1, 2)
    calls [ig.attribute] as its sixth call and has loaded nothing before. *)
Lemma run1_loads_nothing :
  let tr := trace (exec no_faults [] (Part1.run sample_externals 0 4 [[0; 1; 2]]%Q)
                     (init_state ∅)).1 in
  tr !! 5 = Some (Attribute [[0; 1; 2]]%Q 0) /\
  ~ loads_before_attributing tr.
Proof.
  split; [reflexivity|].
  intros H. destruct (H 5 [[0; 1; 2]]%Q 0 eq_refl) as (i & path & Hi & Hl).
  do 5 (destruct i as [|i]; [discriminate|]). lia.
Qed.

Lemma attribute_after_call {A} raises replies c (k : proc A) st j inp t :
  (forall inp t, c <> Attribute inp t) ->
  new_calls st (exec raises replies (Call c k) st).1 !! j
    = Some (Attribute inp t) ->
  exists j', j = S j' /\
    new_calls (apply_call c (log c st))
      (exec raises replies k (apply_call c (log c st))).1 !! j'
      = Some (Attribute inp t).
Proof.
  intros Hc. cbn. destruct (raises c).
  - cbn. rewrite (new_calls_app st _ [c]) by done.
    destruct j as [|j]; cbn; [|done]. intros [= ->]. by destruct (Hc inp t).
  - rewrite new_calls_call. destruct j as [|j]; cbn.
    + intros [= ->]. by destruct (Hc inp t).
    + intros H. by exists j.
Qed.

Lemma run2_prefix ext rank size :
  exists rest,
    Part2.run ext rank size =
    Call (ReadCsv "titanic3.csv")
      (Call Preprocess
         (Call (Construct "TitanicSimpleNNModel")
            (Call (TorchLoad "models/titanic_model.pt") rest))).
Proof. eexists. unfold Part2.run, Part2.load_dataset, call_. cbn. reflexivity. Qed.

Lemma run2_loads_first ext raises replies rank size st :
  let new := new_calls st (exec raises replies (Part2.run ext rank size) st).1 in
  forall j inp t, new !! j = Some (Attribute inp t) ->
    exists i, i < j /\ new !! i = Some (TorchLoad "models/titanic_model.pt").
Proof.
  intros new j inp t Hj. pose proof Hj as H. unfold new in H.
  destruct (run2_prefix ext rank size) as [rest E]. rewrite E in H.
  apply attribute_after_call in H as (j1 & -> & H); [|done].
  apply attribute_after_call in H as (j2 & -> & H); [|done].
  apply attribute_after_call in H as (j3 & -> & H); [|done].
  apply attribute_after_call in H as (j4 & -> & H); [|done].
  exists 3. split; [lia|].
  revert Hj. unfold new. rewrite E. cbn.
  destruct (raises (ReadCsv "titanic3.csv")).
  { cbn. rewrite (new_calls_app st _ [ReadCsv "titanic3.csv"]) by done. done. }
  destruct (raises Preprocess).
  { cbn. rewrite (new_calls_app st _ [ReadCsv "titanic3.csv"; Preprocess]).
    - done.
    - cbn. by rewrite <- app_assoc. }
  destruct (raises (Construct "TitanicSimpleNNModel")).
  { cbn. rewrite (new_calls_app st _
      [ReadCsv "titanic3.csv"; Preprocess; Construct "TitanicSimpleNNModel"]).
    - done.
    - cbn. by rewrite <- !app_assoc. }
  destruct (raises (TorchLoad "models/titanic_model.pt")).
  { cbn. rewrite (new_calls_app st _
      [ReadCsv "titanic3.csv"; Preprocess; Construct "TitanicSimpleNNModel";
       TorchLoad "models/titanic_model.pt"]).
    - done.
    - cbn. by rewrite <- !app_assoc. }
  intros _.
  match goal with |- new_calls st (exec ?r ?rp ?k ?s).1 !! 3 = _ =>
    pose proof (exec_new_calls_eq r rp k s) as Ht end.
  cbn in Ht. rewrite <- !app_assoc in Ht. cbn in Ht.
  erewrite new_calls_app; [|exact Ht]. done.
Qed.

(** ** The launchers *)

Lemma extend_nil st : extend st [] = st.
Proof. destruct st. unfold extend. cbn. by rewrite app_nil_r. Qed.

Lemma extend_extend st a b : extend (extend st a) b = extend st (a ++ b).
Proof. unfold extend. cbn. by rewrite app_assoc. Qed.

Lemma join_loop2_exec processes st :
  exec no_faults [] (Part2.join_loop processes) st =
  (extend st (map Join processes), Finished tt).
Proof.
  revert st. induction processes as [|p rest IH]; intros st; cbn.
  - by rewrite extend_nil.
  - rewrite IH. f_equal. unfold extend, log. cbn. by rewrite <- app_assoc.
Qed.

Lemma start_loop2_exec {B} size ranks processes (f : list Process -> proc B) st :
  exec no_faults [] (proc_bind f (Part2.start_loop size ranks processes)) st =
  exec no_faults []
    (f (processes ++ map (fun rank => MkProcess rank size None) ranks))
    (extend st (map (fun rank => Start (MkProcess rank size None)) ranks)).
Proof.
  revert processes st. induction ranks as [|r rest IH]; intros processes st.
  - cbn. by rewrite extend_nil, app_nil_r.
  - cbn. rewrite IH. rewrite <- app_assoc. cbn. f_equal.
    unfold extend, log. cbn. by rewrite <- app_assoc.
Qed.

Lemma launch2_exec env size :
  exec no_faults [] (Part2.launch size) (init_state env) =
  (extend (init_state env)
     (map Start (map (fun rank => MkProcess rank size None) (seq 0 size)) ++
      map Join (map (fun rank => MkProcess rank size None) (seq 0 size))),
   Finished tt).
Proof.
  unfold Part2.launch, mbind, proc_mbind.
  rewrite start_loop2_exec, join_loop2_exec, extend_extend. cbn [app].
  by rewrite !map_map.
Qed.

(** Claim C5 as stated fails for size 3: the batch has two chunks, so the
    launcher of Part 1 starts two processes, raises IndexError at
    [batch_chunks[2]] and joins none. *)
Lemma launch_three_raises :
  let r := exec no_faults [] (Part1.launch 3) (init_state ∅) in
  r.2 = Failed IndexError /\
  length (started (trace r.1)) = 2 /\
  joined (trace r.1) = [] /\
  ~ (exists st, r = (st, Finished tt) /\ length (started (trace st)) = 3).
Proof.
  split; [reflexivity|]. split; [reflexivity|]. split; [reflexivity|].
  intros (st & H & _). cbv in H. discriminate.
Qed.

(** Claim C5, amended. For size in {1, 2, 4}, the values the notebook
    allows, the launcher of Part 1 starts exactly [size] processes, the
    one of rank r on [batch_chunks[r]], and then joins them all in order.
    The launcher of Part 2 does so for every size. *)
Theorem launchers_start_and_join env :
  Forall (fun size =>
    exists chunks st,
      chunk example_batch size = Ok chunks /\ length chunks = size /\
      exec no_faults [] (Part1.launch size) (init_state env) = (st, Finished tt) /\
      let processes := imap (fun rank c => MkProcess rank size (Some c)) chunks in
      trace st = map Start processes ++ map Join processes) [1; 2; 4] /\
  forall size, exists st,
    exec no_faults [] (Part2.launch size) (init_state env) = (st, Finished tt) /\
    let processes := map (fun rank => MkProcess rank size None) (seq 0 size) in
    length processes = size /\
    trace st = map Start processes ++ map Join processes.
Proof.
  split.
  - repeat constructor; do 2 eexists; (split; [reflexivity|]);
      (split; [reflexivity|]); (split; [reflexivity|]); reflexivity.
  - intros size. eexists. split; [apply launch2_exec|].
    split; [by rewrite length_map, length_seq|]. reflexivity.
Qed.

(** ** One round of a collective *)

Lemma map_fmap {A B} (f : A -> B) (l : list A) : map f l = f <$> l.
Proof. reflexivity. Qed.

Lemma all_true_imap {A} (f : nat -> A -> bool) (l : list A) :
  (forall i x, l !! i = Some x -> f i x = true) ->
  bool_decide (Forall (fun p => p = true) (imap f l)) = true.
Proof.
  intros H. apply bool_decide_eq_true. apply Forall_lookup.
  intros i b Hb. apply list_lookup_imap_Some in Hb as (x & Hx & ->). eauto.
Qed.

Lemma gather_round raises (bodies : list (proc unit)) st0 (ts : list tensor) :
  length ts = length bodies ->
  (forall i p, bodies !! i = Some p -> exists st t gl k,
      run_local raises p st0 = (st, AtGather t gl k) /\
      group st = Some (i, length bodies) /\ ts !! i = Some t /\
      match i, gl with
      | 0, Some l => map shape l = map shape ts
      | S _, None => True
      | _, _ => False
      end) ->
  collective_round raises (map (fun p => run_local raises p st0) bodies) =
  Some (imap (fun i p => exec raises [gather_reply ts i] p st0) bodies).
Proof.
  intros Hlen Hb. unfold collective_round.
  set (w := map (fun p => run_local raises p st0) bodies).
  assert (Hw : forall i ps, w !! i = Some ps ->
            exists p, bodies !! i = Some p /\ ps = run_local raises p st0).
  { intros i ps. unfold w. rewrite map_fmap, list_lookup_fmap.
    destruct (bodies !! i) as [p|]; [|done]. intros [= <-]. by exists p. }
  assert (Hwl : length w = length bodies) by (unfold w; apply length_map).
  assert (Hg : group_ok w = true).
  { unfold group_ok. apply all_true_imap. intros i ps Hps.
    destruct (Hw i ps Hps) as (p & Hp & ->).
    destruct (Hb i p Hp) as (st & t & gl & k & -> & Hgr & _).
    apply bool_decide_eq_true. cbn. by rewrite Hwl. }
  rewrite Hg. cbn [negb].
  destruct (gather_args w) as [args|] eqn:Hargs; cycle 1.
  { exfalso. assert (Hs : is_Some (gather_args w)); [|rewrite Hargs in Hs; by destruct Hs].
    apply mapM_is_Some_2. apply Forall_lookup. intros i ps Hps.
    destruct (Hw i ps Hps) as (p & Hp & ->).
    destruct (Hb i p Hp) as (st & t & gl & k & -> & _). by eexists. }
  apply mapM_Some_1 in Hargs.
  assert (Ha : forall i a, args !! i = Some a ->
            exists p st, bodies !! i = Some p /\
              run_local raises p st0 = (st, AtGather a.1.1 a.1.2 a.2)).
  { intros i a Hia.
    destruct (Forall2_lookup_r _ _ _ _ _ Hargs Hia) as (ps & Hps & Hf).
    destruct (Hw i ps Hps) as (p & Hp & ->).
    destruct (Hb i p Hp) as (st & t & gl & k & E & _).
    exists p, st. split; [done|]. rewrite E in Hf |- *. cbn in Hf.
    injection Hf as <-. done. }
  assert (Hal : length args = length bodies).
  { rewrite <- (Forall2_length _ _ _ Hargs). done. }
  assert (Hts : map (fun a => a.1.1) args = ts).
  { apply list_eq. intros i. rewrite map_fmap, list_lookup_fmap.
    destruct (args !! i) as [a|] eqn:Hia; cbn.
    - destruct (Ha i a Hia) as (p & st & Hp & E).
      destruct (Hb i p Hp) as (st' & t & gl & k & E' & _ & Ht & _).
      rewrite E in E'. injection E' as _ -> _ _. done.
    - symmetry. apply lookup_ge_None. apply lookup_ge_None in Hia. lia. }
  assert (Hok : gather_ok args = true).
  { unfold gather_ok. apply all_true_imap. intros i a Hia.
    destruct (Ha i a Hia) as (p & st & Hp & E).
    destruct (Hb i p Hp) as (st' & t & gl & k & E' & _ & _ & Hm).
    rewrite E in E'. injection E' as _ _ -> _.
    change (map (fun b : tensor * option (list tensor) * (list tensor -> proc unit) => shape b.1.1) args)
      with (map (fun b : tensor * option (list tensor) * (list tensor -> proc unit) => shape ((fun a => a.1.1) b)) args).
    rewrite <- (map_map (fun a : tensor * option (list tensor) * (list tensor -> proc unit) => a.1.1) shape), Hts.
    destruct i, gl; try done. by apply bool_decide_eq_true. }
  rewrite Hok, Hts. f_equal.
  apply list_eq. intros i. rewrite !list_lookup_imap.
  rewrite list.lookup_zip_with.
  destruct (bodies !! i) as [p|] eqn:Hp; cbn.
  - destruct (Hb i p Hp) as (st & t & gl & k & E & _).
    assert (Hps : w !! i = Some (st, AtGather t gl k)).
    { unfold w. rewrite map_fmap, list_lookup_fmap, Hp. cbn. by rewrite E. }
    rewrite Hps. cbn.
    destruct (Forall2_lookup_l _ _ _ _ _ Hargs Hps) as (a & Hia & Hf).
    rewrite Hia. cbn. cbn in Hf. injection Hf as <-. cbn. f_equal.
    unfold run_local in E. rewrite (exec_resume_gather _ _ _ _ _ _ _ _ _ E).
    unfold run_local. by destruct i.
  - assert (Hn : w !! i = None).
    { unfold w. by rewrite map_fmap, list_lookup_fmap, Hp. }
    by rewrite Hn.
Qed.


Lemma world_run_finished raises rounds (w : world) :
  Forall (fun ps => ps.2 = Finished tt) w -> world_run raises rounds w = w.
Proof.
  intros Hw. induction rounds as [|n IH]; [done|]. cbn.
  destruct w as [|[st s] w']; [cbn; exact IH|].
  apply Forall_cons in Hw as [Hs _]. cbn in Hs. subst s.
  unfold collective_round. destruct (negb _); [done|]. done.
Qed.

(** ** Pieces, chunks and concatenation *)

Lemma concat_pieces {A} (l : list A) n count :
  concat (pieces l n count) = take (count * n) l.
Proof.
  unfold pieces. induction count as [|k IH]; [by rewrite take_0|].
  rewrite seq_S, map_app, concat_app, IH. cbn [map concat].
  rewrite app_nil_r, take_take_drop. f_equal. lia.
Qed.

Lemma ceil_div_covers a b : b <> 0 -> a <= ceil_div a b * b.
Proof.
  intros Hb. unfold ceil_div.
  pose proof (Nat.div_mod (a + b - 1) b Hb) as H.
  pose proof (Nat.mod_upper_bound (a + b - 1) b Hb) as H'. nia.
Qed.

Lemma ceil_div_0 a b : ceil_div a b = 0 -> b <> 0 -> a = 0.
Proof. intros H Hb. pose proof (ceil_div_covers a b Hb). lia. Qed.

Lemma cat_split (t : tensor) s : s <> 0 -> cat (split t s) = t.
Proof.
  intros Hs. unfold cat, split. rewrite concat_pieces. apply take_ge.
  pose proof (ceil_div_covers (length t) s Hs). nia.
Qed.

Lemma cat_chunk (t : tensor) chunks cs : chunk t chunks = Ok cs -> cat cs = t.
Proof.
  unfold chunk. destruct (decide (chunks = 0)); [done|].
  destruct (decide (ceil_div (length t) chunks = 0)) as [H0|H0]; intros [= <-].
  - apply ceil_div_0 in H0; [|done]. destruct t; [|done].
    clear. unfold cat. induction chunks; [done|]. cbn. done.
  - by apply cat_split.
Qed.

(** ** Part 1: the world after the gather *)

Lemma part1_exec ext env size rank inp attrs :
  exec no_faults [gather_reply attrs rank]
    (Part1.body ext (MkProcess rank size (Some inp))) (init_state env) =
  (part1_final ext env size rank inp attrs, Finished tt).
Proof. destruct rank; reflexivity. Qed.

Lemma part1_local ext env size rank inp :
  exists st k,
    run_local no_faults (Part1.body ext (MkProcess rank size (Some inp)))
      (init_state env) =
    (st, AtGather (attr_of ext inp)
           (match rank with
            | 0 => Some (replicate size (zeros_like (attr_of ext inp)))
            | S _ => None
            end) k) /\
    group st = Some (rank, size).
Proof. destruct rank; do 2 eexists; split; reflexivity. Qed.

Lemma shape_attr ext inp : shape (attr_of ext inp) = shape inp.
Proof.
  unfold shape, attr_of. rewrite map_map. apply map_ext. intros x. apply ig_shape.
Qed.

Lemma shape_zeros_like t : shape (zeros_like t) = shape t.
Proof.
  unfold shape, zeros_like. rewrite map_map. apply map_ext. intros x.
  apply length_map.
Qed.

Lemma part1_world ext env rounds (inps : list tensor) shape0 :
  Forall (fun inp => shape inp = shape0) inps ->
  let size := length inps in
  let attrs := map (attr_of ext) inps in
  world_run no_faults (S rounds)
    (map (fun p => run_local no_faults (Part1.body ext p) (init_state env))
       (imap (fun rank inp => MkProcess rank size (Some inp)) inps)) =
  imap (fun rank inp => (part1_final ext env size rank inp attrs, Finished tt))
    inps.
Proof.
  intros Hshape size attrs. cbn [world_run].
  rewrite <- (map_map (Part1.body ext) (fun p => run_local no_faults p (init_state env))).
  set (bodies := map (Part1.body ext) _).
  assert (Hbl : length bodies = size).
  { unfold bodies. by rewrite length_map, length_imap. }
  assert (Hbi : forall i p, bodies !! i = Some p ->
            exists inp, inps !! i = Some inp /\
              p = Part1.body ext (MkProcess i size (Some inp))).
  { intros i p. unfold bodies. rewrite map_fmap, list_lookup_fmap, list_lookup_imap.
    destruct (inps !! i) as [inp|]; [|done]. cbn. intros [= <-]. by exists inp. }
  rewrite (gather_round no_faults bodies (init_state env) attrs).
  - rewrite world_run_finished.
    + apply list_eq. intros i. unfold bodies.
      rewrite !list_lookup_imap, map_fmap, list_lookup_fmap, list_lookup_imap.
      destruct (inps !! i) as [inp|]; [|done].
      cbn [fmap option_fmap option_map]. by rewrite part1_exec.
    + apply Forall_lookup. intros i ps. rewrite list_lookup_imap.
      destruct (bodies !! i) as [p|] eqn:Hp; [|done].
      cbn [fmap option_fmap option_map]. intros [= <-].
      destruct (Hbi i p Hp) as (inp & _ & ->). by rewrite part1_exec.
  - unfold attrs. by rewrite length_map.
  - intros i p Hp. destruct (Hbi i p Hp) as (inp & Hinp & ->).
    destruct (part1_local ext env size i inp) as (st & k & E & Hg).
    eexists st, (attr_of ext inp), _, k. split; [exact E|]. rewrite Hbl.
    split; [exact Hg|]. split.
    { unfold attrs. by rewrite map_fmap, list_lookup_fmap, Hinp. }
    destruct i; [|done].
    rewrite map_fmap, fmap_replicate, shape_zeros_like, shape_attr.
    rewrite (proj1 (Forall_lookup _ _) Hshape 0 inp Hinp).
    apply list_eq. intros j. unfold attrs. rewrite !map_fmap, !list_lookup_fmap.
    destruct (inps !! j) as [inpj|] eqn:Hj; cbn.
    + rewrite shape_attr, (proj1 (Forall_lookup _ _) Hshape j inpj Hj).
      apply lookup_replicate_2. apply lookup_lt_Some in Hj. done.
    + apply lookup_replicate_None. apply lookup_ge_None in Hj. done.
Qed.

(** ** Part 1: gather and concatenate *)

Lemma cat_attrs ext (inps : list tensor) :
  cat (map (attr_of ext) inps) = attr_of ext (cat inps).
Proof. unfold cat, attr_of. symmetry. apply concat_map. Qed.

(** Claim C2. Let rank r of Part 1 run on [inps[r]], all of one shape,
    with size = len(inps). After the gather, rank 0 has called [gather]
    with a list of exactly [size] tensors [zeros_like(attr)] and printed
    the concatenation of the ranks' attributions in rank order; every other
    rank has called [gather] without a list and printed nothing; all ranks
    have returned. There is one attribution per rank, and the printed
    tensor has as many rows as the inputs together: as the batch, when the
    inputs are its chunks. *)
Theorem rank0_gathers_and_concatenates ext env rounds (inps : list tensor) shape0 :
  Forall (fun inp => shape inp = shape0) inps ->
  let size := length inps in
  let attrs := map (attr_of ext) inps in
  world_run no_faults (S rounds)
    (map (fun p => run_local no_faults (Part1.body ext p) (init_state env))
       (imap (fun rank inp => MkProcess rank size (Some inp)) inps)) =
  imap (fun rank inp => (part1_final ext env size rank inp attrs, Finished tt))
    inps /\
  length attrs = size /\
  (forall rank inp, inps !! rank = Some inp ->
     attrs !! rank = Some (attr_of ext inp)) /\
  length (cat attrs) = length (cat inps) /\
  (forall batch, chunk batch size = Ok inps ->
     length (cat attrs) = length batch).
Proof.
  intros Hshape size attrs. split; [by eapply part1_world|].
  split; [unfold attrs; by rewrite length_map|]. split.
  { intros rank inp H. unfold attrs. by rewrite map_fmap, list_lookup_fmap, H. }
  assert (Hl : length (cat attrs) = length (cat inps)).
  { unfold attrs. rewrite cat_attrs. unfold attr_of. by rewrite length_map. }
  split; [exact Hl|]. intros batch Hc. rewrite Hl. by rewrite (cat_chunk _ _ _ Hc).
Qed.

Lemma rank0_gathers_and_concatenates_witness :
  let inps := [[[0; 1; 2]]; [[3; 4; 5]]; [[6; 7; 8]]; [[9; 10; 11]]]%Q in
  chunk example_batch 4 = Ok inps /\
  length (cat (map (attr_of sample_externals) inps)) = length example_batch.
Proof.
  split; [reflexivity|].
  apply (rank0_gathers_and_concatenates sample_externals ∅ 0
           [[[0; 1; 2]]; [[3; 4; 5]]; [[6; 7; 8]]; [[9; 10; 11]]]%Q [3]).
  - repeat constructor.
  - reflexivity.
Defined.

(** ** Part 2: one rank up to the reduce *)

Lemma exec_bind2_pure {A B C} raises replies (p : proc A) (f : A -> proc B)
    (g : B -> proc C) :
  all_calls (fun c => ~ is_collective c) p ->
  forall st st' a,
    exec raises [] p st = (st', Finished a) ->
    exec raises replies (proc_bind g (proc_bind f p)) st =
    exec raises replies (proc_bind g (f a)) st'.
Proof.
  induction 1 as [a0|e|c k Hc Hk IH|t gl k Hc|t dst k Hc]; intros st st' a; cbn.
  - by intros [= <- <-].
  - discriminate.
  - destruct (raises c); [discriminate|]. apply IH.
  - destruct Hc. exact I.
  - destruct Hc. exact I.
Qed.

Lemma mapM_omap {A B} (f : A -> option B) (l : list A) :
  Forall (fun x => is_Some (f x)) l -> mapM f l = Some (omap f l).
Proof.
  induction 1 as [|x l [y Hy] _ IH]; [done|].
  cbn. rewrite Hy. cbn. by rewrite IH.
Qed.


Lemma fetch_rows_at ext idxs :
  in_range ext idxs -> fetch (dataset ext) idxs = Ok (rows_at ext idxs).
Proof.
  intros H. unfold fetch, rows_at. rewrite mapM_omap; [done|].
  eapply Forall_impl; [exact H|]. intros i Hi. by apply lookup_lt_is_Some_2.
Qed.

Lemma attr_loop_exec ext rank loader total st :
  Forall (in_range ext) loader ->
  exec no_faults []
    (Part2.attr_loop ext (net ext) rank (dataset ext) loader total) st =
  (extend st (loop_calls ext rank loader),
   Finished (loop_total ext loader total)).
Proof.
  intros H. revert total st.
  induction H as [|idxs rest Hi _ IH]; intros total st.
  - cbn. by rewrite extend_nil.
  - cbn. rewrite (fetch_rows_at ext idxs Hi). cbn. rewrite IH. f_equal.
    unfold extend, log. cbn. f_equal. by rewrite <- !app_assoc.
Qed.

Lemma body2_exec ext env replies rank size s total :
  DistributedSampler (length (dataset ext)) size rank = Ok s ->
  Forall (in_range ext) (batched (sampler_iter s) 50) ->
  loop_total ext (batched (sampler_iter s) 50) None = Some total ->
  exec no_faults replies (Part2.body ext (MkProcess rank size None))
    (init_state env) =
  exec no_faults replies (after_loop rank size total (sampler_len s))
    (extend (before_loop env rank size)
       (loop_calls ext rank (batched (sampler_iter s) 50))).
Proof.
  intros Hs Hr Ht.
  unfold Part2.body, Part2.init_process, Part2.run, Part2.load_dataset,
    Part2.USE_CUDA, call_.
  cbn. fold (dataset ext). rewrite Hs. cbn. fold (net ext).
  rewrite (exec_bind2_pure no_faults replies _ _ _
             (attr_loop_no_collective ext (net ext) rank (dataset ext) _ None)
             _ _ _ (attr_loop_exec ext rank _ None _ Hr)).
  rewrite Ht. cbn. reflexivity.
Qed.

(** ** The sampler and the loader *)

Lemma length_omap_total {A B} (f : A -> option B) (l : list A) :
  Forall (fun x => is_Some (f x)) l -> length (omap f l) = length l.
Proof.
  induction 1 as [|x l [y Hy] _ IH]; [done|]. cbn. rewrite Hy. cbn. by rewrite IH.
Qed.

Lemma Forall_omap_lookup {A} (P : A -> Prop) (l : list A) (js : list nat)
    (g : nat -> nat) :
  Forall P l -> Forall P (omap (fun j => l !! g j) js).
Proof.
  intros Hl. apply Forall_forall. intros x Hx.
  apply list_elem_of_omap in Hx as (j & _ & Hj).
  apply (proj1 (Forall_forall _ _) Hl). by eapply list_elem_of_lookup_2.
Qed.

Lemma length_concat_replicate {A} (l : list A) k :
  length (concat (replicate k l)) = k * length l.
Proof. induction k as [|k IH]; [done|]. cbn. rewrite length_app, IH. lia. Qed.

Lemma Forall_concat_replicate {A} (P : A -> Prop) (l : list A) k :
  Forall P l -> Forall P (concat (replicate k l)).
Proof. intros H. induction k; cbn; [done|]. by apply Forall_app. Qed.

Lemma ceil_div_stride L size rank :
  rank < size -> ceil_div (L * size - rank) size = L.
Proof.
  intros Hr. unfold ceil_div. destruct L as [|L].
  - cbn. apply Nat.div_small. lia.
  - symmetry. apply (Nat.div_unique _ _ _ (size - 1 - rank)); lia.
Qed.

Lemma ceil_div_pos a b : 0 < a -> b <> 0 -> 0 < ceil_div a b.
Proof.
  intros Ha Hb. destruct (ceil_div a b) eqn:E; [|lia].
  apply ceil_div_0 in E; [lia|done].
Qed.

Section Sampler.
Context (N size rank : nat) (Hsize : size <> 0) (Hrank : rank < size).

Lemma sampler_ok : DistributedSampler N size rank = Ok (the_sampler N size rank).
Proof.
  unfold DistributedSampler. destruct (decide (size = 0)); [done|].
  destruct (decide (size <= rank)); [lia|done].
Qed.

Lemma sampler_iter_spec :
  length (sampler_iter (the_sampler N size rank)) = ceil_div N size /\
  Forall (fun i => i < N) (sampler_iter (the_sampler N size rank)).
Proof.
  unfold sampler_iter. cbn [dataset_len total_size sampler_rank num_replicas the_sampler].
  set (L := ceil_div N size). rewrite length_seq.
  set (padded := if decide (L * size - N <= N) then _ else _).
  pose proof (ceil_div_covers N size Hsize) as Hcov. fold L in Hcov.
  assert (Hseq : Forall (fun i => i < N) (seq 0 N)).
  { apply Forall_forall. intros i Hi. apply elem_of_seq in Hi. lia. }
  assert (Hlen : length padded = L * size).
  { unfold padded. destruct (decide _) as [Hp|Hp].
    - rewrite length_app, length_take, !length_seq. lia.
    - rewrite length_app, length_take, length_concat_replicate, !length_seq.
      assert (N <> 0).
      { intros ->. apply Hp. unfold L, ceil_div. rewrite Nat.div_small; lia. }
      pose proof (ceil_div_covers (L * size - N) N ltac:(done)). lia. }
  assert (Hel : Forall (fun i => i < N) padded).
  { unfold padded. destruct (decide _); apply Forall_app; split; try done.
    - by apply Forall_take.
    - by apply Forall_take, Forall_concat_replicate. }
  split.
  - unfold slice. rewrite length_omap_total.
    + rewrite length_seq, Hlen, Nat.min_id. by apply ceil_div_stride.
    + apply Forall_forall. intros j Hj. apply elem_of_seq in Hj.
      rewrite Hlen, Nat.min_id, ceil_div_stride in Hj by done.
      apply lookup_lt_is_Some_2. rewrite Hlen. nia.
  - unfold slice. by apply Forall_omap_lookup.
Qed.

End Sampler.

Lemma batched_concat (idxs : list nat) n :
  n <> 0 -> concat (batched idxs n) = idxs.
Proof.
  intros Hn. unfold batched. rewrite concat_pieces. apply take_ge.
  by apply ceil_div_covers.
Qed.

Lemma ceil_div_last a b i : b <> 0 -> i < ceil_div a b -> i * b < a.
Proof.
  intros Hb Hi. unfold ceil_div in Hi.
  pose proof (Nat.div_mod (a + b - 1) b Hb) as H.
  pose proof (Nat.mod_upper_bound (a + b - 1) b Hb) as H'. nia.
Qed.

Lemma batched_pieces (P : nat -> Prop) (idxs : list nat) n :
  n <> 0 -> Forall P idxs ->
  Forall (fun b => b <> [] /\ Forall P b) (batched idxs n).
Proof.
  intros Hn HP. unfold batched, pieces. apply Forall_forall. intros b Hb.
  rewrite map_fmap in Hb. apply list_elem_of_fmap in Hb as (i & -> & Hi).
  apply elem_of_seq in Hi. split.
  - intros E. apply (f_equal length) in E. rewrite length_take, length_drop in E.
    cbn in E. pose proof (ceil_div_last (length idxs) n i Hn). lia.
  - by apply Forall_take, Forall_drop.
Qed.

(** ** Vectors up to equality of rationals *)

Lemma veq_refl u : veq u u.
Proof. induction u; constructor; [reflexivity|done]. Qed.

Lemma veq_sym u v : veq u v -> veq v u.
Proof. induction 1; constructor; [by symmetry|done]. Qed.

Lemma veq_trans u v w : veq u v -> veq v w -> veq u w.
Proof.
  intros H. revert w. induction H as [|x y u v Hxy _ IH]; intros w Hw;
    inversion Hw; subst; constructor; [by etransitivity|by apply IH].
Qed.

Lemma vadd_veq u u' v v' : veq u u' -> veq v v' -> veq (vadd u v) (vadd u' v').
Proof.
  intros Hu. revert v v'. induction Hu as [|x x' u u' Hx _ IH]; intros v v' Hv;
    [constructor|].
  destruct Hv as [|y y' v v' Hy Hv]; cbn; constructor; [by rewrite Hx, Hy|by apply IH].
Qed.

Lemma vadd_assoc u v w : veq (vadd (vadd u v) w) (vadd u (vadd v w)).
Proof.
  revert v w. induction u as [|x u IH]; intros [|y v] [|z w]; cbn; try constructor.
  - symmetry. apply Qplus_assoc.
  - apply IH.
Qed.

Lemma foldl_vadd_veq u u' l l' :
  veq u u' -> Forall2 veq l l' -> veq (foldl vadd u l) (foldl vadd u' l').
Proof.
  intros Hu Hl. revert u u' Hu. induction Hl as [|x x' l l' Hx _ IH]; intros u u' Hu;
    cbn; [done|]. apply IH. by apply vadd_veq.
Qed.

Lemma foldl_vadd_shift u v l :
  veq (foldl vadd (vadd u v) l) (vadd u (foldl vadd v l)).
Proof.
  revert v. induction l as [|x l IH]; intros v; cbn; [apply veq_refl|].
  eapply veq_trans; [|apply IH].
  apply foldl_vadd_veq; [apply vadd_assoc|].
  clear. induction l; constructor; [apply veq_refl|done].
Qed.

Lemma Forall2_veq_refl (l : list row) : Forall2 veq l l.
Proof. induction l; constructor; [apply veq_refl|done]. Qed.


Lemma vsum_app xs ys :
  xs <> [] -> ys <> [] -> veq (vsum (xs ++ ys)) (vadd (vsum xs) (vsum ys)).
Proof.
  destruct xs as [|x xs]; [done|]. destruct ys as [|y ys]; [done|]. intros _ _.
  cbn. rewrite foldl_app. cbn. apply foldl_vadd_shift.
Qed.

Lemma vsum_concat (yss : list (list row)) :
  Forall (fun ys => ys <> []) yss ->
  veq (vsum (concat yss)) (vsum (map vsum yss)).
Proof.
  induction 1 as [|ys yss Hys Hyss IH]; [constructor|].
  destruct yss as [|zs yss'].
  - cbn. rewrite app_nil_r. apply veq_refl.
  - assert (Hne : concat (zs :: yss') <> []).
    { apply Forall_cons in Hyss as [Hz _]. cbn. destruct zs; [done|]. done. }
    change (concat (ys :: zs :: yss')) with (ys ++ concat (zs :: yss')).
    eapply veq_trans; [by apply vsum_app|].
    eapply veq_trans; [apply vadd_veq; [apply veq_refl|exact IH]|].
    cbn. apply veq_sym, foldl_vadd_shift.
Qed.

Lemma vscale_veq c c' u u' : (c == c')%Q -> veq u u' -> veq (vscale c u) (vscale c' u').
Proof.
  intros Hc. induction 1 as [|x x' u u' Hx _ IH]; cbn; constructor; [|done].
  by rewrite Hc, Hx.
Qed.





Lemma vdiv_vscale u n : veq (vdiv u n) (vscale (1 / Q_of_nat n) u).
Proof.
  induction u as [|x u IH]; cbn; constructor; [|done].
  unfold Qdiv. rewrite Qmult_1_l. apply Qmult_comm.
Qed.

Lemma broadcast_zero u : veq (map (Qplus 0) u) u.
Proof. induction u; cbn; constructor; [apply Qplus_0_l|done]. Qed.

(** ** Part 2: the loop total of a rank *)

Lemma printed_app a b : printed (a ++ b) = printed a ++ printed b.
Proof. unfold printed. apply omap_app. Qed.


Lemma length_foldl_vadd d u l :
  length u = d -> Forall (fun v => length v = d) l -> length (foldl vadd u l) = d.
Proof.
  intros Hu Hl. revert u Hu. induction Hl as [|v l Hv _ IH]; intros u Hu; [done|].
  cbn. apply IH. unfold vadd. rewrite length_zip_with. lia.
Qed.

Lemma length_vdiv u n : length (vdiv u n) = length u.
Proof. apply length_map. Qed.

Section Part2World.
Context (ext : externals) (env : gmap string string) (size d : nat).
Context (Hsize : size <> 0) (Hdata : dataset ext <> []).
Context (Hrect : Forall (fun x => length x = d) (dataset ext)).

Let N := length (dataset ext).
Let L := ceil_div N size.

Lemma N_pos : 0 < N.
Proof. unfold N. destruct (dataset ext); [done|cbn; lia]. Qed.

Lemma L_pos : 0 < L.
Proof. apply ceil_div_pos; [apply N_pos|done]. Qed.

Lemma loop_total_some loader t :
  loop_total ext loader (Some t) = Some (foldl vadd t (map (batch_sum ext) loader)).
Proof. revert t. induction loader as [|b bs IH]; intros t; cbn; [done|apply IH]. Qed.

Lemma rows_at_concat (bs : list (list nat)) :
  rows_at ext (concat bs) = concat (map (rows_at ext) bs).
Proof.
  unfold rows_at. induction bs as [|b bs IH]; [done|].
  cbn. by rewrite omap_app, IH.
Qed.

Lemma rows_at_length idxs : in_range ext idxs -> length (rows_at ext idxs) = length idxs.
Proof.
  intros H. unfold rows_at. apply length_omap_total.
  eapply Forall_impl; [exact H|]. intros i Hi. by apply lookup_lt_is_Some_2.
Qed.

Lemma rows_at_width idxs : Forall (fun x => length x = d) (rows_at ext idxs).
Proof.
  apply Forall_forall. intros x Hx. unfold rows_at in Hx.
  apply list_elem_of_omap in Hx as (i & _ & Hi).
  apply (proj1 (Forall_forall _ _) Hrect). by eapply list_elem_of_lookup_2.
Qed.

Lemma attr_width (xs : tensor) :
  Forall (fun x => length x = d) xs ->
  Forall (fun v => length v = d) (map (attr1 ext) xs).
Proof.
  intros H. rewrite map_fmap. apply Forall_fmap.
  eapply Forall_impl; [exact H|]. intros x Hx. cbn. unfold attr1.
  by rewrite ig_shape.
Qed.

Lemma vsum_width vs :
  vs <> [] -> Forall (fun v => length v = d) vs -> length (vsum vs) = d.
Proof.
  destruct vs as [|v vs]; [done|]. intros _ H.
  apply Forall_cons in H as [Hv Hvs]. by apply length_foldl_vadd.
Qed.

Section Rank.
Context (rank : nat) (Hrank : rank < size).

Let s := the_sampler N size rank.
Let loader := batched (sampler_iter s) 50.

Lemma idx_length : length (sampler_iter s) = L.
Proof. by apply sampler_iter_spec. Qed.

Lemma idx_range : in_range ext (sampler_iter s).
Proof. by apply sampler_iter_spec. Qed.

Lemma loader_spec :
  Forall (fun b => b <> [] /\ in_range ext b) loader.
Proof. apply batched_pieces; [done|apply idx_range]. Qed.


Lemma loader_nonempty : loader <> [].
Proof.
  intros E. pose proof (batched_concat (sampler_iter s) 50 ltac:(done)) as H.
  fold loader in H. rewrite E in H. cbn in H.
  pose proof idx_length as Hl. rewrite <- H in Hl. cbn in Hl.
  pose proof L_pos. lia.
Qed.

Lemma examples_length : length (examples ext size rank) = L.
Proof. unfold examples. rewrite rows_at_length; [apply idx_length|apply idx_range]. Qed.

(** The loop ends with a tensor that is the sum of the attributions
    of the rank's examples. *)
Lemma rank_total_spec :
  exists total,
    loop_total ext loader None = Some total /\
    length total = d /\
    veq total (vsum (attrs ext size rank)).
Proof.
  pose proof loader_spec as Hsp. pose proof loader_nonempty as Hne.
  pose proof (batched_concat (sampler_iter s) 50 ltac:(done)) as Hcat.
  fold loader in Hcat.
  destruct loader as [|b bs] eqn:El; [done|]. clear Hne.
  cbn [loop_total]. rewrite loop_total_some. eexists. split; [reflexivity|].
  assert (Hbs : forall b', b' ∈ b :: bs ->
            rows_at ext b' <> [] /\ length (batch_sum ext b') = d).
  { intros b' Hb'. apply (proj1 (Forall_forall _ _) Hsp) in Hb' as [Hn Hr].
    assert (Hrn : rows_at ext b' <> []).
    { intros E. apply (f_equal length) in E. rewrite rows_at_length in E by done.
      destruct b'; done. }
    split; [done|]. unfold batch_sum. apply vsum_width.
    - destruct (rows_at ext b'); done.
    - apply attr_width, rows_at_width. }
  split.
  - apply length_foldl_vadd.
    + unfold Part2.add_total. rewrite length_map. apply Hbs. by left.
    + rewrite map_fmap. apply Forall_fmap. apply Forall_forall. intros b' Hb'.
      cbn. apply Hbs. by right.
  - eapply veq_trans.
    { apply foldl_vadd_veq; [apply broadcast_zero|apply Forall2_veq_refl]. }
    assert (Em : map (batch_sum ext) bs =
              map vsum (map (fun b' => map (attr1 ext) (rows_at ext b')) bs))
      by (by rewrite map_map).
    rewrite Em.
    change (veq (vsum (map vsum
              (map (fun b' => map (attr1 ext) (rows_at ext b')) (b :: bs))))
              (vsum (attrs ext size rank))).
    eapply veq_trans; [apply veq_sym, vsum_concat|].
    + rewrite map_fmap. apply Forall_fmap. apply Forall_forall. intros b' Hb'.
      cbn. destruct (Hbs b' Hb') as [Hn _]. destruct (rows_at ext b'); done.
    + unfold attrs, examples. unfold s, N in Hcat.
      rewrite <- Hcat, rows_at_concat.
      rewrite concat_map, map_map. apply veq_refl.
Qed.

End Rank.
End Part2World.

(** ** Part 2: what a rank sends and prints *)

Lemma printed_loop_calls ext rank loader : printed (loop_calls ext rank loader) = [].
Proof. induction loader as [|b bs IH]; [done|]. exact IH. Qed.



Section Part2Flow.
Context (ext : externals) (env : gmap string string) (size d : nat).
Context (Hsize : size <> 0) (Hdata : dataset ext <> []).
Context (Hrect : Forall (fun x => length x = d) (dataset ext)).

Let N := length (dataset ext).
Let L := ceil_div N size.

Lemma sent_spec r :
  r < size ->
  length (sent ext size r) = d /\
  veq (sent ext size r) (vscale (1 / Q_of_nat L) (vsum (attrs ext size r))).
Proof.
  intros Hr.
  destruct (rank_total_spec ext size d Hsize Hdata Hrect r Hr) as (t & Ht & Hl & Hv).
  unfold sent. rewrite Ht. cbn [default from_option]. split.
  - by rewrite length_vdiv.
  - eapply veq_trans; [apply vdiv_vscale|]. apply vscale_veq; [reflexivity|done].
Qed.




End Part2Flow.

(** ** Part 2: the printed mean *)





(** * Further properties *)

(** ** [chunk] and [cat] on any tensor *)

Lemma pieces_lengths {A} (l : list A) n count :
  Forall (fun c => length c <= n) (pieces l n count).
Proof.
  unfold pieces. rewrite map_fmap. apply Forall_fmap, Forall_forall.
  intros i _. cbn. rewrite length_take. lia.
Qed.

Lemma length_pieces {A} (l : list A) n count : length (pieces l n count) = count.
Proof. unfold pieces. by rewrite length_map, length_seq. Qed.

Lemma ceil_div_ceil_div a b : b <> 0 -> ceil_div a (ceil_div a b) <= b.
Proof.
  intros Hb. destruct (decide (a = 0)) as [->|Ha].
  { assert (E : ceil_div 0 b = 0) by (unfold ceil_div; apply Nat.div_small; lia).
    rewrite E. cbn. lia. }
  pose proof (ceil_div_covers a b Hb) as Hc.
  pose proof (ceil_div_pos a b ltac:(lia) Hb) as Hp.
  set (s := ceil_div a b) in *. unfold ceil_div.
  assert ((a + s - 1) / s < S b); [|lia].
  apply Nat.Div0.div_lt_upper_bound. nia.
Qed.

Lemma ceil_div_exact q c : c <> 0 -> ceil_div (q * c) c = q.
Proof.
  intros Hc. unfold ceil_div. symmetry.
  destruct q as [|q]; [cbn; rewrite Nat.div_small; lia|].
  apply (Nat.div_unique _ _ _ (c - 1)); nia.
Qed.

(** X2. For every tensor and every positive number of chunks,
    [t.chunk(chunks)] returns, and [torch.cat] of the result is [t] again.
    There are between one and [chunks] chunks, none longer than
    ceil(rows / chunks); when the rows are a positive multiple [q * chunks]
    there are exactly [chunks] chunks of [q] rows each. *)
Theorem chunk_cat_round_trip (t : tensor) (chunks : nat) :
  chunks <> 0 ->
  exists cs,
    chunk t chunks = Ok cs /\
    cat cs = t /\
    1 <= length cs <= chunks /\
    Forall (fun c => length c <= ceil_div (length t) chunks) cs /\
    (forall q, q <> 0 -> length t = q * chunks ->
       length cs = chunks /\ Forall (fun c => length c = q) cs).
Proof.
  intros Hc. unfold chunk. destruct (decide (chunks = 0)); [done|].
  destruct (decide (ceil_div (length t) chunks = 0)) as [H0|H0].
  - apply ceil_div_0 in H0 as Ht; [|done]. destruct t; [|done].
    eexists. split; [reflexivity|]. split.
    { clear. induction chunks; [done|]. cbn. done. }
    rewrite length_replicate. split; [lia|]. split.
    + apply Forall_forall. intros c Hin. apply elem_of_replicate in Hin as [-> _].
      cbn. lia.
    + intros q Hq Hl. cbn in Hl. nia.
  - eexists. split; [reflexivity|]. split; [by apply cat_split|].
    unfold split. cbv zeta. unfold tensor. rewrite !length_pieces.
    pose proof (ceil_div_ceil_div (length t) chunks Hc). split; [lia|]. split.
    + apply pieces_lengths.
    + intros q Hq Hl.
      assert (E1 : ceil_div (length t) chunks = q)
        by (rewrite Hl; by apply ceil_div_exact).
      assert (E2 : ceil_div (length t) q = chunks)
        by (rewrite Hl, Nat.mul_comm; by apply ceil_div_exact).
      rewrite E1, E2. split; [lia|]. unfold pieces. rewrite map_fmap.
      apply Forall_fmap, Forall_forall.
      intros i Hi. apply elem_of_seq in Hi. cbn.
      rewrite length_take, length_drop, Hl. nia.
Qed.

Lemma chunk_cat_round_trip_witness :
  exists cs, chunk example_batch 2 = Ok cs /\ length cs = 2 /\
             Forall (fun c => length c = 2) cs.
Proof.
  destruct (chunk_cat_round_trip example_batch 2 ltac:(done))
    as (cs & Hcs & _ & _ & _ & Hd).
  exists cs. split; [exact Hcs|]. apply (Hd 2); [done|reflexivity].
Defined.

(** ** The launcher of Part 1 for every size *)

Lemma chunk_batch_large size :
  4 <= size ->
  chunk example_batch size =
  Ok [[[0; 1; 2]]; [[3; 4; 5]]; [[6; 7; 8]]; [[9; 10; 11]]]%Q.
Proof.
  intros Hs. unfold chunk. destruct (decide (size = 0)); [lia|].
  assert (E : ceil_div (length example_batch) size = 1).
  { unfold ceil_div. symmetry. apply (Nat.div_unique _ _ _ 3); cbn; lia. }
  rewrite E. reflexivity.
Qed.

Ltac in_list :=
  solve [repeat first [apply list_elem_of_here | apply list_elem_of_further]].
Ltac not_in_list H :=
  repeat (apply elem_of_cons in H as [H|H]; [discriminate || lia|]);
  by apply elem_of_nil in H.

(** X3. The launcher cell of Part 1 returns exactly for the sizes 1, 2
    and 4. With size 0 [batch.chunk] raises before any process is started.
    With size 3 and with every size from 5 on, [batch_chunks[rank]] raises
    IndexError at the first rank without a chunk: 2 processes (size 3) or 4
    processes (size 5 and more) have been started by then, and none is
    joined. *)
Theorem launch1_outcomes env size :
  let r := exec no_faults [] (Part1.launch size) (init_state env) in
  (r.2 = Finished tt <-> size ∈ [1; 2; 4]) /\
  (size = 0 ->
   r.2 = Failed (RuntimeError "chunk expects `chunks` to be greater than 0") /\
   trace r.1 = []) /\
  (size = 3 \/ 5 <= size ->
   r.2 = Failed IndexError /\
   length (started (trace r.1)) = (if decide (size = 3) then 2 else 4) /\
   joined (trace r.1) = []).
Proof.
  intros r. unfold r. clear r.
  destruct size as [|[|[|[|[|size]]]]].
  - split; [|split]; [split; [discriminate|intros H; not_in_list H]|done|lia].
  - split; [|split]; [split; [intros _; in_list|done]|done|lia].
  - split; [|split]; [split; [intros _; in_list|done]|done|lia].
  - split; [|split]; [split; [discriminate|intros H; not_in_list H]|done|done].
  - split; [|split]; [split; [intros _; in_list|done]|done|lia].
  - assert (E : exec no_faults [] (Part1.launch (S (S (S (S (S size))))))
                  (init_state env) =
      (extend (init_state env)
         [Start (MkProcess 0 (S (S (S (S (S size))))) (Some [[0; 1; 2]]%Q));
          Start (MkProcess 1 (S (S (S (S (S size))))) (Some [[3; 4; 5]]%Q));
          Start (MkProcess 2 (S (S (S (S (S size))))) (Some [[6; 7; 8]]%Q));
          Start (MkProcess 3 (S (S (S (S (S size))))) (Some [[9; 10; 11]]%Q))],
       Failed IndexError)).
    { unfold Part1.launch. cbn [batch reshape].
      change (lift batch) with (Ret (A:=tensor) example_batch).
      cbn [mbind proc_mbind proc_bind]. rewrite chunk_batch_large by lia.
      reflexivity. }
    rewrite E. split; [|split].
    + split; [discriminate|]. intros H. not_in_list H.
    + lia.
    + intros _. split; [done|]. split; [|done].
      destruct (decide _); [lia|done].
Qed.

Lemma launch1_outcomes_witness :
  (exec no_faults [] (Part1.launch 7) (init_state ∅)).2 = Failed IndexError.
Proof.
  apply (proj2 (proj2 (launch1_outcomes ∅ 7))). right. lia.
Defined.

(** ** [init_process]: the normal path and a failed rendezvous *)

Lemma exec_bind_finished {A B} raises (p : proc A) (f : A -> proc B) :
  forall replies st st' a,
    exec raises replies p st = (st', Finished a) ->
    exists rest, exec raises replies (proc_bind f p) st = exec raises rest (f a) st'.
Proof.
  induction p as [a0|e0|c k IH|t gl k IH|t dst k IH]; intros replies st st' a; cbn.
  - intros [= <- <-]. by exists replies.
  - discriminate.
  - destruct (raises c); [discriminate|]. apply IH.
  - destruct (raises _), replies as [|r rest]; try discriminate. apply IH.
  - destruct (raises _), replies as [|r rest]; try discriminate. apply IH.
Qed.

(** X4. When the three bootstrap calls of [init_process] have returned,
    [fn] returns and [destroy_process_group] does not raise,
    [init_process] returns in the state in which [fn] stopped with one more
    call, [destroy_process_group], as the last one, and the process in no
    group; in both parts, for every [fn]. *)
Theorem init_process_destroys_group raises replies rank size backend st st' :
  bootstrap_returns raises backend rank size ->
  raises DestroyProcessGroup = None ->
  (forall fn inp_batch,
     exec raises replies (fn rank size inp_batch)
       (bootstrapped backend rank size st) = (st', Finished tt) ->
     exec raises replies (Part1.init_process rank size fn inp_batch backend) st
       = (destroyed st', Finished tt)) /\
  (forall fn,
     exec raises replies (fn rank size)
       (bootstrapped backend rank size st) = (st', Finished tt) ->
     exec raises replies (Part2.init_process rank size fn backend) st
       = (destroyed st', Finished tt)).
Proof.
  intros Hb Hd. split.
  - intros fn inp H. rewrite init_process1_exec by done.
    unfold mbind, proc_mbind.
    destruct (exec_bind_finished raises _ (fun _ => call_ DestroyProcessGroup)
                _ _ _ _ H) as [rest ->].
    cbn. by rewrite Hd.
  - intros fn H. rewrite init_process2_exec by done.
    unfold mbind, proc_mbind.
    destruct (exec_bind_finished raises _ (fun _ => call_ DestroyProcessGroup)
                _ _ _ _ H) as [rest ->].
    cbn. by rewrite Hd.
Qed.

Lemma init_process_destroys_group_witness :
  exists st',
    exec no_faults [gather_reply [] 1]
      (Part1.init_process 1 2 (Part1.run sample_externals) [[3; 4; 5]]%Q "gloo")
      (init_state ∅) = (st', Finished tt) /\
    group st' = None /\ last (trace st') = Some DestroyProcessGroup.
Proof.
  set (r := exec no_faults [gather_reply [] 1]
              (Part1.run sample_externals 1 2 [[3; 4; 5]]%Q)
              (bootstrapped "gloo" 1 2 (init_state ∅))).
  exists (destroyed r.1). split; [|split; reflexivity].
  apply (proj1 (init_process_destroys_group no_faults [gather_reply [] 1] 1 2
                  "gloo" (init_state ∅) r.1 ltac:(repeat split) eq_refl)).
  reflexivity.
Defined.

(** X5. When [init_process_group] raises, [init_process] ends in that
    exception with both environment variables set, the process in the
    group it was in before (none, from a fresh process), and the three
    bootstrap calls as its only calls: [fn] is not called, whatever it is,
    and neither is [destroy_process_group]. *)
Theorem init_process_rendezvous_failure raises replies rank size backend st e :
  raises (SetEnviron "MASTER_ADDR" "127.0.0.1") = None ->
  raises (SetEnviron "MASTER_PORT" "29500") = None ->
  raises (InitProcessGroup backend rank size) = Some e ->
  let failed :=
    {| environ := <["MASTER_PORT" := "29500"]>
                    (<["MASTER_ADDR" := "127.0.0.1"]> (environ st));
       group := group st;
       trace := trace st ++ [SetEnviron "MASTER_ADDR" "127.0.0.1";
                             SetEnviron "MASTER_PORT" "29500";
                             InitProcessGroup backend rank size] |} in
  (forall fn inp_batch,
     exec raises replies (Part1.init_process rank size fn inp_batch backend) st
       = (failed, Failed e)) /\
  (forall fn,
     exec raises replies (Part2.init_process rank size fn backend) st
       = (failed, Failed e)).
Proof.
  intros H1 H2 H3 failed. split.
  - intros fn inp. unfold Part1.init_process. cbn.
    rewrite H1. cbn. rewrite H2. cbn. rewrite H3.
    unfold failed, log. cbn. by rewrite <- !app_assoc.
  - intros fn. unfold Part2.init_process. cbn.
    rewrite H1. cbn. rewrite H2. cbn. rewrite H3.
    unfold failed, log. cbn. by rewrite <- !app_assoc.
Qed.

Lemma init_process_rendezvous_failure_witness :
  exec rendezvous_raises []
    (Part2.init_process 1 2 (Part2.run sample_externals) "gloo") (init_state ∅) =
  ({| environ := <["MASTER_PORT" := "29500"]> (<["MASTER_ADDR" := "127.0.0.1"]> ∅);
      group := None;
      trace := [SetEnviron "MASTER_ADDR" "127.0.0.1";
                SetEnviron "MASTER_PORT" "29500";
                InitProcessGroup "gloo" 1 2] |},
   Failed (RuntimeError "Address already in use")).
Proof.
  apply (proj2 (init_process_rendezvous_failure rendezvous_raises [] 1 2 "gloo"
                  (init_state ∅) (RuntimeError "Address already in use")
                  eq_refl eq_refl eq_refl)).
Defined.

(** ** How the samplers divide the dataset *)

Lemma lookup_concat_replicate {A} (l : list A) k q :
  q < k * length l -> concat (replicate k l) !! q = l !! (q `mod` length l).
Proof.
  revert q. induction k as [|k IH]; intros q Hq; [lia|].
  cbn [replicate concat]. destruct (decide (q < length l)) as [Hlt|Hge].
  - rewrite lookup_app_l by done. by rewrite Nat.mod_small.
  - rewrite lookup_app_r by lia. rewrite IH by lia. f_equal.
    assert (length l <> 0) by lia.
    replace q with ((q - length l) + 1 * length l) at 2 by lia.
    by rewrite Nat.Div0.mod_add.
Qed.

Lemma omap_Some_map {A B} (f : A -> option B) (g : A -> B) (l : list A) :
  (forall x, x ∈ l -> f x = Some (g x)) -> omap f l = map g l.
Proof.
  induction l as [|x l IH]; intros H; [done|].
  cbn. rewrite (H x) by apply list_elem_of_here. cbn. f_equal.
  apply IH. intros y Hy. apply H. by apply list_elem_of_further.
Qed.

Lemma mod_once p N : N <= p < 2 * N -> p `mod` N = p - N.
Proof.
  intros H. symmetry. apply (Nat.mod_unique p N 1); lia.
Qed.

(** Rank [rank] draws the indices [rank], [rank + size], [rank + 2 size],
    ... taken modulo the number of examples. *)
Lemma sampler_iter_mod (N size rank : nat) :
  size <> 0 -> rank < size -> N <> 0 ->
  sampler_iter (the_sampler N size rank) =
  map (fun j => (rank + j * size) `mod` N) (seq 0 (ceil_div N size)).
Proof.
  intros Hsize Hrank HN.
  unfold sampler_iter.
  cbn [dataset_len total_size sampler_rank num_replicas the_sampler].
  set (L := ceil_div N size). rewrite length_seq.
  set (padded := if decide (L * size - N <= N) then _ else _).
  pose proof (ceil_div_covers N size Hsize) as Hcov. fold L in Hcov.
  assert (Hl : forall p, p < L * size -> padded !! p = Some (p `mod` N)).
  { intros p Hp. unfold padded. destruct (decide (p < N)) as [Hlt|Hge].
    - assert (E : (seq 0 N) !! p = Some (p `mod` N)).
      { rewrite lookup_seq_lt by done. by rewrite Nat.mod_small. }
      destruct (decide _); rewrite lookup_app_l by (by rewrite length_seq); exact E.
    - destruct (decide _) as [Hpad|Hpad];
        rewrite lookup_app_r by (rewrite length_seq; lia); rewrite length_seq.
      + rewrite lookup_take_lt by lia. rewrite lookup_seq_lt by lia.
        rewrite mod_once by lia. done.
      + rewrite lookup_take_lt by lia.
        pose proof (ceil_div_covers (L * size - N) N HN).
        rewrite lookup_concat_replicate by (rewrite length_seq; lia).
        rewrite length_seq. rewrite lookup_seq_lt by (by apply Nat.mod_upper_bound).
        cbn. f_equal.
        replace p with ((p - N) + 1 * N) at 2 by lia.
        by rewrite Nat.Div0.mod_add. }
  assert (Hlen : length padded = L * size).
  { unfold padded. destruct (decide _) as [Hp|Hp].
    - rewrite length_app, length_take, !length_seq. lia.
    - rewrite length_app, length_take, length_concat_replicate, !length_seq.
      pose proof (ceil_div_covers (L * size - N) N HN). lia. }
  unfold slice. rewrite Hlen, Nat.min_id, ceil_div_stride by done.
  apply omap_Some_map. intros j Hj. apply elem_of_seq in Hj.
  apply Hl. nia.
Qed.

Lemma length_concat_uniform {A} (ls : list (list A)) n :
  Forall (fun l => length l = n) ls -> length (concat ls) = length ls * n.
Proof.
  induction 1 as [|l ls Hl _ IH]; [done|]. cbn. rewrite length_app, IH, Hl. lia.
Qed.

Lemma strided_Permutation size L : strided size L ≡ₚ seq 0 (L * size).
Proof.
  destruct (decide (size = 0)) as [->|Hsize].
  { rewrite Nat.mul_0_r. done. }
  symmetry. apply submseteq_length_Permutation.
  - apply NoDup_submseteq; [apply NoDup_seq|].
    intros p Hp. apply elem_of_seq in Hp. unfold strided.
    apply list_elem_of_In, in_concat.
    exists (map (fun j => p `mod` size + j * size) (seq 0 L)). split.
    + apply in_map_iff. exists (p `mod` size). split; [done|].
      apply in_seq. pose proof (Nat.mod_upper_bound p size Hsize). lia.
    + apply in_map_iff. exists (p / size). split.
      * pose proof (Nat.div_mod p size Hsize). lia.
      * apply in_seq. split; [lia|]. cbn.
        apply Nat.Div0.div_lt_upper_bound. lia.
  - unfold strided. rewrite (length_concat_uniform _ L).
    + rewrite length_map, !length_seq. lia.
    + rewrite map_fmap. apply Forall_fmap, Forall_forall. intros r _. cbn.
      by rewrite length_map, length_seq.
Qed.

Lemma all_draws_strided N size :
  size <> 0 -> N <> 0 ->
  all_draws N size = map (fun p => p `mod` N) (strided size (ceil_div N size)).
Proof.
  intros Hsize HN. unfold all_draws, strided.
  rewrite concat_map, map_map. f_equal.
  apply map_ext_in. intros r Hr. apply in_seq in Hr.
  rewrite (sampler_iter_mod N size r Hsize ltac:(lia) HN).
  by rewrite map_map.
Qed.

Lemma map_mod_seq N : map (fun p => p `mod` N) (seq 0 N) = seq 0 N.
Proof.
  rewrite <- (map_id (seq 0 N)) at 2. apply map_ext_in.
  intros p Hp. apply in_seq in Hp. apply Nat.mod_small. lia.
Qed.

Lemma all_draws_Permutation N size :
  size <> 0 -> N <> 0 ->
  all_draws N size ≡ₚ
  seq 0 N ++ map (fun p => p `mod` N) (seq N (ceil_div N size * size - N)).
Proof.
  intros Hsize HN. pose proof (ceil_div_covers N size Hsize) as Hcov.
  rewrite all_draws_strided by done.
  rewrite !map_fmap, strided_Permutation.
  replace (ceil_div N size * size) with (N + (ceil_div N size * size - N)) at 1
    by lia.
  rewrite seq_app, fmap_app, <- !map_fmap, map_mod_seq. done.
Qed.

Lemma ceil_div_divides N size :
  size <> 0 -> N `mod` size = 0 -> ceil_div N size * size - N = 0.
Proof.
  intros Hsize Hmod. apply Nat.Div0.div_exact in Hmod.
  assert (E : ceil_div N size = N / size).
  { rewrite Hmod at 1. rewrite Nat.mul_comm. by apply ceil_div_exact. }
  rewrite E. set (q := N / size) in *. lia.
Qed.

Lemma all_draws_exact N size :
  size <> 0 -> N <> 0 -> N `mod` size = 0 -> all_draws N size ≡ₚ seq 0 N.
Proof.
  intros Hsize HN Hmod. rewrite all_draws_Permutation by done.
  rewrite ceil_div_divides by done. cbn. by rewrite app_nil_r.
Qed.

(** X6. The samplers that the [size] ranks of Part 2 construct over [N]
    examples are all built, and together they draw every example once
    and, besides, [extra = ceil(N / size) * size - N] examples once more
    (those at [p mod N] for [p] from [N] on): fewer than [size]. So no
    example is left out, and when [size] divides [N] the draws are
    a rearrangement of the dataset. *)
Theorem sampler_covers_dataset (N size : nat) :
  size <> 0 -> N <> 0 ->
  let extra := ceil_div N size * size - N in
  (forall rank, rank < size ->
     DistributedSampler N size rank = Ok (the_sampler N size rank)) /\
  all_draws N size ≡ₚ seq 0 N ++ map (fun p => p `mod` N) (seq N extra) /\
  length (all_draws N size) = N + extra /\
  extra < size /\
  (forall i, i < N -> i ∈ all_draws N size) /\
  (N `mod` size = 0 -> all_draws N size ≡ₚ seq 0 N).
Proof.
  intros Hsize HN extra.
  pose proof (ceil_div_covers N size Hsize) as Hcov.
  pose proof (all_draws_Permutation N size Hsize HN) as Hperm. fold extra in Hperm.
  assert (Hextra : extra < size).
  { unfold extra, ceil_div.
    pose proof (Nat.div_mod (N + size - 1) size Hsize).
    pose proof (Nat.mod_upper_bound (N + size - 1) size Hsize). nia. }
  split; [intros rank Hrank; by apply sampler_ok|].
  split; [exact Hperm|]. split; [|split; [exact Hextra|split]].
  - rewrite Hperm, length_app, length_map, !length_seq. done.
  - intros i Hi. rewrite Hperm. apply elem_of_app. left. apply elem_of_seq. lia.
  - intros Hmod. by apply all_draws_exact.
Qed.

Lemma sampler_covers_dataset_witness :
  all_draws 3 2 = [0; 2; 1; 0] /\ all_draws 3 2 ≡ₚ [0; 1; 2] ++ [0].
Proof.
  split; [reflexivity|].
  apply (sampler_covers_dataset 3 2); lia.
Defined.

(** ** Part 2: the printed mean and the dataset *)











(** ** Part 2: the batches of the attribution loop *)

Lemma attributed_loop_calls ext rank loader :
  attributed (loop_calls ext rank loader) =
  map (fun idxs => (rows_at ext idxs, 1)) loader.
Proof.
  induction loader as [|b bs IH]; [done|].
  unfold loop_calls. cbn [map concat]. unfold attributed. rewrite omap_app.
  cbn. f_equal. exact IH.
Qed.

Lemma length_batched (idxs : list nat) n :
  length (batched idxs n) = ceil_div (length idxs) n.
Proof. unfold batched. apply length_pieces. Qed.

Lemma batched_full (idxs : list nat) n i b :
  n <> 0 -> batched idxs n !! i = Some b ->
  1 <= length b <= n /\ (i + 1 < length (batched idxs n) -> length b = n).
Proof.
  intros Hn Hb. rewrite length_batched. unfold batched, pieces in Hb.
  rewrite map_fmap, list_lookup_fmap in Hb.
  destruct (seq 0 _ !! i) as [j|] eqn:Hj; [|done].
  apply lookup_seq in Hj as [-> Hi]. cbn in Hb. injection Hb as <-.
  rewrite length_take, length_drop.
  pose proof (ceil_div_last (length idxs) n i Hn Hi).
  split; [lia|]. intros Hlt.
  pose proof (ceil_div_last (length idxs) n (i + 1) Hn Hlt). lia.
Qed.

Section Batches.
Context (ext : externals) (env : gmap string string) (size r : nat).
Context (Hsize : size <> 0) (Hr : r < size) (Hdata : dataset ext <> []).

Lemma body2_trace :
  exists st k,
    run_local no_faults (Part2.body ext (MkProcess r size None)) (init_state env)
      = (st, AtReduce (sent ext size r) 0 k) /\
    group st = Some (r, size) /\
    trace st = trace (before_loop env r size) ++
               loop_calls ext r
                 (batched (sampler_iter
                    (the_sampler (length (dataset ext)) size r)) 50) ++
               [DistReduce (sent ext size r) 0].
Proof.
  set (N := length (dataset ext)).
  assert (HN : N <> 0) by (unfold N; destruct (dataset ext); done).
  set (idxs := sampler_iter (the_sampler N size r)).
  destruct (sampler_iter_spec N size r Hsize Hr) as [Hlen Hrange].
  fold idxs in Hlen, Hrange.
  assert (Hloader : Forall (in_range ext) (batched idxs 50)).
  { eapply Forall_impl; [apply (batched_pieces (fun i => i < N)); [done|exact Hrange]|].
    by intros b [_ Hb]. }
  assert (Hne : batched idxs 50 <> []).
  { intros E. apply (f_equal length) in E. rewrite length_batched, Hlen in E.
    assert (H0 : 0 < N) by lia.
    pose proof (ceil_div_pos N size H0 Hsize) as H1.
    assert (H50 : 50 <> 0) by done.
    pose proof (ceil_div_pos (ceil_div N size) 50 H1 H50) as H2.
    rewrite E in H2. cbn in H2. lia. }
  assert (Ht : exists total, loop_total ext (batched idxs 50) None = Some total).
  { destruct (batched idxs 50) as [|b bs]; [done|]. cbn [loop_total].
    rewrite loop_total_some. by eexists. }
  destruct Ht as [total Ht].
  unfold run_local.
  rewrite (body2_exec ext env [] r size (the_sampler N size r) total
             (sampler_ok N size r Hsize Hr) Hloader Ht).
  unfold sent. fold N idxs. rewrite Ht. cbn [default from_option].
  do 2 eexists. split; [reflexivity|]. split; [reflexivity|].
  cbn. reflexivity.
Qed.

(** X8. Rank [r] of Part 2, over a non-empty dataset of [N] examples,
    reaches the reduce after exactly ceil(L / 50) calls of [ig.attribute],
    where [L = ceil(N / size)]: each with target 1 and between 1 and 50
    examples, all but the last with exactly 50. The inputs of the calls, one
    after the other, are the rank's examples: the rows of the dataset at
    [r], [r + size], [r + 2 size], ... taken modulo [N]. *)
Theorem part2_attributes_in_batches_of_50 :
  exists st k,
    run_local no_faults (Part2.body ext (MkProcess r size None)) (init_state env)
      = (st, AtReduce (sent ext size r) 0 k) /\
    (let calls := attributed (trace st) in
     let N := length (dataset ext) in
     let L := ceil_div N size in
     length calls = ceil_div L 50 /\
     Forall (fun c => c.2 = 1 /\ 1 <= length c.1 <= 50) calls /\
     (forall i c, calls !! i = Some c -> i + 1 < length calls -> length c.1 = 50) /\
     concat (map fst calls) = examples ext size r /\
     examples ext size r =
       rows_at ext (map (fun j => (r + j * size) `mod` N) (seq 0 L)) /\
     length (examples ext size r) = L).
Proof.
  destruct body2_trace as (st & k & Hrun & _ & Htr).
  exists st, k. split; [exact Hrun|]. cbn zeta. rewrite Htr.
  set (N := length (dataset ext)).
  assert (HN : N <> 0) by (unfold N; destruct (dataset ext); done).
  set (idxs := sampler_iter (the_sampler N size r)).
  destruct (sampler_iter_spec N size r Hsize Hr) as [Hlen Hrange].
  fold idxs in Hlen, Hrange.
  assert (Hcalls : attributed (trace (before_loop env r size) ++
                     loop_calls ext r (batched idxs 50) ++
                     [DistReduce (sent ext size r) 0]) =
                   map (fun b => (rows_at ext b, 1)) (batched idxs 50)).
  { unfold attributed. rewrite !omap_app.
    fold (attributed (loop_calls ext r (batched idxs 50))).
    rewrite attributed_loop_calls. cbn. by rewrite app_nil_r. }
  rewrite Hcalls.
  assert (Hin : forall i b, batched idxs 50 !! i = Some b -> in_range ext b).
  { intros i b Hb.
    pose proof (batched_pieces (fun i => i < N) idxs 50 ltac:(done) Hrange) as H.
    apply (proj1 (Forall_lookup _ _) H i b Hb). }
  split; [|split; [|split; [|split; [|split]]]].
  - by rewrite length_map, length_batched, Hlen.
  - rewrite map_fmap. apply Forall_fmap, Forall_lookup. intros i b Hb. cbn.
    split; [done|]. rewrite (rows_at_length ext b (Hin i b Hb)).
    apply (batched_full idxs 50 i b ltac:(done) Hb).
  - intros i c Hc Hlt. rewrite length_map in Hlt.
    rewrite map_fmap, list_lookup_fmap in Hc.
    destruct (batched idxs 50 !! i) as [b|] eqn:Hb; [|done].
    cbn in Hc. injection Hc as <-. cbn.
    rewrite (rows_at_length ext b (Hin i b Hb)).
    by apply (batched_full idxs 50 i b ltac:(done) Hb).
  - rewrite map_map. cbn [fst]. rewrite <- rows_at_concat.
    by rewrite batched_concat.
  - unfold examples. fold N. by rewrite (sampler_iter_mod N size r Hsize Hr HN).
  - by apply examples_length.
Qed.

End Batches.

Lemma part2_attributes_in_batches_of_50_witness :
  exists st k,
    run_local no_faults (Part2.body sample_externals (MkProcess 1 2 None))
      (init_state ∅) = (st, AtReduce (sent sample_externals 2 1) 0 k) /\
    map fst (attributed (trace st)) = [[[3; 4]; [1; 2]]%Q].
Proof.
  destruct (part2_attributes_in_batches_of_50 sample_externals ∅ 2 1)
    as (st & k & Hrun & _); [done|lia|done|].
  exists st, k. split; [exact Hrun|].
  unfold run_local in Hrun. vm_compute in Hrun. injection Hrun as <- _.
  reflexivity.
Defined.

(** * float32 and the toy model *)

Section Float32.
Local Open Scope Z_scope.

Lemma digits2_pos_bounds (m : positive) :
  2 ^ (Zpos (digits2_pos m) - 1) <= Zpos m < 2 ^ Zpos (digits2_pos m).
Proof.
  induction m as [m IH|m IH|]; cbn [digits2_pos].
  - rewrite Pos2Z.inj_succ, Pos2Z.inj_xI.
    replace (Z.succ (Z.pos (digits2_pos m)) - 1) with (Z.pos (digits2_pos m)) by lia.
    rewrite Z.pow_succ_r by lia.
    assert (E : 2 ^ Z.pos (digits2_pos m) = 2 * 2 ^ (Z.pos (digits2_pos m) - 1)).
    { rewrite <- Z.pow_succ_r by lia. f_equal. lia. }
    revert IH E. generalize (2 ^ Z.pos (digits2_pos m)),
      (2 ^ (Z.pos (digits2_pos m) - 1)). intros a b. lia.
  - rewrite Pos2Z.inj_succ. change (Z.pos m~0) with (2 * Z.pos m).
    replace (Z.succ (Z.pos (digits2_pos m)) - 1) with (Z.pos (digits2_pos m)) by lia.
    rewrite Z.pow_succ_r by lia.
    assert (E : 2 ^ Z.pos (digits2_pos m) = 2 * 2 ^ (Z.pos (digits2_pos m) - 1)).
    { rewrite <- Z.pow_succ_r by lia. f_equal. lia. }
    revert IH E. generalize (2 ^ Z.pos (digits2_pos m)),
      (2 ^ (Z.pos (digits2_pos m) - 1)). intros a b. lia.
  - cbn. lia.
Qed.

(** The number of binary digits is determined by the bounds. *)
Lemma digits2_pos_unique (m : positive) (d : Z) :
  2 ^ (d - 1) <= Zpos m < 2 ^ d -> Zpos (digits2_pos m) = d.
Proof.
  intros [Hl Hu]. pose proof (digits2_pos_bounds m) as [Hl' Hu'].
  assert (0 < d).
  { destruct (Z.lt_ge_cases 0 d) as [|Hd]; [done|].
    assert (2 ^ d <= 2 ^ 0) by (destruct (Z.eq_dec d 0) as [->|]; [done|rewrite Z.pow_neg_r; lia]).
    cbn in *. lia. }
  destruct (Z.lt_trichotomy (Zpos (digits2_pos m)) d) as [Hlt|[Heq|Hgt]]; [|done|].
  - assert (2 ^ Zpos (digits2_pos m) <= 2 ^ (d - 1)) by (apply Z.pow_le_mono_r; lia). lia.
  - assert (2 ^ d <= 2 ^ (Zpos (digits2_pos m) - 1)) by (apply Z.pow_le_mono_r; lia). lia.
Qed.

Lemma iter_xO (m d : positive) : Zpos (Pos.iter xO m d) = Zpos m * 2 ^ Zpos d.
Proof.
  induction d as [|d IH] using Pos.peano_ind.
  - cbn. lia.
  - rewrite Pos.iter_succ, Pos2Z.inj_succ, Z.pow_succ_r by lia.
    change (Z.pos (Pos.iter xO m d)~0) with (2 * Z.pos (Pos.iter xO m d)). rewrite IH. lia.
Qed.

Lemma digits2_pos_shift (m : positive) (k : Z) (p : positive) :
  0 <= k -> Zpos p = Zpos m * 2 ^ k ->
  Zpos (digits2_pos p) = Zpos (digits2_pos m) + k.
Proof.
  intros Hk Hp. apply digits2_pos_unique. rewrite Hp.
  pose proof (digits2_pos_bounds m) as [Hl Hu].
  replace (Zpos (digits2_pos m) + k - 1) with ((Zpos (digits2_pos m) - 1) + k) by lia.
  rewrite !Z.pow_add_r by lia.
  assert (0 < 2 ^ k) by (apply Z.pow_pos_nonneg; lia). nia.
Qed.

Lemma iter_pos_iter {A} (f : A -> A) (p : positive) (x : A) :
  iter_pos f p x = Pos.iter f x p.
Proof.
  revert x. induction p as [p IH|p IH|]; intros x; cbn.
  - rewrite !IH. by rewrite <- !Pos.iter_swap.
  - by rewrite !IH.
  - done.
Qed.

Lemma shr_1_m mrs : 0 <= shr_m mrs -> shr_m (shr_1 mrs) = shr_m mrs / 2.
Proof.
  destruct mrs as [m r s]. cbn [shr_m]. intros Hm.
  destruct m as [|[p|p|]|p]; cbn [shr_1 shr_m]; try lia.
  all: try (symmetry; apply Z.div_small; lia).
  - rewrite Pos2Z.inj_xI. apply (Z.div_unique _ _ _ 1); lia.
  - change (Z.pos p~0) with (2 * Z.pos p). apply (Z.div_unique _ _ _ 0); lia.
Qed.

Lemma shr_1_exact mrs :
  0 <= shr_m mrs -> no_bit_lost mrs -> shr_m mrs mod 2 = 0 -> no_bit_lost (shr_1 mrs).
Proof.
  destruct mrs as [m r s]. unfold no_bit_lost. cbn [shr_m shr_r shr_s].
  intros Hm [-> ->] Hmod.
  destruct m as [|[p|p|]|p]; cbn [shr_1 shr_r shr_s orb]; try done.
  exfalso. assert (Z.pos p~1 = 1 + Z.pos p * 2) as E by lia.
  rewrite E, Z.mod_add in Hmod by lia. done.
Qed.

Lemma shr_iter_m (j : positive) mrs :
  0 <= shr_m mrs ->
  shr_m (iter_pos shr_1 j mrs) = shr_m mrs / 2 ^ Zpos j.
Proof.
  rewrite iter_pos_iter. revert mrs.
  induction j as [|j IH] using Pos.peano_ind; intros mrs Hm.
  - cbn [Pos.iter]. rewrite shr_1_m by done. done.
  - rewrite Pos.iter_succ, shr_1_m.
    + rewrite IH by done. rewrite Pos2Z.inj_succ, Z.pow_succ_r by lia.
      rewrite Z.div_div by (try apply Z.pow_pos_nonneg; lia). f_equal. lia.
    + rewrite IH by done. apply Z.div_pos; [done|]. apply Z.pow_pos_nonneg; lia.
Qed.

Lemma shr_iter_exact (j : positive) mrs :
  0 <= shr_m mrs -> no_bit_lost mrs -> shr_m mrs mod 2 ^ Zpos j = 0 ->
  no_bit_lost (iter_pos shr_1 j mrs).
Proof.
  rewrite iter_pos_iter. revert mrs.
  induction j as [|j IH] using Pos.peano_ind; intros mrs Hm He Hmod.
  - cbn [Pos.iter]. apply shr_1_exact; done.
  - rewrite Pos.iter_succ.
    rewrite Pos2Z.inj_succ, Z.pow_succ_r in Hmod by lia.
    assert (Hp : 0 < 2 ^ Zpos j) by (apply Z.pow_pos_nonneg; lia).
    apply Z.mod_divide in Hmod as [q Hq]; [|lia].
    assert (Hj : shr_m mrs mod 2 ^ Zpos j = 0).
    { apply Z.mod_divide; [lia|]. exists (q * 2). lia. }
    apply shr_1_exact.
    + rewrite <- iter_pos_iter, shr_iter_m by done. apply Z.div_pos; lia.
    + apply IH; done.
    + rewrite <- iter_pos_iter, shr_iter_m by done.
      rewrite Hq. replace (q * (2 * 2 ^ Z.pos j)) with (q * 2 * 2 ^ Zpos j) by lia.
      rewrite Z.div_mul by lia. rewrite Z.mul_comm, Z.mul_comm. apply Z.mod_mul. lia.
Qed.

Lemma fexp32 e : fexp F32.prec F32.emax e = Z.max (e - 24) (-149).
Proof. reflexivity. Qed.

Lemma shr_spec (M e j : Z) :
  0 <= M ->
  exists r s,
    shr (Build_shr_record M false false) e j =
      (Build_shr_record (M / 2 ^ Z.max 0 j) r s, e + Z.max 0 j) /\
    (M mod 2 ^ Z.max 0 j = 0 -> r = false /\ s = false).
Proof.
  intros HM. destruct j as [|p|p].
  - exists false, false. cbn [shr Z.max Z.compare]. rewrite Z.div_1_r, Z.add_0_r. done.
  - pose proof (shr_iter_m p (Build_shr_record M false false) HM) as Hm.
    cbn [shr_m] in Hm.
    destruct (iter_pos shr_1 p (Build_shr_record M false false)) as [m' r s] eqn:E.
    cbn [shr_m] in Hm. subst m'.
    exists r, s. cbn [shr]. rewrite E.
    replace (Z.max 0 (Z.pos p)) with (Z.pos p) by lia. split; [done|].
    intros Hmod.
    pose proof (shr_iter_exact p (Build_shr_record M false false) HM
                  (conj eq_refl eq_refl) Hmod) as He.
    rewrite E in He. exact He.
  - exists false, false. cbn [shr]. replace (Z.max 0 (Z.neg p)) with 0 by lia.
    rewrite Z.div_1_r, Z.add_0_r. done.
Qed.

Lemma round_nearest_even_bounds m r s :
  let m' := round_nearest_even m (loc_of_shr_record (Build_shr_record m r s)) in
  m <= m' <= m + 1 /\ (r = false /\ s = false -> m' = m).
Proof.
  destruct r, s; cbn; try destruct (Z.even m); split; try lia; try done;
    intros [? ?]; done.
Qed.

(** What rounding does to a positive mantissa: a right shift that drops
    [j1] bits, at most one unit added, and a second right shift. *)
Lemma round_aux_char (sx : bool) (M : positive) (e : Z) :
  exists m2 m3 e1 e3 : Z,
    let j1 := Z.max 0 (fexp F32.prec F32.emax (Z.pos (digits2_pos M) + e) - e) in
    let j2 := Z.max 0 (fexp F32.prec F32.emax (Zdigits2 m2 + e1) - e1) in
    e1 = e + j1 /\
    Z.pos M / 2 ^ j1 <= m2 <= Z.pos M / 2 ^ j1 + 1 /\
    (Z.pos M mod 2 ^ j1 = 0 -> m2 = Z.pos M / 2 ^ j1) /\
    e3 = e1 + j2 /\ m3 = m2 / 2 ^ j2 /\
    binary_round_aux F32.prec F32.emax sx (Z.pos M) e loc_Exact =
      match m3 with
      | Z0 => S754_zero sx
      | Zpos m => if Z.leb e3 (F32.emax - F32.prec)
                  then S754_finite sx m e3 else S754_infinity sx
      | Zneg _ => S754_nan
      end.
Proof.
  unfold binary_round_aux, shr_fexp. cbn [Zdigits2 shr_record_of_loc].
  destruct (shr_spec (Z.pos M) e
              (fexp F32.prec F32.emax (Z.pos (digits2_pos M) + e) - e) ltac:(lia))
    as (r & s & -> & Hex).
  set (j1 := Z.max 0 _) in *. cbn [shr_m].
  pose proof (round_nearest_even_bounds (Z.pos M / 2 ^ j1) r s) as [Hb Hexact].
  cbn zeta in Hb, Hexact.
  set (m2 := round_nearest_even _ _) in *.
  assert (Hm1 : 0 <= Z.pos M / 2 ^ j1).
  { apply Z.div_pos; [lia|]. apply Z.pow_pos_nonneg; lia. }
  destruct (shr_spec m2 (e + j1)
              (fexp F32.prec F32.emax (Zdigits2 m2 + (e + j1)) - (e + j1)) ltac:(lia))
    as (r2 & s2 & -> & _).
  cbn [shr_m].
  exists m2, (m2 / 2 ^ Z.max 0 (fexp F32.prec F32.emax (Zdigits2 m2 + (e + j1)) - (e + j1))),
    (e + j1), (e + j1 + Z.max 0 (fexp F32.prec F32.emax (Zdigits2 m2 + (e + j1)) - (e + j1))).
  cbn zeta. split; [done|]. split; [done|]. split; [|done].
  intros Hmod. apply Hexact. by apply Hex.
Qed.

Lemma pow2_pos (e : Z) : (0 < 2 ^ e)%Q.
Proof. apply Qpower_0_lt. reflexivity. Qed.

Lemma pow2_add (a b : Z) : (2 ^ (a + b) == 2 ^ a * 2 ^ b)%Q.
Proof. apply Qpower_plus. discriminate. Qed.

Lemma pow2_Z (k : Z) : 0 <= k -> (inject_Z (2 ^ k) == 2 ^ k)%Q.
Proof. intros Hk. by rewrite Zpower_Qpower. Qed.

Lemma pow2_mono (a b : Z) : a <= b -> (2 ^ a <= 2 ^ b)%Q.
Proof. intros H. apply Qpower_le_compat_l; [done|]. discriminate. Qed.

Lemma scaled_le (a b e : Z) :
  (inject_Z a * 2 ^ e <= inject_Z b * 2 ^ e)%Q <-> a <= b.
Proof.
  rewrite Qmult_le_r by apply pow2_pos. by rewrite <- Zle_Qle.
Qed.

(** A mantissa moved to a higher exponent stands for the same number. *)
Lemma scaled_shift (m e j : Z) :
  0 <= j -> (inject_Z (m * 2 ^ j) * 2 ^ e == inject_Z m * 2 ^ (e + j))%Q.
Proof.
  intros Hj. rewrite inject_Z_mult, pow2_Z, pow2_add by done. ring.
Qed.

(** Rounding keeps a number that fits: [n * 2^k] at exponent [e], with
    [n] of at most 24 bits, comes out with [n] moved to 24 bits. *)
Lemma round_aux_exact (s : bool) (n M : positive) (k e : Z) :
  let d := Z.pos (digits2_pos n) in
  0 <= k -> Z.pos M = Z.pos n * 2 ^ k -> d <= 24 -> 24 <= d + k ->
  -149 <= d + k + e - 24 <= 104 ->
  exists m',
    binary_round_aux F32.prec F32.emax s (Z.pos M) e loc_Exact =
      S754_finite s m' (d + k + e - 24) /\
    Z.pos m' = Z.pos n * 2 ^ (24 - d).
Proof.
  intros d Hk HM Hd Hdk Ht.
  destruct (round_aux_char s M e) as (m2 & m3 & e1 & e3 & H). cbn zeta in H.
  destruct H as (He1 & _ & Hex & He3 & Hm3 & ->).
  rewrite (digits2_pos_shift n k M Hk HM), fexp32 in He1, Hex. fold d in He1, Hex.
  replace (Z.max 0 (Z.max (d + k + e - 24) (-149) - e)) with (d + k - 24)
    in He1, Hex by lia.
  assert (Hpow : 2 ^ k = 2 ^ (24 - d) * 2 ^ (d + k - 24)).
  { rewrite <- Z.pow_add_r by lia. f_equal. lia. }
  assert (Hj : 0 < 2 ^ (d + k - 24)) by (apply Z.pow_pos_nonneg; lia).
  assert (HM' : Z.pos M = Z.pos n * 2 ^ (24 - d) * 2 ^ (d + k - 24)).
  { rewrite HM, Hpow. ring. }
  assert (Hjne : 2 ^ (d + k - 24) <> 0) by (apply Z.pow_nonzero; lia).
  rewrite HM' in Hex. rewrite Z.div_mul in Hex by exact Hjne.
  specialize (Hex (Z.mod_mul _ _ Hjne)).
  assert (Hp : 0 < 2 ^ (24 - d)) by (apply Z.pow_pos_nonneg; lia).
  destruct m2 as [|p|p]; [nia| |nia].
  pose proof (digits2_pos_shift n (24 - d) p ltac:(lia) Hex) as Hdp. fold d in Hdp.
  cbn [Zdigits2] in He3, Hm3. rewrite Hdp, fexp32 in He3, Hm3.
  replace (Z.max 0 (Z.max (d + (24 - d) + e1 - 24) (-149) - e1)) with 0
    in He3, Hm3 by lia.
  rewrite Z.div_1_r in Hm3. subst m3.
  assert (e3 = d + k + e - 24) as -> by lia.
  exists p. split; [|exact Hex].
  assert (E : (d + k + e - 24 <=? F32.emax - F32.prec) = true).
  { apply Z.leb_le. unfold F32.emax, F32.prec. lia. }
  by rewrite E.
Qed.

(** Rounding never passes an integer below 2^24: what stood at or below
    [n] before stands at or below [n] after. *)
Lemma round_aux_below (s : bool) (M : positive) (e n : Z) :
  0 < n < 2 ^ 24 ->
  (inject_Z (Z.pos M) * 2 ^ e <= inject_Z n)%Q ->
  match binary_round_aux F32.prec F32.emax s (Z.pos M) e loc_Exact with
  | S754_zero s' => s' = s
  | S754_finite s' m' e' =>
      s' = s /\ (inject_Z (Z.pos m') * 2 ^ e' <= inject_Z n)%Q
  | _ => False
  end.
Proof.
  intros Hn H.
  destruct (round_aux_char s M e) as (m2 & m3 & e1 & e3 & Hc). cbn zeta in Hc.
  destruct Hc as (He1 & Hm2 & Hex & He3 & Hm3 & ->).
  set (dM := Z.pos (digits2_pos M)) in *.
  set (j1 := Z.max 0 (fexp F32.prec F32.emax (dM + e) - e)) in *.
  set (j2 := Z.max 0 (fexp F32.prec F32.emax (Zdigits2 m2 + e1) - e1)) in *.
  assert (Hj1 : 0 <= j1) by (unfold j1; lia).
  assert (Hj2 : 0 <= j2) by (unfold j2; lia).
  assert (Hp1 : 0 < 2 ^ j1) by (apply Z.pow_pos_nonneg; lia).
  assert (Hp2 : 0 < 2 ^ j2) by (apply Z.pow_pos_nonneg; lia).
  pose proof (Z.div_mod (Z.pos M) (2 ^ j1) ltac:(lia)) as Hdiv.
  pose proof (Z.mod_pos_bound (Z.pos M) (2 ^ j1) Hp1) as Hrem.
  set (q := Z.pos M / 2 ^ j1) in *. set (rem := Z.pos M mod 2 ^ j1) in *.
  assert (Hq : 0 <= q) by (apply Z.div_pos; lia).
  (* the rounded mantissa stays at or below n *)
  assert (Hm2n : (inject_Z m2 * 2 ^ e1 <= inject_Z n)%Q).
  { destruct (Z.eq_dec rem 0) as [Hr0|Hr0].
    - rewrite (Hex Hr0). subst e1. rewrite <- scaled_shift by done.
      replace (q * 2 ^ j1) with (Z.pos M) by lia. exact H.
    - assert (Hpos : 0 < j1).
      { destruct (Z.eq_dec j1 0) as [E|]; [|lia]. exfalso.
        unfold rem in Hr0. rewrite E in Hr0. cbn in Hr0.
        by rewrite Z.mod_1_r in Hr0. }
      assert (Ht : e1 = fexp F32.prec F32.emax (dM + e)) by (unfold j1 in *; lia).
      rewrite fexp32 in Ht.
      assert (Hle0 : e1 <= 0).
      { destruct (Z.le_gt_cases e1 0) as [|Hgt]; [done|]. exfalso.
        pose proof (digits2_pos_bounds M) as [Hlow _]. fold dM in Hlow.
        assert (Hd1 : 0 <= dM - 1) by (unfold dM; lia).
        assert (H1 : (inject_Z (2 ^ (dM - 1)) * 2 ^ e <= inject_Z n)%Q).
        { eapply Qle_trans; [|exact H]. by apply scaled_le. }
        rewrite pow2_Z, <- pow2_add in H1 by done.
        assert (H2 : (2 ^ 24 <= 2 ^ (dM - 1 + e))%Q) by (apply pow2_mono; lia).
        assert (H3 : (inject_Z n < 2 ^ 24)%Q).
        { rewrite <- pow2_Z by lia. rewrite <- Zlt_Qlt. lia. }
        apply (Qlt_irrefl (2 ^ 24)%Q).
        eapply Qle_lt_trans; [exact H2|]. eapply Qle_lt_trans; [exact H1|exact H3]. }
      set (N := n * 2 ^ (- e1)).
      assert (HN : (inject_Z n == inject_Z N * 2 ^ e1)%Q).
      { unfold N. rewrite scaled_shift by lia.
        replace (e1 + - e1) with 0 by lia. cbn. ring. }
      rewrite HN. apply scaled_le.
      assert (HMN : Z.pos M <= N * 2 ^ j1).
      { apply (scaled_le _ _ e). rewrite scaled_shift by done.
        rewrite <- He1, <- HN. exact H. }
      assert (q < N) by nia. lia. }
  assert (Hm2pos : 0 <= m2) by lia.
  pose proof (Z.div_mod m2 (2 ^ j2) ltac:(lia)) as Hdiv2.
  pose proof (Z.mod_pos_bound m2 (2 ^ j2) Hp2) as Hrem2.
  assert (Hm3pos : 0 <= m3) by (subst m3; apply Z.div_pos; lia).
  assert (Hm3n : (inject_Z m3 * 2 ^ e3 <= inject_Z n)%Q).
  { eapply Qle_trans; [|exact Hm2n]. subst e3.
    rewrite <- scaled_shift by done. apply scaled_le. subst m3. lia. }
  destruct m3 as [|p|p]; [done| |lia].
  assert (He3b : e3 < 24).
  { destruct (Z.lt_ge_cases e3 24) as [|Hge]; [done|]. exfalso.
    assert (H1 : (2 ^ e3 <= inject_Z n)%Q).
    { eapply Qle_trans; [|exact Hm3n].
      rewrite <- (Qmult_1_l (2 ^ e3)) at 1. apply Qmult_le_compat_r.
      - change 1%Q with (inject_Z 1). rewrite <- Zle_Qle. lia.
      - apply Qlt_le_weak, pow2_pos. }
    assert (H2 : (2 ^ 24 <= 2 ^ e3)%Q) by (apply pow2_mono; lia).
    assert (H3 : (inject_Z n < 2 ^ 24)%Q).
    { rewrite <- pow2_Z by lia. rewrite <- Zlt_Qlt. lia. }
    apply (Qlt_irrefl (2 ^ 24)%Q).
    eapply Qle_lt_trans; [exact H2|]. eapply Qle_lt_trans; [exact H1|exact H3]. }
  assert (E : (e3 <=? F32.emax - F32.prec) = true).
  { apply Z.leb_le. unfold F32.emax, F32.prec. lia. }
  rewrite E. done.
Qed.

(** Rounding a positive mantissa gives a number of the sign asked for. *)
Lemma round_aux_sign (s : bool) (M : positive) (e : Z) :
  match binary_round_aux F32.prec F32.emax s (Z.pos M) e loc_Exact with
  | S754_zero s' | S754_infinity s' | S754_finite s' _ _ => s' = s
  | S754_nan => False
  end.
Proof.
  destruct (round_aux_char s M e) as (m2 & m3 & e1 & e3 & Hc). cbn zeta in Hc.
  destruct Hc as (_ & Hm2 & _ & _ & Hm3 & ->).
  assert (0 <= m3).
  { subst m3. apply Z.div_pos; [|apply Z.pow_pos_nonneg; lia].
    assert (0 <= Z.pos M / 2 ^ Z.max 0 (fexp F32.prec F32.emax
                                          (Z.pos (digits2_pos M) + e) - e)).
    { apply Z.div_pos; [lia|]. apply Z.pow_pos_nonneg; lia. }
    lia. }
  destruct m3 as [|p|p]; [done| |lia]. by destruct (_ <=? _).
Qed.

Lemma shl_align_spec (m : positive) (e e' : Z) :
  exists m', shl_align m e e' = (m', Z.min e e') /\
             Z.pos m' = Z.pos m * 2 ^ (e - Z.min e e').
Proof.
  unfold shl_align. destruct (e' - e) as [|p|p] eqn:E.
  - exists m. replace (Z.min e e') with e by lia.
    rewrite Z.sub_diag. cbn. split; [done|lia].
  - exists m. replace (Z.min e e') with e by lia.
    rewrite Z.sub_diag. cbn. split; [done|lia].
  - exists (Pos.iter xO m p). replace (Z.min e e') with e' by lia.
    split; [done|]. rewrite iter_xO. f_equal. f_equal. lia.
Qed.

Lemma round_exact (s : bool) (n M : positive) (k e : Z) :
  let d := Z.pos (digits2_pos n) in
  0 <= k -> Z.pos M = Z.pos n * 2 ^ k -> d <= 24 ->
  -149 <= d + k + e - 24 <= 104 ->
  exists m',
    binary_round F32.prec F32.emax s M e = S754_finite s m' (d + k + e - 24) /\
    Z.pos m' = Z.pos n * 2 ^ (24 - d).
Proof.
  intros d Hk HM Hd Ht. unfold binary_round.
  rewrite (digits2_pos_shift n k M Hk HM), fexp32. fold d.
  replace (Z.max (d + k + e - 24) (-149)) with (d + k + e - 24) by lia.
  destruct (shl_align_spec M e (d + k + e - 24)) as (mz & -> & Hmz).
  set (ez := Z.min e (d + k + e - 24)) in *.
  destruct (round_aux_exact s n mz (k + (e - ez)) ez) as (m' & Hr & Hm').
  - unfold ez. lia.
  - rewrite Hmz, HM, Z.pow_add_r by (unfold ez; lia). ring.
  - done.
  - fold d. unfold ez. lia.
  - fold d. unfold ez. lia.
  - exists m'. fold d in Hr, Hm'. split; [|exact Hm'].
    rewrite Hr. f_equal. unfold ez. lia.
Qed.

Lemma round_below (s : bool) (M : positive) (e n : Z) :
  0 < n < 2 ^ 24 ->
  (inject_Z (Z.pos M) * 2 ^ e <= inject_Z n)%Q ->
  match binary_round F32.prec F32.emax s M e with
  | S754_zero s' => s' = s
  | S754_finite s' m' e' =>
      s' = s /\ (inject_Z (Z.pos m') * 2 ^ e' <= inject_Z n)%Q
  | _ => False
  end.
Proof.
  intros Hn H. unfold binary_round.
  destruct (shl_align_spec M e (fexp F32.prec F32.emax (Z.pos (digits2_pos M) + e)))
    as (mz & -> & Hmz).
  apply round_aux_below; [done|].
  rewrite Hmz, scaled_shift by lia.
  replace (Z.min e _ + (e - Z.min e _)) with e by lia. exact H.
Qed.

Lemma round_sign (s : bool) (M : positive) (e : Z) :
  match binary_round F32.prec F32.emax s M e with
  | S754_zero s' | S754_infinity s' | S754_finite s' _ _ => s' = s
  | S754_nan => False
  end.
Proof.
  unfold binary_round.
  destruct (shl_align _ _ _) as [mz ez]. apply round_aux_sign.
Qed.

Lemma digits_small (p : positive) :
  Z.pos p < 2 ^ 24 -> Z.pos (digits2_pos p) <= 24.
Proof.
  intros H. pose proof (digits2_pos_bounds p) as [Hl _].
  destruct (Z.le_gt_cases (Z.pos (digits2_pos p)) 24) as [|Hgt]; [done|].
  assert (2 ^ 24 <= 2 ^ (Z.pos (digits2_pos p) - 1)) by (apply Z.pow_le_mono_r; lia).
  lia.
Qed.

Lemma normalize_normal (c k g : Z) :
  0 <= k -> Z.abs c < 2 ^ 24 -> -125 <= g <= 100 ->
  binary_normalize F32.prec F32.emax (c * 2 ^ k) (g - k) false = normal c g.
Proof.
  intros Hk Hc Hg.
  assert (Hp : 0 < 2 ^ k) by (apply Z.pow_pos_nonneg; lia).
  destruct c as [|p|p].
  - done.
  - pose proof (digits_small p Hc) as Hd.
    destruct (Z.pos p * 2 ^ k) as [|M|M] eqn:E; [nia| |nia].
    cbn [binary_normalize].
    destruct (round_exact false p M k (g - k) Hk (eq_sym E) Hd ltac:(lia)) as (m' & -> & Hm').
    unfold normal. cbn [Z.ltb Z.compare Z.abs Zdigits2]. f_equal; [|lia].
    apply Pos2Z.inj. rewrite Hm'. symmetry. apply Z2Pos.id.
    apply Z.mul_pos_pos; [done|]. apply Z.pow_pos_nonneg; lia.
  - pose proof (digits_small p Hc) as Hd.
    destruct (Z.neg p * 2 ^ k) as [|M|M] eqn:E; [nia|nia|].
    assert (E' : Z.pos M = Z.pos p * 2 ^ k) by lia.
    cbn [binary_normalize].
    destruct (round_exact true p M k (g - k) Hk E' Hd ltac:(lia)) as (m' & -> & Hm').
    unfold normal. cbn [Z.ltb Z.compare Z.abs Zdigits2]. f_equal; [|lia].
    apply Pos2Z.inj. rewrite Hm'. symmetry. apply Z2Pos.id.
    apply Z.mul_pos_pos; [done|]. apply Z.pow_pos_nonneg; lia.
Qed.

Lemma nearest_normal (c g : Z) :
  Z.abs c < 2 ^ 24 -> -125 <= g <= 100 -> F32.nearest c g = normal c g.
Proof.
  intros Hc Hg. unfold F32.nearest.
  rewrite <- (normalize_normal c 0 g) by (done || lia).
  f_equal; [cbn; lia|lia].
Qed.

(** The mantissa and the number of a [normal]. *)
Lemma normal_mantissa (c g : Z) :
  c <> 0 -> Z.abs c < 2 ^ 24 ->
  exists m, normal c g = S754_finite (c <? 0) m (Zdigits2 c + g - 24) /\
            cond_Zopp (c <? 0) (Z.pos m) = c * 2 ^ (24 - Zdigits2 c) /\
            0 <= 24 - Zdigits2 c.
Proof.
  intros Hc0 Hc.
  assert (Hd : Zdigits2 c <= 24).
  { destruct c as [|p|p]; [done| |]; by apply digits_small. }
  assert (Hp : 0 < 2 ^ (24 - Zdigits2 c)) by (apply Z.pow_pos_nonneg; lia).
  exists (Z.to_pos (Z.abs c * 2 ^ (24 - Zdigits2 c))).
  split; [by destruct c|]. split; [|lia].
  rewrite Z2Pos.id by (destruct c; [done|cbn [Z.abs]; nia..]).
  destruct c as [|p|p]; [done| |]; cbn [Z.ltb Z.compare cond_Zopp Z.abs]; lia.
Qed.

Lemma cond_Zopp_mul (s : bool) (x y : Z) :
  cond_Zopp s (x * y) = cond_Zopp s x * y.
Proof. destruct s; cbn; lia. Qed.

Lemma digits_le_small (c : Z) : Z.abs c < 2 ^ 24 -> Zdigits2 c <= 24.
Proof. destruct c as [|p|p]; [done| |]; apply digits_small. Qed.

(** Sums that fit 24 bits are exact. *)
Lemma add_normal (a b g : Z) :
  Z.abs a < 2 ^ 24 -> Z.abs b < 2 ^ 24 -> Z.abs (a + b) < 2 ^ 24 ->
  -125 <= g <= 100 ->
  F32.add (normal a g) (normal b g) = normal (a + b) g.
Proof.
  intros Ha Hb Hab Hg.
  destruct (Z.eq_dec a 0) as [->|Ha0].
  { cbn [Z.add]. destruct b; done. }
  destruct (Z.eq_dec b 0) as [->|Hb0].
  { rewrite Z.add_0_r. destruct a; done. }
  destruct (normal_mantissa a g Ha0 Ha) as (ma & -> & Hma & Hda).
  destruct (normal_mantissa b g Hb0 Hb) as (mb & -> & Hmb & Hdb).
  unfold F32.add. cbn [SFadd].
  set (ea := Zdigits2 a + g - 24). set (eb := Zdigits2 b + g - 24).
  set (ez := Z.min ea eb).
  destruct (shl_align_spec ma ea ez) as (ma' & -> & Hma').
  destruct (shl_align_spec mb eb ez) as (mb' & -> & Hmb').
  cbn [fst].
  replace (Z.min ea ez) with ez in Hma' by (unfold ez; lia).
  replace (Z.min eb ez) with ez in Hmb' by (unfold ez; lia).
  assert (Hsum : cond_Zopp (a <? 0) (Z.pos ma') + cond_Zopp (b <? 0) (Z.pos mb')
                 = (a + b) * 2 ^ (g - ez)).
  { rewrite Hma', Hmb', !cond_Zopp_mul, Hma, Hmb.
    rewrite <- !Z.mul_assoc, <- !Z.pow_add_r by (unfold ez, ea, eb; lia).
    replace (24 - Zdigits2 a + (ea - ez)) with (g - ez) by (unfold ea; lia).
    replace (24 - Zdigits2 b + (eb - ez)) with (g - ez) by (unfold eb; lia).
    ring. }
  rewrite Hsum.
  replace ez with (g - (g - ez)) at 2 by lia.
  apply normalize_normal; [|done|done].
  unfold ez, ea, eb. lia.
Qed.

Lemma one_normal : F32.one = normal 1 0.
Proof. reflexivity. Qed.

(** Multiplying by 1.0 changes nothing. *)
Lemma mul_one_normal (c g : Z) :
  Z.abs c < 2 ^ 24 -> -125 <= g <= 100 ->
  F32.mul (normal c g) F32.one = normal c g.
Proof.
  intros Hc Hg. destruct (Z.eq_dec c 0) as [->|Hc0]; [done|].
  pose proof (digits_le_small c Hc) as Hd.
  destruct (normal_mantissa c g Hc0 Hc) as (m & E & Hm & _). rewrite E.
  unfold F32.mul. change F32.one with (S754_finite false 8388608 (-23)).
  cbn [SFmul]. rewrite xorb_false_r.
  set (d := Zdigits2 c) in *.
  assert (Hp : exists p, Z.abs c = Z.pos p /\ Z.pos (digits2_pos p) = d).
  { destruct c as [|p|p]; [done| |]; by exists p. }
  destruct Hp as (p & Hp & Hdp).
  assert (Hmp : Z.pos m = Z.pos p * 2 ^ (24 - d)).
  { rewrite <- Hp. destruct c as [|q|q]; [done| |]; cbn in Hm |- *; lia. }
  destruct (round_aux_exact (c <? 0) p (m * 8388608) (24 - d + 23) (d + g - 24 + -23))
    as (m' & -> & Hm').
  - lia.
  - rewrite Pos2Z.inj_mul, Hmp, Z.pow_add_r by lia.
    change (Z.pos 8388608) with (2 ^ 23). ring.
  - lia.
  - lia.
  - lia.
  - rewrite Hdp. f_equal; [|lia]. apply Pos2Z.inj. rewrite Hm', Hmp, Hdp. done.
Qed.

(** [relu] of one entry. *)
Lemma relu_normal (c : Z) :
  (if F32.leb (normal c 0) F32.zero then F32.zero else normal c 0)
  = normal (Z.max 0 c) 0.
Proof. destruct c; reflexivity. Qed.

Lemma to_Q_normal (c g : Z) :
  Z.abs c < 2 ^ 24 ->
  exists q, F32.to_Q (normal c g) = Some q /\ (q == inject_Z c * 2 ^ g)%Q.
Proof.
  intros Hc. destruct (Z.eq_dec c 0) as [->|Hc0].
  { exists 0%Q. split; [done|]. ring. }
  destruct (normal_mantissa c g Hc0 Hc) as (m & -> & Hm & Hd).
  eexists. split; [reflexivity|].
  rewrite Hm, scaled_shift by done. apply Qmult_comp; [reflexivity|].
  replace (Zdigits2 c + g - 24 + (24 - Zdigits2 c)) with g by lia. reflexivity.
Qed.

Lemma of_Z_normal (c : Z) : Z.abs c < 2 ^ 24 -> F32.of_Z c = normal c 0.
Proof. intros Hc. by apply nearest_normal. Qed.

(** The linear layer and the activation on a row of small integers. *)
Lemma forward_of_Z (x1 x2 x3 : Z) :
  Z.abs x1 <= 4194304 -> Z.abs x2 <= 4194304 -> Z.abs x3 <= 4194304 ->
  let s := x1 + x2 + x3 in
  ToyModel.forward [F32.of_Z x1; F32.of_Z x2; F32.of_Z x3] =
  [F32.of_Z (Z.max 0 (s - 10)); F32.of_Z (Z.max 0 (s + 1));
   F32.of_Z (Z.max 0 (s + 1)); F32.of_Z (Z.max 0 (s + 1))].
Proof.
  intros H1 H2 H3 s.
  assert (P : 2 ^ 24 = 16777216) by reflexivity.
  assert (Hdot : ToyModel.dot [F32.one; F32.one; F32.one]
                   [F32.of_Z x1; F32.of_Z x2; F32.of_Z x3] = normal s 0).
  { unfold ToyModel.dot. cbn [zip zip_with foldl fst snd].
    rewrite !of_Z_normal by lia. rewrite !mul_one_normal by lia.
    change F32.zero with (normal 0 0).
    rewrite !add_normal by lia. done. }
  unfold ToyModel.forward, ToyModel.linear1, ToyModel.weight, ToyModel.bias.
  cbn [replicate map zip_with]. rewrite Hdot.
  rewrite !of_Z_normal by lia. rewrite !add_normal by lia.
  unfold ToyModel.relu. cbn [map]. rewrite !relu_normal.
  replace (s + -10) with (s - 10) by lia. done.
Qed.

(** ** Numbers bounded from above *)

Lemma below_mono (y : F32.f32) (n n' : Z) : n <= n' -> below y n -> below y n'.
Proof.
  intros Hn. destruct y as [| | |[] m e]; cbn; try done.
  intros H. eapply Qle_trans; [exact H|]. by rewrite <- Zle_Qle.
Qed.

Lemma inject_pos (m : positive) : (0 < inject_Z (Z.pos m))%Q.
Proof. reflexivity. Qed.

Lemma below_pos (m : positive) (e n : Z) :
  (inject_Z (Z.pos m) * 2 ^ e <= inject_Z n)%Q -> 0 < n.
Proof.
  intros H. rewrite Zlt_Qlt. eapply Qlt_le_trans; [|exact H].
  apply Qmult_lt_0_compat; [apply inject_pos|apply pow2_pos].
Qed.

Lemma below_rounded (M : positive) (e n : Z) (y : F32.f32) :
  match y with
  | S754_zero s' => s' = false
  | S754_finite s' m' e' =>
      s' = false /\ (inject_Z (Z.pos m') * 2 ^ e' <= inject_Z n)%Q
  | _ => False
  end -> below y n.
Proof. destruct y as [| | |[] m e']; cbn; try done; by intros [? ?]. Qed.

Lemma of_Z_below (x : Z) : 0 <= x < 2 ^ 24 -> below (F32.of_Z x) x.
Proof.
  intros Hx. rewrite of_Z_normal by lia.
  destruct (Z.eq_dec x 0) as [->|Hx0]; [done|].
  destruct (to_Q_normal x 0 ltac:(lia)) as (q & Hq & Hv).
  destruct (normal_mantissa x 0 Hx0 ltac:(lia)) as (m & E & Hm & _).
  rewrite E in Hq |- *. replace (x <? 0) with false in * by lia.
  cbn in Hq |- *. injection Hq as <-. rewrite Hv. cbn. rewrite Qmult_1_r.
  apply Qle_refl.
Qed.

Lemma mul_below (a x : F32.f32) (p n : Z) :
  below a p -> below x n -> 0 <= p -> 0 <= n -> p * n < 2 ^ 24 ->
  below (F32.mul a x) (p * n).
Proof.
  intros Ha Hx Hp Hn Hpn.
  destruct a as [sa| | |[] ma ea], x as [sx| | |[] mx ex]; cbn in Ha, Hx; try done.
  unfold F32.mul. cbn [SFmul xorb].
  pose proof (below_pos _ _ _ Ha) as Hp0. pose proof (below_pos _ _ _ Hx) as Hn0.
  apply (below_rounded (ma * mx) (ea + ex)).
  apply round_aux_below; [nia|].
  rewrite Pos2Z.inj_mul, !inject_Z_mult, pow2_add.
  assert (E : (inject_Z (Z.pos ma) * inject_Z (Z.pos mx) * (2 ^ ea * 2 ^ ex) ==
               (inject_Z (Z.pos ma) * 2 ^ ea) * (inject_Z (Z.pos mx) * 2 ^ ex))%Q)
    by ring.
  rewrite E.
  apply Qmult_le_compat_nonneg; (split; [|done]);
    (apply Qmult_le_0_compat; [apply Qlt_le_weak, inject_pos|apply Qlt_le_weak, pow2_pos]).
Qed.

Lemma add_below (y1 y2 : F32.f32) (n1 n2 : Z) :
  below y1 n1 -> below y2 n2 -> 0 <= n1 -> 0 <= n2 -> n1 + n2 < 2 ^ 24 ->
  below (F32.add y1 y2) (n1 + n2).
Proof.
  intros H1 H2 Hn1 Hn2 Hn.
  destruct y1 as [s1| | |[] m1 e1], y2 as [s2| | |[] m2 e2]; cbn in H1, H2; try done.
  - by destruct s1, s2.
  - cbn. eapply Qle_trans; [exact H2|]. rewrite <- Zle_Qle. lia.
  - cbn. eapply Qle_trans; [exact H1|]. rewrite <- Zle_Qle. lia.
  - pose proof (below_pos _ _ _ H1) as Hp1. pose proof (below_pos _ _ _ H2) as Hp2.
    unfold F32.add. cbn [SFadd cond_Zopp].
    set (ez := Z.min e1 e2).
    destruct (shl_align_spec m1 e1 ez) as (m1' & -> & Hm1).
    destruct (shl_align_spec m2 e2 ez) as (m2' & -> & Hm2).
    cbn [fst].
    replace (Z.min e1 ez) with ez in Hm1 by (unfold ez; lia).
    replace (Z.min e2 ez) with ez in Hm2 by (unfold ez; lia).
    change (Z.pos m1' + Z.pos m2') with (Z.pos (m1' + m2')).
    cbn [binary_normalize].
    apply (below_rounded (m1' + m2') ez).
    apply round_below; [lia|].
    rewrite Pos2Z.inj_add, inject_Z_plus, Qmult_plus_distr_l, inject_Z_plus.
    apply Qplus_le_compat.
    + rewrite Hm1, scaled_shift by (unfold ez; lia).
      replace (ez + (e1 - ez)) with e1 by lia. exact H1.
    + rewrite Hm2, scaled_shift by (unfold ez; lia).
      replace (ez + (e2 - ez)) with e2 by lia. exact H2.
Qed.

(** Adding the bias -10 to a number that is at most 10 gives a number
    that is at most 0. *)
Lemma add_bias_below (y : F32.f32) :
  below y 10 -> F32.leb (F32.add y (F32.of_Z (-10))) F32.zero = true.
Proof.
  intros Hy. change (F32.of_Z (-10)) with (S754_finite true 10485760 (-20)).
  destruct y as [s| | |[] m e]; cbn in Hy; try done.
  unfold F32.add. cbn [SFadd cond_Zopp].
  set (ez := Z.min e (-20)).
  destruct (shl_align_spec m e ez) as (m' & -> & Hm).
  destruct (shl_align_spec 10485760 (-20) ez) as (b' & -> & Hb).
  cbn [fst].
  replace (Z.min e ez) with ez in Hm by (unfold ez; lia).
  replace (Z.min (-20) ez) with ez in Hb by (unfold ez; lia).
  assert (Hle : Z.pos m' <= Z.pos b').
  { apply (scaled_le _ _ ez).
    rewrite Hm, Hb, !scaled_shift by (unfold ez; lia).
    replace (ez + (e - ez)) with e by lia.
    replace (ez + (-20 - ez)) with (-20) by lia.
    eapply Qle_trans; [exact Hy|]. apply Qle_lteq. right. reflexivity. }
  destruct (Z.pos m' + - Z.pos b') as [|q|q] eqn:E; [done|lia|].
  cbn [binary_normalize].
  pose proof (round_sign true q ez) as Hs.
  by destruct (binary_round _ _ _ _ _) as [[]|[]| |[] ? ?].
Qed.

(** A float32 between 0 and 1. *)
Lemma unit_below (a : F32.f32) :
  F32.valid a -> F32.leb F32.zero a = true -> F32.leb a F32.one = true ->
  below a 1.
Proof.
  intros Hv H0 H1. destruct a as [s|[]| |[] m e]; try done.
  unfold F32.valid in Hv. cbn [valid_binary] in Hv.
  apply andb_prop in Hv as [Hc _]. unfold canonical_mantissa in Hc.
  apply Z.eqb_eq in Hc. rewrite fexp32 in Hc.
  pose proof (digits2_pos_bounds m) as [_ Hm].
  assert (Hd : Z.pos (digits2_pos m) <= 24) by lia.
  assert (Hm24 : Z.pos m < 2 ^ 24).
  { eapply Z.lt_le_trans; [exact Hm|]. apply Z.pow_le_mono_r; lia. }
  change F32.one with (S754_finite false 8388608 (-23)) in H1.
  unfold F32.leb, SFleb in H1. cbn [SFcompare] in H1.
  cbn [below]. change (inject_Z 1) with 1%Q.
  destruct (Z.compare_spec e (-23)) as [->|Hlt|Hgt]; [| |done].
  - assert (Hle : Z.pos m <= 8388608).
    { change (Pos.compare_cont Eq m 8388608) with (m ?= 8388608)%positive in H1.
      destruct (Pos.compare_spec m 8388608) as [->|Hlt|Hgt]; [done|lia|done]. }
    assert (E1 : (1 == inject_Z 8388608 * 2 ^ (-23))%Q) by reflexivity.
    rewrite E1. by apply scaled_le.
  - eapply Qle_trans.
    { apply Qmult_le_compat_r; [|apply Qlt_le_weak, pow2_pos].
      rewrite <- Zle_Qle. apply Z.lt_le_incl, Hm24. }
    rewrite pow2_Z, <- pow2_add by lia.
    change 1%Q with (2 ^ 0)%Q. apply pow2_mono. lia.
Qed.

End Float32.

(** ** The toy model on rows of integers *)

Lemma to_Q_of_Z (c : Z) :
  (Z.abs c < 16777216)%Z ->
  exists q, F32.to_Q (F32.of_Z c) = Some q /\ (q == inject_Z c)%Q.
Proof.
  intros Hc. rewrite of_Z_normal by exact Hc.
  destruct (to_Q_normal c 0 Hc) as (q & Hq & Hv).
  exists q. split; [exact Hq|]. rewrite Hv. cbn. ring.
Qed.

Lemma exact_forward_row (x1 x2 x3 : Q) :
  Forall2 Qeq (ToyModel.Exact.forward [x1; x2; x3])
    [Qmax 0 (x1 + x2 + x3 - 10); Qmax 0 (x1 + x2 + x3 + 1);
     Qmax 0 (x1 + x2 + x3 + 1); Qmax 0 (x1 + x2 + x3 + 1)]%Q.
Proof.
  unfold ToyModel.Exact.forward, ToyModel.Exact.relu, ToyModel.Exact.linear1,
    ToyModel.Exact.dot.
  cbn [ToyModel.Exact.weight ToyModel.Exact.bias replicate map zip_with foldr].
  repeat constructor; apply Q.max_compat; try reflexivity; ring.
Qed.

Lemma inject_Z_max (c : Z) : (inject_Z (Z.max 0 c) == Qmax 0 (inject_Z c))%Q.
Proof.
  destruct (Z.le_gt_cases c 0) as [H|H].
  - rewrite Z.max_l by exact H. symmetry. apply Q.max_l.
    change 0%Q with (inject_Z 0). by rewrite <- Zle_Qle.
  - rewrite Z.max_r by lia. symmetry. apply Q.max_r.
    change 0%Q with (inject_Z 0). rewrite <- Zle_Qle. lia.
Qed.

(** Output 0 on a row that is bounded, entry by entry, by numbers that
    sum to at most 10. *)
Lemma forward_bounded_row (y1 y2 y3 : F32.f32) (n1 n2 n3 : Z) :
  below y1 n1 -> below y2 n2 -> below y3 n3 ->
  (0 <= n1)%Z -> (0 <= n2)%Z -> (0 <= n3)%Z -> (n1 + n2 + n3 <= 10)%Z ->
  ToyModel.forward [y1; y2; y3] !! 0 = Some F32.zero.
Proof.
  intros H1 H2 H3 Hn1 Hn2 Hn3 Hs.
  assert (P : (2 ^ 24 = 16777216)%Z) by reflexivity.
  assert (Hone : below F32.one 1) by (apply of_Z_below; lia).
  assert (B1 : below (F32.mul y1 F32.one) n1).
  { rewrite <- (Z.mul_1_r n1). apply mul_below; (done || lia). }
  assert (B2 : below (F32.mul y2 F32.one) n2).
  { rewrite <- (Z.mul_1_r n2). apply mul_below; (done || lia). }
  assert (B3 : below (F32.mul y3 F32.one) n3).
  { rewrite <- (Z.mul_1_r n3). apply mul_below; (done || lia). }
  assert (A1 : below (F32.add F32.zero (F32.mul y1 F32.one)) (0 + n1)).
  { apply add_below; (done || lia). }
  assert (A2 : below (F32.add (F32.add F32.zero (F32.mul y1 F32.one))
                        (F32.mul y2 F32.one)) (0 + n1 + n2)).
  { apply add_below; (done || lia). }
  assert (A3 : below (F32.add (F32.add (F32.add F32.zero (F32.mul y1 F32.one))
                                 (F32.mul y2 F32.one))
                        (F32.mul y3 F32.one)) (0 + n1 + n2 + n3)).
  { apply add_below; (done || lia). }
  apply (below_mono _ _ 10) in A3; [|lia].
  unfold ToyModel.forward, ToyModel.linear1, ToyModel.weight, ToyModel.bias,
    ToyModel.relu, ToyModel.dot.
  cbn [replicate map zip_with zip foldl fst snd lookup list_lookup].
  by rewrite (add_bias_below _ A3).
Qed.

(** Claim C10 as stated fails in float32. On the row (16777216, 1, 0)
    output 0 is 16777206, not max(0, 16777216 + 1 + 0 - 10) = 16777207:
    the sum 16777217 of the first two entries is no float32 and rounds to
    16777216. And output 0 does not stay 0 on every scaling: the row
    (-13, 32, -9) sums to 10, and scaled by the float32 just below 1 it
    gives 2^-20. *)
Lemma forward_rounds :
  (exists y q,
     ToyModel.forward [F32.of_Z 16777216; F32.of_Z 1; F32.of_Z 0] !! 0 = Some y /\
     F32.to_Q y = Some q /\ (q == 16777206)%Q /\
     ~ (q == Qmax 0 (16777216 + 1 + 0 - 10))%Q) /\
  (let a := F32.nearest 16777215 (-24) in
   F32.valid a /\ F32.leb F32.zero a = true /\ F32.leb a F32.one = true /\
   (-13 + 32 + -9 <= 10)%Z /\
   exists y q,
     ToyModel.forward
       (map (F32.mul a) [F32.of_Z (-13); F32.of_Z 32; F32.of_Z (-9)]) !! 0
       = Some y /\
     F32.to_Q y = Some q /\ (q == 1 # 1048576)%Q /\ y <> F32.zero).
Proof.
  split.
  - eexists _, _. split; [vm_compute; reflexivity|]. split; [reflexivity|].
    split; [reflexivity|]. intros H. vm_compute in H. discriminate.
  - cbn zeta. split; [reflexivity|]. split; [reflexivity|].
    split; [reflexivity|]. split; [lia|].
    eexists _, _. split; [vm_compute; reflexivity|]. split; [reflexivity|].
    split; [reflexivity|discriminate].
Qed.

(** Claim C10, amended. [ToyModel.forward] is relu(x W^T + b) in float32,
    with W all ones and b = (-10, 1, 1, 1). On a row of three integers of
    magnitude at most 2^22 = 4194304 no sum is rounded: the four outputs
    are the float32 of max(0, s - 10) and three times of max(0, s + 1),
    with s the sum of the row, which are the values of relu(W x + b) over
    the reals. So output 0, the target of Part 1, is max(0, s - 10), and
    +0 when s <= 10. When moreover no entry is negative, output 0 stays +0
    on the row scaled, entry by entry, by any float32 between 0 and 1. *)
Theorem ToyModel_forward_target0 (x1 x2 x3 : Z) :
  (Z.abs x1 <= 4194304)%Z -> (Z.abs x2 <= 4194304)%Z ->
  (Z.abs x3 <= 4194304)%Z ->
  let s := (x1 + x2 + x3)%Z in
  let x := [F32.of_Z x1; F32.of_Z x2; F32.of_Z x3] in
  Forall2 (fun xi zi => exists q, F32.to_Q xi = Some q /\ (q == inject_Z zi)%Q)
    x [x1; x2; x3] /\
  ToyModel.forward x =
    map F32.of_Z [Z.max 0 (s - 10); Z.max 0 (s + 1);
                  Z.max 0 (s + 1); Z.max 0 (s + 1)]%Z /\
  Forall2 (fun y r => exists q, F32.to_Q y = Some q /\ (q == r)%Q)
    (ToyModel.forward x)
    (ToyModel.Exact.forward [inject_Z x1; inject_Z x2; inject_Z x3]) /\
  (exists y q,
     ToyModel.forward x !! 0 = Some y /\ F32.to_Q y = Some q /\
     (q == Qmax 0 (inject_Z x1 + inject_Z x2 + inject_Z x3 - 10))%Q /\
     ((s <= 10)%Z -> y = F32.zero)) /\
  ((0 <= x1)%Z -> (0 <= x2)%Z -> (0 <= x3)%Z -> (s <= 10)%Z ->
   forall a : F32.f32,
     F32.valid a -> F32.leb F32.zero a = true -> F32.leb a F32.one = true ->
     ToyModel.forward (map (F32.mul a) x) !! 0 = Some F32.zero).
Proof.
  intros H1 H2 H3 s x.
  pose proof (forward_of_Z x1 x2 x3 H1 H2 H3) as Hf. cbn zeta in Hf. fold s x in Hf.
  assert (Hq : forall c, (Z.abs c < 16777216)%Z ->
             exists q, F32.to_Q (F32.of_Z c) = Some q /\ (q == inject_Z c)%Q)
    by apply to_Q_of_Z.
  assert (E10 : (inject_Z (Z.max 0 (s - 10)) ==
                 Qmax 0 (inject_Z x1 + inject_Z x2 + inject_Z x3 - 10))%Q).
  { rewrite inject_Z_max. apply Q.max_compat; [reflexivity|].
    unfold s, Z.sub. rewrite !inject_Z_plus. reflexivity. }
  assert (E1 : (inject_Z (Z.max 0 (s + 1)) ==
                Qmax 0 (inject_Z x1 + inject_Z x2 + inject_Z x3 + 1))%Q).
  { rewrite inject_Z_max. apply Q.max_compat; [reflexivity|].
    unfold s. rewrite !inject_Z_plus. reflexivity. }
  split; [|split; [|split; [|split]]].
  - unfold x. repeat constructor; apply Hq; lia.
  - exact Hf.
  - rewrite Hf. cbn [map].
    pose proof (exact_forward_row (inject_Z x1) (inject_Z x2) (inject_Z x3)) as Hr.
    destruct (ToyModel.Exact.forward _) as [|r0 [|r1 [|r2 [|r3 [|]]]]];
      try (repeat (inversion Hr as [|? ? ? ? ? Hr']; subst; clear Hr; rename Hr' into Hr); fail).
    apply Forall2_cons_1 in Hr as [Hr0 Hr].
    apply Forall2_cons_1 in Hr as [Hr1 Hr].
    apply Forall2_cons_1 in Hr as [Hr2 Hr].
    apply Forall2_cons_1 in Hr as [Hr3 _].
    repeat constructor.
    + destruct (Hq (Z.max 0 (s - 10)) ltac:(lia)) as (q & -> & Hv).
      exists q. split; [done|]. by rewrite Hv, E10, Hr0.
    + destruct (Hq (Z.max 0 (s + 1)) ltac:(lia)) as (q & -> & Hv).
      exists q. split; [done|]. by rewrite Hv, E1, Hr1.
    + destruct (Hq (Z.max 0 (s + 1)) ltac:(lia)) as (q & -> & Hv).
      exists q. split; [done|]. by rewrite Hv, E1, Hr2.
    + destruct (Hq (Z.max 0 (s + 1)) ltac:(lia)) as (q & -> & Hv).
      exists q. split; [done|]. by rewrite Hv, E1, Hr3.
  - destruct (Hq (Z.max 0 (s - 10)) ltac:(lia)) as (q & Hy & Hv).
    exists (F32.of_Z (Z.max 0 (s - 10))), q. rewrite Hf.
    split; [reflexivity|]. split; [exact Hy|]. split; [by rewrite Hv|].
    intros Hs. by rewrite Z.max_l by lia.
  - intros P1 P2 P3 Hs a Hv H0 Ha.
    pose proof (unit_below a Hv H0 Ha) as Hb.
    assert (P : (2 ^ 24 = 16777216)%Z) by reflexivity.
    assert (Hm : forall c, (0 <= c <= 10)%Z -> below (F32.mul a (F32.of_Z c)) c).
    { intros c Hc. rewrite <- (Z.mul_1_l c) at 2.
      apply mul_below; [exact Hb|apply of_Z_below; lia|lia..]. }
    unfold x. cbn [map].
    apply (forward_bounded_row _ _ _ x1 x2 x3); try (apply Hm); lia.
Qed.

Lemma ToyModel_forward_target0_witness :
  ToyModel.forward [F32.of_Z 0; F32.of_Z 1; F32.of_Z 2] !! 0 = Some F32.zero /\
  ToyModel.forward
    (map (F32.mul (F32.nearest 1 (-1))) [F32.of_Z 0; F32.of_Z 1; F32.of_Z 2]) !! 0
    = Some F32.zero.
Proof.
  split; [reflexivity|].
  apply (proj2 (proj2 (proj2 (proj2 (ToyModel_forward_target0 0 1 2
           ltac:(lia) ltac:(lia) ltac:(lia)))))); (reflexivity || lia).
Defined.

(** X1. On rows of integers of magnitude at most 2^22, where no float32
    sum is rounded, [ToyModel.forward] is monotone: raising entries of
    the row lowers none of the four outputs. No output is negative; the
    last three are one float32, never below the first; output 0 is
    positive exactly when the row sums to more than 10, the others exactly
    when it sums to more than -1. *)
Theorem ToyModel_forward_monotone (x1 x2 x3 y1 y2 y3 : Z) :
  (Z.abs x1 <= 4194304)%Z -> (Z.abs x2 <= 4194304)%Z ->
  (Z.abs x3 <= 4194304)%Z ->
  (Z.abs y1 <= 4194304)%Z -> (Z.abs y2 <= 4194304)%Z ->
  (Z.abs y3 <= 4194304)%Z ->
  (x1 <= y1)%Z -> (x2 <= y2)%Z -> (x3 <= y3)%Z ->
  let fx := ToyModel.forward [F32.of_Z x1; F32.of_Z x2; F32.of_Z x3] in
  let fy := ToyModel.forward [F32.of_Z y1; F32.of_Z y2; F32.of_Z y3] in
  Forall2 (fun u v => exists p q,
             F32.to_Q u = Some p /\ F32.to_Q v = Some q /\ (p <= q)%Q) fx fy /\
  exists out0 out1 p0 p1,
    fx = [out0; out1; out1; out1] /\
    F32.to_Q out0 = Some p0 /\ F32.to_Q out1 = Some p1 /\
    (0 <= p0)%Q /\ (p0 <= p1)%Q /\
    ((0 < p0)%Q <-> (10 < x1 + x2 + x3)%Z) /\
    ((0 < p1)%Q <-> (-1 < x1 + x2 + x3)%Z).
Proof.
  intros X1 X2 X3 Y1 Y2 Y3 L1 L2 L3 fx fy.
  pose proof (forward_of_Z x1 x2 x3 X1 X2 X3) as Hx.
  pose proof (forward_of_Z y1 y2 y3 Y1 Y2 Y3) as Hy.
  cbn zeta in Hx, Hy. fold fx in Hx. fold fy in Hy.
  set (s := (x1 + x2 + x3)%Z) in *. set (s' := (y1 + y2 + y3)%Z) in *.
  assert (Hle : forall c c', (Z.abs c < 16777216)%Z -> (Z.abs c' < 16777216)%Z ->
            (c <= c')%Z ->
            exists p q, F32.to_Q (F32.of_Z c) = Some p /\
                        F32.to_Q (F32.of_Z c') = Some q /\ (p <= q)%Q).
  { intros c c' Hc Hc' Hcc.
    destruct (to_Q_of_Z c Hc) as (p & Hp & Ep).
    destruct (to_Q_of_Z c' Hc') as (q & Hq & Eq).
    exists p, q. split; [done|]. split; [done|].
    rewrite Ep, Eq. by rewrite <- Zle_Qle. }
  split.
  - rewrite Hx, Hy. repeat constructor; apply Hle; lia.
  - destruct (to_Q_of_Z (Z.max 0 (s - 10)) ltac:(lia)) as (p0 & Hp0 & E0).
    destruct (to_Q_of_Z (Z.max 0 (s + 1)) ltac:(lia)) as (p1 & Hp1 & E1).
    exists (F32.of_Z (Z.max 0 (s - 10))), (F32.of_Z (Z.max 0 (s + 1))), p0, p1.
    split; [exact Hx|]. split; [exact Hp0|]. split; [exact Hp1|].
    rewrite E0, E1. change 0%Q with (inject_Z 0).
    rewrite <- !Zle_Qle, <- !Zlt_Qlt. lia.
Qed.

Lemma ToyModel_forward_monotone_witness :
  Forall2 (fun u v => exists p q,
             F32.to_Q u = Some p /\ F32.to_Q v = Some q /\ (p <= q)%Q)
    (ToyModel.forward [F32.of_Z 3; F32.of_Z 4; F32.of_Z 5])
    (ToyModel.forward [F32.of_Z 9; F32.of_Z 10; F32.of_Z 11]).
Proof.
  apply (ToyModel_forward_monotone 3 4 5 9 10 11); lia.
Defined.

(** * The model of each flow and the ranks that do not print *)

(** ** Faults only stop a run *)

(** A run under any library either ends in an exception or is the run
    without faults. *)
Lemma exec_faulty {A} raises (p : proc A) :
  forall replies st,
    (exists e, (exec raises replies p st).2 = Failed e) \/
    exec raises replies p st = exec no_faults replies p st.
Proof.
  induction p as [a|e|c k IH|t gl k IH|t dst k IH]; intros replies st; cbn.
  - by right.
  - by right.
  - destruct (raises c) as [e|]; [left; by exists e|]. apply IH.
  - destruct (raises _) as [e|]; [left; by exists e|].
    destruct replies as [|r rest]; [by right|]. apply IH.
  - destruct (raises _) as [e|]; [left; by exists e|].
    destruct replies as [|r rest]; [by right|]. apply IH.
Qed.

Lemma exec_not_failed {A} raises replies (p : proc A) st :
  (forall e, (exec raises replies p st).2 <> Failed e) ->
  exec raises replies p st = exec no_faults replies p st.
Proof.
  intros H. destruct (exec_faulty raises p replies st) as [[e He]|E]; [|done].
  by destruct (H e).
Qed.

(** ** The ranks other than 0 *)

(** What [run] of Part 1 is on a rank other than 0. *)
Lemma run1_other ext rank size inp_batch :
  rank <> 0 ->
  Part1.run ext rank size inp_batch =
  Call (Construct "ToyModel")
    (Call (Cuda rank) (Call (Cuda rank) (Call (WrapDDP [rank])
      (Call (Construct "IntegratedGradients")
        (Call (Attribute inp_batch 0)
          (Gather (attr_of ext inp_batch) None (fun _ => Ret tt))))))).
Proof.
  intros Hr. unfold Part1.run, Part1.USE_CUDA, ig_attribute, call_. cbn.
  destruct (decide (rank = 0)); done.
Qed.

Lemma run1_exec ext replies rank size inp_batch st :
  rank <> 0 ->
  exec no_faults replies (Part1.run ext rank size inp_batch) st =
  (extend st [Construct "ToyModel"; Cuda rank; Cuda rank; WrapDDP [rank];
              Construct "IntegratedGradients"; Attribute inp_batch 0;
              DistGather (attr_of ext inp_batch) None],
   match replies with
   | [] => AtGather (attr_of ext inp_batch) None (fun _ => Ret tt)
   | _ :: _ => Finished tt
   end).
Proof.
  intros Hr. rewrite run1_other by done.
  destruct replies; cbn; f_equal; unfold extend, log; cbn; f_equal;
    by rewrite <- !app_assoc.
Qed.

Lemma exec_bind1_pure {A B} raises replies (p : proc A) (f : A -> proc B) :
  all_calls (fun c => ~ is_collective c) p ->
  forall st st' a,
    exec raises [] p st = (st', Finished a) ->
    exec raises replies (proc_bind f p) st = exec raises replies (f a) st'.
Proof.
  induction 1 as [a0|e|c k Hc Hk IH|t gl k Hc|t dst k Hc]; intros st st' a; cbn.
  - by intros [= <- <-].
  - discriminate.
  - destruct (raises c); [discriminate|]. apply IH.
  - destruct Hc. exact I.
  - destruct Hc. exact I.
Qed.

(** The calls of Part 2's [run] before the attribution loop. *)
Lemma run2_exec ext replies rank size st :
  rank < size ->
  exec no_faults replies (Part2.run ext rank size) st =
  exec no_faults replies
    (Reduce (sent ext size rank) 0 (fun total_attr =>
       if decide (rank = 0)
       then call_ (Print [VStr "Average Attributions:";
                          VTensor1 (vdiv total_attr size)])
       else Ret tt))
    (extend st
       ([ReadCsv "titanic3.csv"; Preprocess; Construct "TitanicSimpleNNModel";
         TorchLoad "models/titanic_model.pt"; LoadStateDict; Cuda rank;
         Construct "IntegratedGradients"] ++
        loop_calls ext rank
          (batched (sampler_iter (the_sampler (length (dataset ext)) size rank))
             50))).
Proof.
  intros Hr.
  assert (Hsize : size <> 0) by lia.
  set (N := length (dataset ext)).
  assert (HN : N <> 0).
  { unfold N, dataset. pose proof (test_features_nonempty ext Part2.dataset_path).
    by destruct (test_features ext Part2.dataset_path). }
  set (idxs := sampler_iter (the_sampler N size rank)).
  destruct (sampler_iter_spec N size rank Hsize Hr) as [Hlen Hrange].
  fold idxs in Hlen, Hrange.
  assert (Hloader : Forall (in_range ext) (batched idxs 50)).
  { eapply Forall_impl; [apply (batched_pieces (fun i => i < N)); [done|exact Hrange]|].
    by intros b [_ Hb]. }
  assert (Hne : batched idxs 50 <> []).
  { intros E. apply (f_equal length) in E. rewrite length_batched, Hlen in E.
    assert (H0 : 0 < N) by lia.
    pose proof (ceil_div_pos N size H0 Hsize) as H1.
    assert (H50 : 50 <> 0) by done.
    pose proof (ceil_div_pos (ceil_div N size) 50 H1 H50) as H2.
    rewrite E in H2. cbn in H2. lia. }
  assert (Ht : exists total, loop_total ext (batched idxs 50) None = Some total).
  { destruct (batched idxs 50) as [|b bs]; [done|]. cbn [loop_total].
    rewrite loop_total_some. by eexists. }
  destruct Ht as [total Ht].
  assert (Esent : sent ext size rank = vdiv total (ceil_div N size)).
  { unfold sent. fold N idxs. by rewrite Ht. }
  rewrite Esent. fold N idxs.
  set (calls := loop_calls ext rank (batched idxs 50)).
  match goal with |- _ = ?R => set (rhs := R) end.
  unfold Part2.run, Part2.load_dataset, Part2.USE_CUDA, call_.
  cbn. fold (dataset ext). fold N. rewrite (sampler_ok N size rank Hsize Hr).
  cbn. fold (net ext). fold idxs.
  unfold mbind, proc_mbind.
  rewrite (exec_bind1_pure no_faults replies _ _
             (attr_loop_no_collective ext (net ext) rank (dataset ext) _ None)
             _ _ _ (attr_loop_exec ext rank _ None _ Hloader)).
  rewrite Ht. fold calls. subst rhs. cbn [Part2.divide proc_bind mret proc_mret].
  assert (Est : forall c1 c2 c3 c4 c5 c6 c7,
            extend (log c7 (log c6 (log c5 (log c4 (log c3 (log c2 (log c1 st)))))))
              calls = extend st ([c1; c2; c3; c4; c5; c6; c7] ++ calls)).
  { intros. unfold extend, log. cbn. f_equal. by rewrite <- !app_assoc. }
  rewrite Est. reflexivity.
Qed.

Lemma trace_extend_last st calls c :
  last (trace (extend st (calls ++ [c]))) = Some c.
Proof. unfold extend. cbn. by rewrite app_assoc, last_snoc. Qed.

Lemma printed_other_calls (calls : list call) :
  Forall (fun c => forall args, c <> Print args) calls -> printed calls = [].
Proof.
  induction 1 as [|c l Hc _ IH]; [done|]. unfold printed in *. cbn. rewrite IH.
  destruct c; try done. by destruct (Hc args).
Qed.

(** An attribution of Part 2 comes after the five calls that load the
    dataset and the model. *)
Lemma run2_five ext rank size :
  exists rest,
    Part2.run ext rank size =
    Call (ReadCsv "titanic3.csv")
      (Call Preprocess
         (Call (Construct "TitanicSimpleNNModel")
            (Call (TorchLoad "models/titanic_model.pt")
               (Call LoadStateDict rest)))).
Proof. eexists. unfold Part2.run, Part2.load_dataset, call_. cbn. reflexivity. Qed.

Lemma run2_loads_state_dict ext raises replies rank size st :
  let new := new_calls st (exec raises replies (Part2.run ext rank size) st).1 in
  forall j inp t, new !! j = Some (Attribute inp t) ->
    exists i, S i < j /\
      new !! i = Some (TorchLoad "models/titanic_model.pt") /\
      new !! S i = Some LoadStateDict.
Proof.
  intros new j inp t Hj. pose proof Hj as H. unfold new in H.
  destruct (run2_five ext rank size) as [rest E]. rewrite E in H.
  apply attribute_after_call in H as (j1 & -> & H); [|done].
  apply attribute_after_call in H as (j2 & -> & H); [|done].
  apply attribute_after_call in H as (j3 & -> & H); [|done].
  apply attribute_after_call in H as (j4 & -> & H); [|done].
  apply attribute_after_call in H as (j5 & -> & H); [|done].
  exists 3. split; [lia|].
  revert Hj. unfold new. rewrite E. cbn.
  destruct (raises (ReadCsv "titanic3.csv")).
  { cbn. rewrite (new_calls_app st _ [ReadCsv "titanic3.csv"]) by done. done. }
  destruct (raises Preprocess).
  { cbn. rewrite (new_calls_app st _ [ReadCsv "titanic3.csv"; Preprocess]).
    - done.
    - cbn. by rewrite <- app_assoc. }
  destruct (raises (Construct "TitanicSimpleNNModel")).
  { cbn. rewrite (new_calls_app st _
      [ReadCsv "titanic3.csv"; Preprocess; Construct "TitanicSimpleNNModel"]).
    - done.
    - cbn. by rewrite <- !app_assoc. }
  destruct (raises (TorchLoad "models/titanic_model.pt")).
  { cbn. rewrite (new_calls_app st _
      [ReadCsv "titanic3.csv"; Preprocess; Construct "TitanicSimpleNNModel";
       TorchLoad "models/titanic_model.pt"]).
    - done.
    - cbn. by rewrite <- !app_assoc. }
  destruct (raises LoadStateDict).
  { cbn. rewrite (new_calls_app st _
      [ReadCsv "titanic3.csv"; Preprocess; Construct "TitanicSimpleNNModel";
       TorchLoad "models/titanic_model.pt"; LoadStateDict]).
    - done.
    - cbn. by rewrite <- !app_assoc. }
  intros _.
  match goal with |- new_calls st (exec ?r ?rp ?k ?s).1 !! 3 = _ /\ _ =>
    pose proof (exec_new_calls_eq r rp k s) as Ht end.
  cbn in Ht. rewrite <- !app_assoc in Ht. cbn in Ht.
  erewrite new_calls_app; [|exact Ht]. done.
Qed.

Section Provenance.
Context (ext : externals) (rank size d : nat).
Context (Hrank : rank < size).
Context (Hrect : Forall (fun x => length x = d) (dataset ext)).

Let loaded := state_dict_forward ext "models/titanic_model.pt".
Let L := ceil_div (length (dataset ext)) size.

Lemma dataset_nonempty : dataset ext <> [].
Proof. apply test_features_nonempty. Qed.

(** What a rank hands to [reduce] is the sum of the attributions, for the
    loaded model, of its examples, divided by their number. *)
Lemma sent_loaded :
  exists total,
    sent ext size rank = vdiv total L /\ length total = d /\
    veq total (vsum (map (ig ext loaded 1) (examples ext size rank))).
Proof.
  destruct (rank_total_spec ext size d ltac:(lia) dataset_nonempty Hrect rank Hrank)
    as (total & Ht & Hl & Hv).
  exists total. split; [|split; [exact Hl|exact Hv]].
  unfold sent. by rewrite Ht.
Qed.

End Provenance.

(** Claim C8, amended. In Part 2 every call of [ig.attribute], in any run
    of [run], comes after [torch.load('models/titanic_model.pt')] and the
    [load_state_dict] that follows it, and the model attributed is the one
    the file holds: a rank that reaches [reduce] (as every rank below
    [size] does when nothing raises) hands it the sum of the attributions
    of its examples for the forward function of the loaded state dict,
    divided by [len(sampler)]. In Part 1 [run] reads no file: what it
    gathers is the attribution of its input for [ToyModel], whose weight
    (all ones, 4x3) and bias (-10, 1, 1, 1) are written in the notebook. *)
Theorem model_provenance ext raises replies rank size d inp_batch st :
  rank < size -> Forall (fun x => length x = d) (dataset ext) ->
  let new2 := new_calls st (exec raises replies (Part2.run ext rank size) st).1 in
  let new1 :=
    new_calls st (exec raises replies (Part1.run ext rank size inp_batch) st).1 in
  let loaded := state_dict_forward ext "models/titanic_model.pt" in
  let mine := vsum (map (ig ext loaded 1) (examples ext size rank)) in
  let L := ceil_div (length (dataset ext)) size in
  (forall j inp t, new2 !! j = Some (Attribute inp t) ->
     exists i, S i < j /\
       new2 !! i = Some (TorchLoad "models/titanic_model.pt") /\
       new2 !! S i = Some LoadStateDict) /\
  (exists st2 k total,
     run_local no_faults (Part2.run ext rank size) st
       = (st2, AtReduce (vdiv total L) 0 k) /\
     veq total mine) /\
  (forall st2 t dst k,
     run_local raises (Part2.run ext rank size) st = (st2, AtReduce t dst k) ->
     exists total, t = vdiv total L /\ veq total mine) /\
  Forall (fun c => ~ reads_file c) new1 /\
  Forall (fun c => forall t gl, c = DistGather t gl ->
                   t = map (ig ext ToyModel.Exact.forward 0) inp_batch) new1 /\
  ToyModel.weight = replicate 4 (replicate 3 (F32.of_Z 1)) /\
  ToyModel.bias = map F32.of_Z [-10; 1; 1; 1]%Z.
Proof.
  intros Hrank Hrect new2 new1 loaded mine L.
  destruct (sent_loaded ext rank size d Hrank Hrect) as (total & Es & _ & Hv).
  assert (Hlocal : exists st2 k,
            run_local no_faults (Part2.run ext rank size) st
              = (st2, AtReduce (vdiv total L) 0 k)).
  { unfold run_local. rewrite run2_exec by done. rewrite Es.
    do 2 eexists. reflexivity. }
  split; [apply run2_loads_state_dict|]. split.
  { destruct Hlocal as (st2 & k & H). by exists st2, k, total. }
  split.
  { intros st2 t dst k H. exists total. split; [|exact Hv].
    destruct Hlocal as (st2' & k' & H').
    unfold run_local in H, H'. rewrite exec_not_failed in H.
    - rewrite H' in H. by injection H as _ <- _ _.
    - intros e. by rewrite H. }
  pose proof (exec_new_calls _ raises replies _ st (run1_calls ext rank size inp_batch)) as I1.
  fold new1 in I1. split; [|split; [|done]].
  - eapply Forall_impl; [exact I1|]. intros []; cbn; tauto.
  - eapply Forall_impl; [exact I1|]. intros c Hc t gl ->. cbn in Hc. tauto.
Qed.

Lemma model_provenance_witness :
  exists st2 k total,
    run_local no_faults (Part2.run sample_externals 1 2) (init_state ∅)
      = (st2, AtReduce (vdiv total 2) 0 k) /\
    veq total
      (vsum (map (ig sample_externals
                    (state_dict_forward sample_externals "models/titanic_model.pt") 1)
               [[3; 4]; [1; 2]]%Q)).
Proof.
  apply (proj1 (proj2 (model_provenance sample_externals no_faults [] 1 2 2 []
                         (init_state ∅) ltac:(lia) ltac:(repeat constructor)))).
Defined.

(** Claim C9. A rank other than 0 prints nothing, in any run of [run]
    (whatever the library raises and whatever the collective replies).
    When nothing raises it takes part in the collective: in Part 1 it
    calls [gather] with the attribution of its input and no gather list,
    in Part 2 (for a rank below [size]) it calls [reduce] to rank 0 with
    the mean of the attributions of its examples; the collective is its
    last call, and what is left of [run] after it is to return. A run in
    which a library call raises ends there, in that exception. Rank 0
    prints after the collective: the concatenation of what it gathered in
    Part 1, the reduced tensor divided by [size] in Part 2. *)
Theorem only_rank0_prints ext raises replies rank size d inp_batch st :
  rank <> 0 ->
  let r1 := exec raises replies (Part1.run ext rank size inp_batch) st in
  let r2 := exec raises replies (Part2.run ext rank size) st in
  let L := ceil_div (length (dataset ext)) size in
  (printed (new_calls st r1.1) = [] /\
   (exists st1 k,
      run_local no_faults (Part1.run ext rank size inp_batch) st
        = (st1, AtGather (attr_of ext inp_batch) None k) /\
      forall l, k l = Ret tt) /\
   ((forall e, r1.2 <> Failed e) ->
    last (trace r1.1) = Some (DistGather (attr_of ext inp_batch) None) /\
    match r1.2 with
    | AtGather _ _ k => forall l, k l = Ret tt
    | Finished _ => True
    | _ => False
    end)) /\
  (printed (new_calls st r2.1) = [] /\
   (rank < size ->
    (exists st2 k,
       run_local no_faults (Part2.run ext rank size) st
         = (st2, AtReduce (sent ext size rank) 0 k) /\
       forall t, k t = Ret tt) /\
    ((forall e, r2.2 <> Failed e) ->
     last (trace r2.1) = Some (DistReduce (sent ext size rank) 0) /\
     match r2.2 with
     | AtReduce _ _ k => forall t, k t = Ret tt
     | Finished _ => True
     | _ => False
     end) /\
    (Forall (fun x => length x = d) (dataset ext) ->
     veq (sent ext size rank)
       (vscale (1 / Q_of_nat L)
          (vsum (map (ig ext (state_dict_forward ext "models/titanic_model.pt") 1)
                   (examples ext size rank))))))) /\
  (forall reply,
     printed (new_calls st
                (exec no_faults [reply] (Part1.run ext 0 size inp_batch) st).1)
       = [[VTensor2 (cat (gathered reply))]] /\
     (0 < size ->
      printed (new_calls st (exec no_faults [reply] (Part2.run ext 0 size) st).1)
        = [[VStr "Average Attributions:"; VTensor1 (vdiv (reduced reply) size)]])).
Proof.
  intros Hr r1 r2 L.
  pose proof (exec_new_calls _ raises replies _ st (run1_calls ext rank size inp_batch)) as I1.
  pose proof (exec_new_calls _ raises replies _ st (run2_calls ext rank size)) as I2.
  fold r1 in I1. fold r2 in I2.
  split; [|split].
  - split; [|split].
    + eapply (printed_none rank); [|exact I1]. cbn. done.
    + unfold run_local. rewrite run1_exec by done. by do 2 eexists.
    + intros Hnf. unfold r1 in *. rewrite exec_not_failed by done.
      rewrite run1_exec by done. cbn [fst snd]. split.
      * apply (trace_extend_last st
                 [Construct "ToyModel"; Cuda rank; Cuda rank; WrapDDP [rank];
                  Construct "IntegratedGradients"; Attribute inp_batch 0]).
      * by destruct replies.
  - split.
    + eapply (printed_none rank); [|exact I2]. cbn. done.
    + intros Hrank. split; [|split].
      * unfold run_local. rewrite run2_exec by done. cbn.
        do 2 eexists. split; [reflexivity|]. intros t.
        by destruct (decide (rank = 0)).
      * intros Hnf. unfold r2 in *. rewrite exec_not_failed by done.
        rewrite run2_exec by done.
        destruct replies as [|reply rest]; cbn [exec no_faults fst snd].
        -- split.
           ++ unfold log. cbn [trace]. by rewrite last_snoc.
           ++ intros t. by destruct (decide (rank = 0)).
        -- destruct (decide (rank = 0)); [done|]. cbn [exec fst snd]. split; [|done].
           unfold log. cbn [trace]. by rewrite last_snoc.
      * intros Hrect.
        apply (sent_spec ext size d ltac:(lia) (dataset_nonempty ext) Hrect rank Hrank).
  - intros reply. split.
    + unfold Part1.run, Part1.USE_CUDA, ig_attribute, call_. cbn.
      destruct (decide (0 = 0)); [|done]. cbn.
      erewrite new_calls_app; [|unfold log; cbn; rewrite <- !app_assoc; reflexivity].
      reflexivity.
    + intros Hsize. rewrite run2_exec by done. cbn [exec no_faults reduced].
      destruct (decide (0 = 0)); [|done]. unfold call_. cbn [exec no_faults fst].
      set (calls := loop_calls ext 0 _).
      erewrite new_calls_app.
      2:{ unfold log, apply_call, extend. cbn [trace environ group].
          rewrite <- !app_assoc. reflexivity. }
      rewrite !printed_app. unfold calls. rewrite printed_loop_calls. reflexivity.
Qed.

Lemma only_rank0_prints_witness :
  let r1 := exec no_faults [gather_reply [] 1]
              (Part1.run sample_externals 1 2 [[6; 7; 8]; [9; 10; 11]]%Q)
              (init_state ∅) in
  r1.2 = Finished tt /\ printed (trace r1.1) = [] /\
  last (trace r1.1) =
    Some (DistGather (attr_of sample_externals [[6; 7; 8]; [9; 10; 11]]%Q) None).
Proof.
  split; [reflexivity|]. split; [reflexivity|].
  apply (proj2 (proj1 (only_rank0_prints sample_externals no_faults
                         [gather_reply [] 1] 1 2 2 [[6; 7; 8]; [9; 10; 11]]%Q
                         (init_state ∅) ltac:(lia)))).
  intros e. discriminate.
Defined.
